(** * go-webvtt: a shallow embedding of webvtt.go and its specification

    The development follows the source file top-down: the parts of Go's
    [strings], [strconv], [time], [regexp] and [bufio] packages that
    webvtt.go calls, then the data model, then [parseTimestamp],
    [parseTimestampLine], [parseVoices], [parseCue], [parseBlock],
    [Parse] and [ParseAll], and finally the theorems.

    A Go [string] is a sequence of bytes; it is modelled by Rocq's
    [string], whose characters are the 256 byte values.  Positions and
    lengths are [nat]; [int] and [time.Duration] values are [Z] with the
    64-bit wrap-around written out. *)

From Stdlib Require Import ZArith String Ascii List Lia Bool.
From stdpp Require Import gmap strings.
Import ListNotations.
Local Open Scope string_scope.
Local Open Scope list_scope.

#[local] Arguments String.append : simpl nomatch.

(** ** Package [strings] *)

Module strings.

(** [len(s)] *)
Definition len (s : string) : nat := String.length s.

(** [s == ""] *)
Definition isEmpty (s : string) : bool :=
  match s with
  | EmptyString => true
  | String _ _ => false
  end.

(** [s[n:]] for [n <= len(s)]. *)
Fixpoint drop (n : nat) (s : string) : string :=
  match n, s with
  | 0, _ => s
  | S k, String _ s' => drop k s'
  | S _, EmptyString => EmptyString
  end.

(** [s[:n]] for [n <= len(s)]. *)
Fixpoint take (n : nat) (s : string) : string :=
  match n, s with
  | 0, _ => EmptyString
  | S k, String c s' => String c (take k s')
  | S _, EmptyString => EmptyString
  end.

(** [s[a:b]].  Every slice expression of webvtt.go has [a <= b <= len(s)]
    (Go panics otherwise); the embedding truncates instead. *)
Definition slice (s : string) (a b : nat) : string := take (b - a) (drop a s).

Fixpoint rev_append (s acc : string) : string :=
  match s with
  | EmptyString => acc
  | String c s' => rev_append s' (String c acc)
  end.

Definition rev (s : string) : string := rev_append s EmptyString.

(** [strings.HasPrefix(s, prefix)] *)
Fixpoint HasPrefix (s prefix : string) {struct prefix} : bool :=
  match prefix, s with
  | EmptyString, _ => true
  | String p prefix', String c s' => Ascii.eqb c p && HasPrefix s' prefix'
  | String _ _, EmptyString => false
  end.

(** [strings.CutPrefix(s, prefix)]: [(after, found)]. *)
Definition CutPrefix (s prefix : string) : string * bool :=
  if HasPrefix s prefix then (drop (len prefix) s, true) else (s, false).

(** [strings.Index(s, substr)]; [None] stands for Go's [-1]. *)
Fixpoint Index (s substr : string) : option nat :=
  if HasPrefix s substr then Some 0
  else match s with
       | EmptyString => None
       | String _ s' => option_map S (Index s' substr)
       end.

(** [strings.Join(elems, sep)] *)
Fixpoint Join (elems : list string) (sep : string) : string :=
  match elems with
  | [] => EmptyString
  | [e] => e
  | e :: rest => e +:+ sep +:+ Join rest sep
  end.

(** [strings.Split(s, sep)] for a non-empty separator (the only use in
    webvtt.go): the pieces between the successive non-overlapping
    occurrences of [sep], found left to right.  [skip] counts the bytes
    of an occurrence still to be passed over, [cur] is the piece being
    collected. *)
Fixpoint Split_from (sep : string) (skip : nat) (cur s : string) : list string :=
  match skip with
  | S k =>
      match s with
      | String _ s' => Split_from sep k cur s'
      | EmptyString => [cur]
      end
  | 0 =>
      match s with
      | EmptyString => [cur]
      | String c s' =>
          if HasPrefix s sep
          then cur :: Split_from sep (len sep - 1) EmptyString s'
          else Split_from sep 0 (cur +:+ String c EmptyString) s'
      end
  end.

Definition Split (s sep : string) : list string :=
  Split_from sep 0 EmptyString s.

(** [strings.SplitN(s, sep, 2)]: cut at the first occurrence only. *)
Definition SplitN2 (s sep : string) : list string :=
  match Index s sep with
  | Some m => [take m s; drop (m + len sep) s]
  | None => [s]
  end.

(** *** White space

    [strings.TrimSpace] and [strings.Fields] use [unicode.IsSpace] on the
    runes of the UTF-8 text.  The white-space runes are
    U+0009..U+000D, U+0020, U+0085, U+00A0, U+1680, U+2000..U+200A,
    U+2028, U+2029, U+202F, U+205F and U+3000.  [space_width s] is the
    number of bytes of the white-space rune that [s] starts with, and 0
    when [s] starts with no such rune.  An ASCII byte or a lead byte
    never occurs inside a well-formed multi-byte rune, and an ill-formed
    byte decodes to U+FFFD of width one, so looking for these encodings
    byte by byte finds exactly the white-space runes Go's decoder
    finds. *)

Definition code (c : ascii) : N := N_of_ascii c.

(** The [asciiSpace] table of package [strings]. *)
Definition asciiSpace (c : ascii) : bool :=
  let n := code c in
  ((9 <=? n) && (n <=? 13) || (n =? 32))%N.

Definition space_width (s : string) : nat :=
  match s with
  | EmptyString => 0
  | String c r =>
      if asciiSpace c then 1
      else match r with
           | EmptyString => 0
           | String d r' =>
               let c := code c in
               let d := code d in
               if (c =? 194)%N then
                 (if ((d =? 133) || (d =? 160))%N then 2 else 0)
               else match r' with
                    | EmptyString => 0
                    | String e _ =>
                        let e := code e in
                        if ((c =? 225) && (d =? 154) && (e =? 128))%N then 3
                        else if ((c =? 226) && (d =? 128) &&
                                 ((128 <=? e) && (e <=? 138) || (e =? 168) ||
                                  (e =? 169) || (e =? 175)))%N then 3
                        else if ((c =? 226) && (d =? 129) && (e =? 159))%N then 3
                        else if ((c =? 227) && (d =? 128) && (e =? 128))%N then 3
                        else 0
                    end
           end
  end.

(** The same test on the reversed text: the width of the white-space
    rune that ends where the reversed string starts
    ([utf8.DecodeLastRuneInString]). *)
Definition space_width_rev (s : string) : nat :=
  match s with
  | EmptyString => 0
  | String e r =>
      if asciiSpace e then 1
      else match r with
           | EmptyString => 0
           | String d r' =>
               match space_width (String d (String e EmptyString)) with
               | 2 => 2
               | _ =>
                   match r' with
                   | EmptyString => 0
                   | String c _ =>
                       match space_width (String c (String d (String e EmptyString))) with
                       | 3 => 3
                       | _ => 0
                       end
                   end
               end
           end
  end.

(** Remove white-space runes while [width] finds one at the front. *)
Fixpoint trim_front (width : string -> nat) (skip : nat) (s : string) : string :=
  match skip with
  | S k =>
      match s with
      | String _ s' => trim_front width k s'
      | EmptyString => EmptyString
      end
  | 0 =>
      match width s with
      | 0 => s
      | S w =>
          match s with
          | String _ s' => trim_front width w s'
          | EmptyString => EmptyString
          end
      end
  end.

Definition TrimLeftSpace (s : string) : string := trim_front space_width 0 s.

Definition TrimRightSpace (s : string) : string :=
  rev (trim_front space_width_rev 0 (rev s)).

(** [strings.TrimSpace(s)] *)
Definition TrimSpace (s : string) : string := TrimRightSpace (TrimLeftSpace s).

Definition emit (cur : string) : list string :=
  match cur with
  | EmptyString => []
  | _ => [cur]
  end.

(** [strings.Fields(s)]: the maximal runs of non-white-space runes. *)
Fixpoint Fields_from (skip : nat) (cur s : string) : list string :=
  match s with
  | EmptyString => emit cur
  | String c s' =>
      match skip with
      | S k => Fields_from k cur s'
      | 0 =>
          match space_width s with
          | 0 => Fields_from 0 (cur +:+ String c EmptyString) s'
          | S w => emit cur ++ Fields_from w EmptyString s'
          end
      end
  end.

Definition Fields (s : string) : list string := Fields_from 0 EmptyString s.

End strings.

(** ** Errors

    [errors.New] values, [strconv.NumError] and the wrapping error that
    [fmt.Errorf] builds for the verb [%w] ([prefix] is the text of the
    format before the verb). *)

Inductive error : Type :=
| errorString (s : string)
| NumError (Func Num : string) (Err : error)
| wrapError (prefix : string) (err : error).

(** ** Package [strconv] *)

Module strconv.

Definition ErrSyntax : error := errorString "invalid syntax".
Definition ErrRange : error := errorString "value out of range".

Definition isDigit (c : ascii) : bool :=
  let n := strings.code c in ((48 <=? n) && (n <=? 57))%N.

Definition digitVal (c : ascii) : Z := Z.of_N (strings.code c) - 48.

Definition maxUint64 : Z := 2 ^ 64 - 1.

Inductive uintResult : Type :=
| uintOk (n : Z)
| uintSyntax
| uintRange.

(** The digit loop of [ParseUint(s, 10, 64)]: the first byte that is not
    a decimal digit is a syntax error, the first digit at which the value
    leaves 64 bits is a range error. *)
Fixpoint parseUint_loop (s : string) (n : Z) : uintResult :=
  match s with
  | EmptyString => uintOk n
  | String c s' =>
      if isDigit c then
        if (maxUint64 / 10 + 1 <=? n)%Z then uintRange
        else
          let n1 := (n * 10 + digitVal c)%Z in
          if (maxUint64 <? n1)%Z then uintRange
          else parseUint_loop s' n1
      else uintSyntax
  end.

(** [strconv.Atoi(s)] with a 64-bit [int]: an optional sign, then decimal
    digits; the value must fit in [int].  (Atoi's fast path for short
    strings computes the same result as [ParseInt(s, 10, 0)], which is
    what is written here.) *)
Definition Atoi (s : string) : Z * option error :=
  let cutoff := (2 ^ 63)%Z in
  match s with
  | EmptyString => (0%Z, Some (NumError "Atoi" s ErrSyntax))
  | String c rest =>
      let neg := Ascii.eqb c "-" in
      let body := if Ascii.eqb c "+" || neg then rest else s in
      match body with
      | EmptyString => (0%Z, Some (NumError "Atoi" s ErrSyntax))
      | _ =>
          match parseUint_loop body 0 with
          | uintSyntax => (0%Z, Some (NumError "Atoi" s ErrSyntax))
          | uintRange =>
              ((if neg then - cutoff else cutoff - 1)%Z,
               Some (NumError "Atoi" s ErrRange))
          | uintOk un =>
              if negb neg && (cutoff <=? un)%Z
              then ((cutoff - 1)%Z, Some (NumError "Atoi" s ErrRange))
              else if neg && (cutoff <? un)%Z
              then ((- cutoff)%Z, Some (NumError "Atoi" s ErrRange))
              else ((if neg then - un else un)%Z, None)
          end
      end
  end.

End strconv.

(** ** Package [time]

    A [time.Duration] is an [int64] count of nanoseconds; products and
    sums wrap around. *)

Module time.

Definition Duration : Type := Z.

Definition wrap64 (z : Z) : Z := ((z + 2 ^ 63) mod 2 ^ 64 - 2 ^ 63)%Z.

Definition Nanosecond : Duration := 1%Z.
Definition Microsecond : Duration := (1000 * Nanosecond)%Z.
Definition Millisecond : Duration := (1000 * Microsecond)%Z.
Definition Second : Duration := (1000 * Millisecond)%Z.
Definition Minute : Duration := (60 * Second)%Z.
Definition Hour : Duration := (60 * Minute)%Z.

Definition mul (a b : Duration) : Duration := wrap64 (a * b).
Definition add (a b : Duration) : Duration := wrap64 (a + b).

End time.

(** ** Package [regexp]

    The two patterns of webvtt.go use literals, the classes [\d], [\s]
    and [[^>]], concatenation, the greedy operators [?], [+] and
    [{n,m}], capture groups and [^].  [run] is the backtracking matcher
    whose first success is the match Go's leftmost-first semantics
    selects.  All literals and the classes [\d] and [\s] are ASCII, and
    [[^>]] accepts every rune but [>], whose encoding is the single byte
    62, so matching byte by byte selects the same positions as matching
    rune by rune. *)

Module regexp.

Inductive Regexp : Type :=
| Empty
| Bol
| Class (p : ascii -> bool)
| Cat (r1 r2 : Regexp)
| Opt (r : Regexp)
| Star (r : Regexp)
| Group (i : nat) (r : Regexp).

Definition Plus (r : Regexp) : Regexp := Cat r (Star r).

Definition Lit (c : ascii) : Regexp := Class (Ascii.eqb c).

Fixpoint Cats (rs : list Regexp) : Regexp :=
  match rs with
  | [] => Empty
  | [r] => r
  | r :: rs' => Cat r (Cats rs')
  end.

(** [r{n}] *)
Definition Times (n : nat) (r : Regexp) : Regexp := Cats (repeat r n).

(** [\d] *)
Definition digit : ascii -> bool := strconv.isDigit.

(** [\s]: the bytes tab, line feed, form feed, carriage return, space. *)
Definition space (c : ascii) : bool :=
  let n := strings.code c in
  ((n =? 9) || (n =? 10) || (n =? 12) || (n =? 13) || (n =? 32))%N.

(** [[^>]] *)
Definition notGt (c : ascii) : bool := negb (Ascii.eqb c ">").

(** The spans of the capture groups that took part, latest first. *)
Definition caps : Type := list (nat * (nat * nat)).

Fixpoint group (i : nat) (cs : caps) : option (nat * nat) :=
  match cs with
  | [] => None
  | (j, span) :: cs' => if Nat.eqb i j then Some span else group i cs'
  end.

Section Run.
Context {T : Type}.

(** The greedy loop of [r*]: one more round of [step] if it succeeds and
    consumes something, otherwise on to [k].  Every round consumes at
    least one byte, so [fuel], the number of bytes left, is never used
    up. *)
Fixpoint star_loop
    (step : string -> nat -> caps -> (string -> nat -> caps -> option T) -> option T)
    (k : string -> nat -> caps -> option T)
    (fuel : nat) (s : string) (pos : nat) (cs : caps) {struct fuel} : option T :=
  match
    match fuel with
    | 0 => None
    | S fuel' =>
        step s pos cs
          (fun s' pos' cs' =>
             if Nat.ltb pos pos' then star_loop step k fuel' s' pos' cs' else None)
    end
  with
  | Some x => Some x
  | None => k s pos cs
  end.

(** [run r s pos cs k]: match [r] at the front of [s], which is the text
    from byte [pos] on, then hand the rest to [k]; alternatives are tried
    in the order of preference and the first success is kept. *)
Fixpoint run (r : Regexp) (s : string) (pos : nat) (cs : caps)
    (k : string -> nat -> caps -> option T) {struct r} : option T :=
  match r with
  | Empty => k s pos cs
  | Bol => if Nat.eqb pos 0 then k s pos cs else None
  | Class p =>
      match s with
      | String c s' => if p c then k s' (S pos) cs else None
      | EmptyString => None
      end
  | Cat r1 r2 => run r1 s pos cs (fun s' pos' cs' => run r2 s' pos' cs' k)
  | Opt r1 =>
      match run r1 s pos cs k with
      | Some x => Some x
      | None => k s pos cs
      end
  | Star r1 => star_loop (run r1) k (String.length s) s pos cs
  | Group i r1 =>
      run r1 s pos cs (fun s' pos' cs' => k s' pos' ((i, (pos, pos')) :: cs'))
  end.

End Run.

(** One match: where it starts, where it ends, its groups. *)
Record Submatch : Type :=
  { m_start : nat; m_end : nat; m_caps : caps }.

Definition matchAt (r : Regexp) (s : string) (pos : nat) : option Submatch :=
  run r s pos [] (fun _ e cs => Some {| m_start := pos; m_end := e; m_caps := cs |}).

(** The leftmost match in [s], the text from byte [pos] on. *)
Fixpoint search (r : Regexp) (s : string) (pos : nat) : option Submatch :=
  match matchAt r s pos with
  | Some m => Some m
  | None =>
      match s with
      | EmptyString => None
      | String _ s' => search r s' (S pos)
      end
  end.

(** [re.MatchString(s)] *)
Definition MatchString (r : Regexp) (s : string) : bool :=
  match search r s 0 with
  | Some _ => true
  | None => false
  end.

(** [re.FindAllStringSubmatchIndex(s, -1)] for a pattern that matches no
    empty string: the successive leftmost matches, each search starting
    where the previous match ended.  [skip] counts the bytes of the last
    match still to be passed over. *)
Fixpoint findAll (r : Regexp) (skip : nat) (s : string) (pos : nat) : list Submatch :=
  match skip with
  | S k =>
      match s with
      | String _ s' => findAll r k s' (S pos)
      | EmptyString => []
      end
  | 0 =>
      match matchAt r s pos with
      | Some m =>
          m :: match s with
               | String _ s' => findAll r (m_end m - pos - 1) s' (S pos)
               | EmptyString => []
               end
      | None =>
          match s with
          | String _ s' => findAll r 0 s' (S pos)
          | EmptyString => []
          end
      end
  end.

Definition FindAllStringSubmatchIndex (r : Regexp) (s : string) : list Submatch :=
  findAll r 0 s 0.

End regexp.

(** ** Package [bufio]

    [Parse] reads its input only through a [bufio.Scanner] with the
    default split function [ScanLines]: each successful [Scan] delivers
    the next line, and once [Scan] has returned false [Err] tells whether
    reading stopped on an error.  A scanner is therefore the lines it
    delivers and its final error. *)

Module bufio.

Record Scanner : Type :=
  { lines : list string; Err : option error }.

Definition ErrTooLong : error := errorString "bufio.Scanner: token too long".

Definition MaxScanTokenSize : nat := 64 * 1024.

(** [dropCR]: a line loses one trailing carriage return. *)
Definition dropCR (line : string) : string :=
  match strings.rev line with
  | String c r => if Ascii.eqb c "013" then strings.rev r else line
  | EmptyString => line
  end.

(** The scanner of [bufio.NewScanner(strings.NewReader(data))]: lines end
    at a line feed or at the end of the data, and a line that does not
    fit the buffer of [MaxScanTokenSize] bytes stops the scanner with
    [ErrTooLong].  [cur] is the line being read. *)
Fixpoint scanLines (cur data : string) : Scanner :=
  match data with
  | EmptyString =>
      if strings.isEmpty cur then {| lines := []; Err := None |}
      else if (MaxScanTokenSize <=? strings.len cur)%nat
      then {| lines := []; Err := Some ErrTooLong |}
      else {| lines := [dropCR cur]; Err := None |}
  | String c data' =>
      if Ascii.eqb c "010" then
        if (MaxScanTokenSize <=? strings.len cur)%nat
        then {| lines := []; Err := Some ErrTooLong |}
        else
          let rest := scanLines EmptyString data' in
          {| lines := dropCR cur :: lines rest; Err := Err rest |}
      else scanLines (cur +:+ String c EmptyString) data'
  end.

Definition NewScanner (data : string) : Scanner := scanLines EmptyString data.

End bufio.

(** ** The data model of webvtt.go *)

Import strings.

Definition nl : string := String "010" EmptyString.

(** The fields of Rocq records share one name space: the field [Region]
    of [CueSettings] is [Region_], the fields [Text] of [Note] and [Style]
    are [NoteText] and [StyleText], and the fields [ID] and [Settings] of
    [Region] are [RegionID] and [RegionSettings]. *)

Record CueSettings : Type :=
  { Vertical : string;
    Line : string;
    Position : string;
    Size : string;
    Align : string;
    Region_ : string }.

Record Voice : Type :=
  { Speaker : string; Text : string }.

Record Cue : Type :=
  { ID : string;
    StartTime : time.Duration;
    EndTime : time.Duration;
    Settings : CueSettings;
    Voices : list Voice }.

Record Note : Type := { NoteText : string }.

Record Style : Type := { StyleText : string }.

Record Region : Type :=
  { RegionID : string; RegionSettings : gmap string string }.

(** The interface [Block] is implemented by exactly these four types. *)
Inductive Block : Type :=
| BlockCue (c : Cue)
| BlockNote (n : Note)
| BlockStyle (s : Style)
| BlockRegion (r : Region).

(** The constants of [BlockType] and the method [blockType]. *)
Inductive BlockType : Type :=
| BlockTypeCue
| BlockTypeNote
| BlockTypeStyle
| BlockTypeRegion.

Definition blockType (b : Block) : BlockType :=
  match b with
  | BlockCue _ => BlockTypeCue
  | BlockNote _ => BlockTypeNote
  | BlockStyle _ => BlockTypeStyle
  | BlockRegion _ => BlockTypeRegion
  end.

Record WebVTT : Type := { Cues : list Cue }.

(** The zero values of the struct types. *)
Definition zeroSettings : CueSettings :=
  {| Vertical := ""; Line := ""; Position := ""; Size := ""; Align := "";
     Region_ := "" |}.

Definition zeroCue : Cue :=
  {| ID := ""; StartTime := 0%Z; EndTime := 0%Z; Settings := zeroSettings;
     Voices := [] |}.

(** ** The patterns *)

Import regexp.

(** [(\d{1,2}:)?\d{2}:\d{2}\.\d{3}], the optional hours being group [g]. *)
Definition timestampRe (g : nat) : Regexp :=
  Cats [ Opt (Group g (Cats [Class digit; Opt (Class digit); Lit ":"]));
         Times 2 (Class digit); Lit ":";
         Times 2 (Class digit); Lit ".";
         Times 3 (Class digit) ].

(** [^(\d{1,2}:)?\d{2}:\d{2}\.\d{3}\s+-->\s+(\d{1,2}:)?\d{2}:\d{2}\.\d{3}] *)
Definition timestampLineRegex : Regexp :=
  Cats [ Bol; timestampRe 1;
         Plus (Class space); Lit "-"; Lit "-"; Lit ">"; Plus (Class space);
         timestampRe 2 ].

(** [<v\s+([^>]+)>] *)
Definition voiceStartRegex : Regexp :=
  Cats [ Lit "<"; Lit "v"; Plus (Class space);
         Group 1 (Plus (Class notGt)); Lit ">" ].

(** ** webvtt.go *)

(** Go's [v, err = f(x); if err != nil { return 0, err }]. *)
Notation "'let?' x ':=' e 'in' k" :=
  (match e with
   | (x, None) => k
   | (_, Some err) => (0%Z, Some err)
   end)
  (at level 10, x name, e at level 100, k at level 200, only parsing).

(** [hours*time.Hour + minutes*time.Minute + seconds*time.Second +
    millis*time.Millisecond] in [int64]. *)
Definition duration (hours minutes seconds millis : Z) : time.Duration :=
  time.add
    (time.add
       (time.add (time.mul hours time.Hour) (time.mul minutes time.Minute))
       (time.mul seconds time.Second))
    (time.mul millis time.Millisecond).

Definition parseTimestamp (s : string) : time.Duration * option error :=
  let parts := Split s ":" in
  match parts with
  | [p0; p1; p2] =>
      (* HH:MM:SS.mmm *)
      let? hours := strconv.Atoi p0 in
      let? minutes := strconv.Atoi p1 in
      let secParts := Split p2 "." in
      let? seconds := strconv.Atoi (nth 0 secParts "") in
      if (1 <? length secParts)%nat then
        let? millis := strconv.Atoi (nth 1 secParts "") in
        (duration hours minutes seconds millis, None)
      else (duration hours minutes seconds 0, None)
  | [p0; p1] =>
      (* MM:SS.mmm *)
      let? minutes := strconv.Atoi p0 in
      let secParts := Split p1 "." in
      let? seconds := strconv.Atoi (nth 0 secParts "") in
      if (1 <? length secParts)%nat then
        let? millis := strconv.Atoi (nth 1 secParts "") in
        (duration 0 minutes seconds millis, None)
      else (duration 0 minutes seconds 0, None)
  | _ => (0%Z, Some (errorString "invalid timestamp format"))
  end.

(** One iteration of the settings loop of [parseTimestampLine]. *)
Definition applySetting (settings : CueSettings) (s : string) : CueSettings :=
  match Index s ":" with
  | Some (S i) =>
      let idx := S i in
      let key := take idx s in
      let value := drop (idx + 1) s in
      if String.eqb key "vertical" then
        {| Vertical := value; Line := Line settings; Position := Position settings;
           Size := Size settings; Align := Align settings; Region_ := Region_ settings |}
      else if String.eqb key "line" then
        {| Vertical := Vertical settings; Line := value; Position := Position settings;
           Size := Size settings; Align := Align settings; Region_ := Region_ settings |}
      else if String.eqb key "position" then
        {| Vertical := Vertical settings; Line := Line settings; Position := value;
           Size := Size settings; Align := Align settings; Region_ := Region_ settings |}
      else if String.eqb key "size" then
        {| Vertical := Vertical settings; Line := Line settings; Position := Position settings;
           Size := value; Align := Align settings; Region_ := Region_ settings |}
      else if String.eqb key "align" then
        {| Vertical := Vertical settings; Line := Line settings; Position := Position settings;
           Size := Size settings; Align := value; Region_ := Region_ settings |}
      else if String.eqb key "region" then
        {| Vertical := Vertical settings; Line := Line settings; Position := Position settings;
           Size := Size settings; Align := Align settings; Region_ := value |}
      else settings
  | _ => settings
  end.

(** The four results of [parseTimestampLine]. *)
Record TimestampLine : Type :=
  { tl_start : time.Duration;
    tl_end : time.Duration;
    tl_settings : CueSettings;
    tl_err : option error }.

Definition timestampLineError (e : error) : TimestampLine :=
  {| tl_start := 0%Z; tl_end := 0%Z; tl_settings := zeroSettings; tl_err := Some e |}.

Definition parseTimestampLine (line : string) : TimestampLine :=
  (* Split by "-->" *)
  match SplitN2 line "-->" with
  | [part0; part1] =>
      let startStr := TrimSpace part0 in
      let rest := TrimSpace part1 in
      (* End time and optional settings *)
      match Fields rest with
      | [] => timestampLineError (errorString "missing end timestamp")
      | endStr :: settingTokens =>
          match parseTimestamp startStr with
          | (_, Some err) =>
              timestampLineError (wrapError "invalid start timestamp: " err)
          | (start, None) =>
              match parseTimestamp endStr with
              | (_, Some err) =>
                  timestampLineError (wrapError "invalid end timestamp: " err)
              | (end_, None) =>
                  {| tl_start := start; tl_end := end_;
                     tl_settings := fold_left applySetting settingTokens zeroSettings;
                     tl_err := None |}
              end
          end
      end
  | _ => timestampLineError (errorString "invalid timestamp line")
  end.

(** [voices[len(voices)-1].Text += " " + prefix] *)
Definition appendToLast (voices : list Voice) (prefix : string) : list Voice :=
  alter (fun v => {| Speaker := Speaker v; Text := Text v +:+ " " +:+ prefix |})
        (length voices - 1) voices.

(** The body of the loop [for i, match := range matches] of
    [parseVoices]; [matches] holds the current match and those after
    it, so that [matches[i+1]] is its second element. *)
Fixpoint parseVoices_loop (text : string) (matches : list Submatch)
    (lastEnd : nat) (voices : list Voice) : list Voice :=
  match matches with
  | [] => voices
  | m :: later =>
      (* Text before this voice tag (if any, and not part of a voice) *)
      let voices :=
        if (lastEnd <? m_start m)%nat then
          let prefix := TrimSpace (slice text lastEnd (m_start m)) in
          if negb (isEmpty prefix) && (0 <? length voices)%nat then
            (* Append to previous voice *)
            appendToLast voices prefix
          else if negb (isEmpty prefix) then
            voices ++ [{| Speaker := ""; Text := prefix |}]
          else voices
        else voices in
      let name :=
        match group 1 (m_caps m) with
        | Some (a, b) => slice text a b
        | None => ""
        end in
      let tagEnd := m_end m in
      (* Find the end of this voice's text *)
      let voiceText :=
        match later with
        | next :: _ => slice text tagEnd (m_start next)
        | [] => drop tagEnd text
        end in
      (* Remove </v> if present *)
      let '(voiceText, lastEnd) :=
        match Index voiceText "</v>" with
        | Some idx => (take idx voiceText, tagEnd + idx + 4)
        | None => (voiceText, tagEnd + len voiceText)
        end in
      parseVoices_loop text later lastEnd
        (voices ++ [{| Speaker := name; Text := TrimSpace voiceText |}])
  end.

Definition parseVoices (text : string) : list Voice :=
  (* Find all voice tags *)
  let matches := FindAllStringSubmatchIndex voiceStartRegex text in
  match matches with
  | [] =>
      (* No voice tags, treat entire text as anonymous voice *)
      [{| Speaker := ""; Text := text |}]
  | _ => parseVoices_loop text matches 0 []
  end.

(** [parseCue] is called by [parseBlock] only, with at least one line;
    on no line at all [lines[0]] panics, which is the first case. *)
Definition parseCue (lines : list string) : Cue * option error :=
  match lines with
  | [] => (zeroCue, Some (errorString "index out of range"))
  | first :: _ =>
      (* Check if first line is cue ID (not a timestamp line) *)
      let '(id, idx) :=
        if negb (MatchString timestampLineRegex first) then (first, 1) else ("", 0) in
      let cue := {| ID := id; StartTime := 0%Z; EndTime := 0%Z;
                    Settings := zeroSettings; Voices := [] |} in
      if (length lines <=? idx)%nat then
        (cue, Some (errorString "missing timestamp line"))
      else
        (* Parse timestamp line *)
        let tsLine := nth idx lines "" in
        let r := parseTimestampLine tsLine in
        match tl_err r with
        | Some err => (cue, Some err)
        | None =>
            let idx := idx + 1 in
            (* Parse text content *)
            let voices :=
              if (idx <? length lines)%nat
              then parseVoices (Join (skipn idx lines) nl)
              else [] in
            ({| ID := id; StartTime := tl_start r; EndTime := tl_end r;
                Settings := tl_settings r; Voices := voices |}, None)
        end
  end.

(** One iteration of the loop over the lines of a REGION block. *)
Definition regionLine (region : Region) (line : string) : Region :=
  if String.eqb line "REGION" then region
  else match Index line ":" with
       | Some (S i) =>
           let idx := S i in
           let key := TrimSpace (take idx line) in
           let value := TrimSpace (drop (idx + 1) line) in
           if String.eqb key "id" then
             {| RegionID := value; RegionSettings := RegionSettings region |}
           else
             {| RegionID := RegionID region;
                RegionSettings := <[key := value]> (RegionSettings region) |}
       | _ => region
       end.

(** The interface value and the error that [parseBlock] returns; a nil
    interface is [None]. *)
Definition parseBlock (lines : list string) : option Block * option error :=
  match lines with
  | [] => (None, None)
  | first :: rest =>
      (* NOTE block *)
      let '(text, ok) := CutPrefix first "NOTE" in
      if ok then
        let text := TrimSpace text in
        let text :=
          if (1 <? length lines)%nat then text +:+ nl +:+ Join rest nl else text in
        (Some (BlockNote {| NoteText := TrimSpace text |}), None)
      (* STYLE block *)
      else if String.eqb first "STYLE" then
        (Some (BlockStyle {| StyleText := Join rest nl |}), None)
      (* REGION block *)
      else if String.eqb first "REGION" || HasPrefix first "REGION" then
        let region := {| RegionID := ""; RegionSettings := ∅ |} in
        let startIdx := if String.eqb first "REGION" then 1 else 0 in
        (Some (BlockRegion (fold_left regionLine (skipn startIdx lines) region)), None)
      (* Cue block *)
      else
        let '(cue, err) := parseCue lines in
        (Some (BlockCue cue), err)
  end.

(** *** The iterator

    [Parse] returns a function that calls [yield] on each item; the
    consumer answers whether it wants more.  The consumer and whatever it
    keeps between calls are the function [yield] on a state [St]. *)

Section Parse.
Context {St : Type}.
Variable yield : St -> option Block -> option error -> St * bool.

(** How a piece of the iterator body ends: by [return], or by running on
    with the lines collected so far. *)
Inductive flow : Type :=
| Returned (st : St)
| Running (lines : list string) (st : St).

(** Classify the collected lines and yield the result. *)
Definition flush (lines : list string) (st : St) : flow :=
  match parseBlock lines with
  | (_, Some err) =>
      let '(st', more) := yield st None (Some err) in
      if more then Running [] st' else Returned st'
  | (Some block, None) =>
      let '(st', more) := yield st (Some block) None in
      if more then Running [] st' else Returned st'
  | (None, None) => Running [] st
  end.

(** The loop [for scanner.Scan()] over the lines after the header. *)
Fixpoint Parse_loop (tokens lines : list string) (st : St) : flow :=
  match tokens with
  | [] => Running lines st
  | line :: tokens' =>
      if isEmpty line then
        (* Empty line = end of block *)
        if (0 <? length lines)%nat then
          match flush lines st with
          | Running lines' st' => Parse_loop tokens' lines' st'
          | Returned st' => Returned st'
          end
        else Parse_loop tokens' lines st
      else Parse_loop tokens' (lines ++ [line]) st
  end.

(** The last block: here an error is yielded and the body returns
    whatever the consumer answers. *)
Definition Parse_last (lines : list string) (st : St) : flow :=
  if (0 <? length lines)%nat then
    match parseBlock lines with
    | (_, Some err) => Returned (fst (yield st None (Some err)))
    | (Some block, None) =>
        let '(st', more) := yield st (Some block) None in
        if more then Running lines st' else Returned st'
    | (None, None) => Running lines st
    end
  else Running lines st.

Definition Parse (r : bufio.Scanner) (st : St) : St :=
  match bufio.lines r with
  | [] =>
      (* Check WEBVTT header *)
      match bufio.Err r with
      | Some err => fst (yield st None (Some err))
      | None => fst (yield st None (Some (errorString "empty input")))
      end
  | header :: tokens =>
      if negb (HasPrefix header "WEBVTT") then
        fst (yield st None (Some (errorString "missing WEBVTT header")))
      else
        match Parse_loop tokens [] st with
        | Returned st' => st'
        | Running lines st' =>
            (* Handle last block *)
            match Parse_last lines st' with
            | Returned st'' => st''
            | Running _ st'' =>
                match bufio.Err r with
                | Some err => fst (yield st'' None (Some err))
                | None => st''
                end
            end
        end
  end.

End Parse.

(** The body of the loop [for block, err := range Parse(r)] of
    [ParseAll]: the state is the cues of [vtt] and the error of a
    [return nil, err] that has been executed. *)
Definition ParseAll_body (st : list Cue * option error)
    (block : option Block) (err : option error)
  : (list Cue * option error) * bool :=
  match err with
  | Some e => ((fst st, Some e), false)
  | None =>
      match block with
      | Some (BlockCue cue) => ((fst st ++ [cue], snd st), true)
      | _ => (st, true)
      end
  end.

Definition ParseAll (r : bufio.Scanner) : option WebVTT * option error :=
  match Parse ParseAll_body r ([], None) with
  | (_, Some err) => (None, Some err)
  | (cues, None) => (Some {| Cues := cues |}, None)
  end.

(** The items a consumer gets that always asks for more. *)
Definition item : Type := option Block * option error.

Definition collect (st : list item) (block : option Block) (err : option error)
  : list item * bool :=
  (st ++ [(block, err)], true).

Definition items (r : bufio.Scanner) : list item := Parse collect r [].

(** * Properties *)

(** Split the conjunctions of boolean hypotheses. *)
Ltac split_andb :=
  repeat match goal with
         | H : _ && _ = true |- _ =>
             let H' := fresh H in apply andb_true_iff in H as [H H']
         end.

(** ** The scanner and the header *)

Definition errEmptyInput : error := errorString "empty input".
Definition errMissingHeader : error := errorString "missing WEBVTT header".
Definition errMissingTimestampLine : error := errorString "missing timestamp line".
Definition errInvalidTimestampFormat : error := errorString "invalid timestamp format".

Lemma HasPrefix_app (p t : string) : HasPrefix (p +:+ t) p = true.
Proof.
  induction p as [|c p IH]; simpl; [reflexivity|].
  now rewrite Ascii.eqb_refl, IH.
Qed.

Lemma HasPrefix_inv (s p : string) :
  HasPrefix s p = true -> s = p +:+ drop (len p) s.
Proof.
  revert s; induction p as [|c p IH]; intros s H; simpl in *; [reflexivity|].
  destruct s as [|d s]; [discriminate|].
  apply andb_true_iff in H as [Hc Hp].
  apply Ascii.eqb_eq in Hc; subst d.
  simpl. f_equal. now apply IH.
Qed.

(** [HasPrefix] is the test "the text begins with the token". *)
Lemma HasPrefix_spec (s p : string) :
  HasPrefix s p = true <-> exists t, s = p +:+ t.
Proof.
  split.
  - intros H. eexists. now apply HasPrefix_inv.
  - intros [t ->]. apply HasPrefix_app.
Qed.

(** The scenario of the specification, as lines and as bytes. *)
Definition scenario1_lines : list string :=
  ["WEBVTT"; ""; "1"; "00:00:01.000 --> 00:00:04.000"; "Hello world."].

Definition scenario1_text : string :=
  "WEBVTT" +:+ nl +:+ nl +:+ "1" +:+ nl +:+
  "00:00:01.000 --> 00:00:04.000" +:+ nl +:+ "Hello world." +:+ nl.

Definition scenario1_cue : Cue :=
  {| ID := "1";
     StartTime := (1 * time.Second)%Z;
     EndTime := (4 * time.Second)%Z;
     Settings := zeroSettings;
     Voices := [{| Speaker := ""; Text := "Hello world." |}] |}.

(** C4. Parsing the lines "WEBVTT", a blank line, "1",
    "00:00:01.000 --> 00:00:04.000", "Hello world." yields exactly one item,
    a block and no error: the cue with ID "1", start 1 s, end 4 s, empty
    settings and the single voice with empty speaker and text
    "Hello world.".  The same holds when the input is given as bytes. *)
Theorem scenario1_one_cue :
  items {| bufio.lines := scenario1_lines; bufio.Err := None |}
    = [(Some (BlockCue scenario1_cue), None)]
  /\ bufio.NewScanner scenario1_text
    = {| bufio.lines := scenario1_lines; bufio.Err := None |}
  /\ items (bufio.NewScanner scenario1_text)
    = [(Some (BlockCue scenario1_cue), None)].
Proof.
  repeat split; vm_compute; reflexivity.
Qed.

(** C5. When the first line does not begin with the token WEBVTT, the
    sequence consists of the single item "missing WEBVTT header", whatever
    follows and whatever the consumer answers; the test is case-sensitive
    and accepts no leading white space.  An input with no line at all, read
    without error, yields the single item "empty input". *)
Theorem header_is_required (r : bufio.Scanner) :
  (forall header rest,
      bufio.lines r = header :: rest ->
      (forall t, header <> "WEBVTT" +:+ t) ->
      items r = [(None, Some errMissingHeader)]
      /\ forall (St : Type) (yield : St -> option Block -> option error -> St * bool) st,
          Parse yield r st = fst (yield st None (Some errMissingHeader)))
  /\ (bufio.lines r = [] -> bufio.Err r = None ->
      items r = [(None, Some errEmptyInput)]
      /\ forall (St : Type) (yield : St -> option Block -> option error -> St * bool) st,
          Parse yield r st = fst (yield st None (Some errEmptyInput)))
  /\ (forall t, "webvtt" <> "WEBVTT" +:+ t)
  /\ (forall t u, " " +:+ u <> "WEBVTT" +:+ t).
Proof.
  split; [|split; [|split]].
  - intros header rest Hl Hp.
    assert (E : HasPrefix header "WEBVTT" = false).
    { destruct (HasPrefix header "WEBVTT") eqn:E; [|reflexivity].
      apply HasPrefix_spec in E as [t E]. now apply Hp in E. }
    unfold items, Parse. rewrite Hl, E. simpl. split; reflexivity.
  - intros Hl He. unfold items, Parse. rewrite Hl, He. split; reflexivity.
  - intros t H. discriminate H.
  - intros t u H. discriminate H.
Qed.

Lemma header_is_required_witness :
  items (bufio.NewScanner ("webvtt" +:+ nl +:+ nl +:+ "00:01.000 --> 00:02.000"))
    = [(None, Some errMissingHeader)]
  /\ items (bufio.NewScanner "") = [(None, Some errEmptyInput)].
Proof.
  split.
  - apply (proj1 (header_is_required _) "webvtt" [""; "00:01.000 --> 00:02.000"]);
      [reflexivity|].
    intros t H. discriminate H.
  - apply (proj1 (proj2 (header_is_required _))); reflexivity.
Defined.

(** ** The block classifier *)

Lemma region_not_style (first : string) :
  HasPrefix first "REGION" = true -> String.eqb first "STYLE" = false.
Proof.
  destruct first as [|c s]; simpl; [discriminate|].
  destruct (Ascii.eqb_spec c "R") as [->|]; [reflexivity|discriminate].
Qed.

(** C9. A group whose first line starts with NOTE, is STYLE, or starts
    with REGION is classified as a Note, Style or Region block without
    error; whenever the classifier returns an error, it is the error of
    the cue builder, returned with its cue. *)
Theorem only_cues_fail :
  (forall first rest,
      (exists t, first = "NOTE" +:+ t) \/ first = "STYLE" \/
      (exists t, first = "REGION" +:+ t) ->
      exists b, parseBlock (first :: rest) = (Some b, None)
                /\ blockType b <> BlockTypeCue)
  /\ (forall lines e,
      snd (parseBlock lines) = Some e ->
      exists c, parseBlock lines = (Some (BlockCue c), Some e)
                /\ parseCue lines = (c, Some e)).
Proof.
  split.
  - intros first rest H. unfold parseBlock, CutPrefix.
    destruct (HasPrefix first "NOTE") eqn:Hn.
    { eexists; split; [reflexivity|discriminate]. }
    destruct H as [[t ->]|[->|[t ->]]].
    + now rewrite HasPrefix_app in Hn.
    + eexists; split; [reflexivity|discriminate].
    + pose proof (HasPrefix_app "REGION" t) as H.
      rewrite (region_not_style _ H), H, orb_true_r.
      eexists; split; [reflexivity|discriminate].
  - intros lines e H. unfold parseBlock, CutPrefix in *.
    destruct lines as [|first rest]; [discriminate|].
    destruct (HasPrefix first "NOTE"); [discriminate|].
    destruct (String.eqb first "STYLE"); [discriminate|].
    destruct (String.eqb first "REGION" || HasPrefix first "REGION"); [discriminate|].
    destruct (parseCue (first :: rest)) as [c err]. simpl in H. subst err.
    exists c. split; reflexivity.
Qed.

Lemma only_cues_fail_witness :
  (exists b, parseBlock ["NOTE a comment"; "more"] = (Some b, None)
             /\ blockType b <> BlockTypeCue)
  /\ (exists c, parseBlock ["1"] = (Some (BlockCue c), Some errMissingTimestampLine)
                /\ parseCue ["1"] = (c, Some errMissingTimestampLine)).
Proof.
  split.
  - apply (proj1 only_cues_fail). left. exists " a comment". reflexivity.
  - apply (proj2 only_cues_fail). reflexivity.
Defined.

(** ** The sequence of items

    What [Parse] does with a consumer is determined by the list of items
    it would hand to a consumer that never stops: the consumer is fed
    that list until it answers false. *)

Section Feed.
Context {St : Type}.
Variable yield : St -> option Block -> option error -> St * bool.

(** Feed the items to the consumer while it asks for more; the boolean
    tells whether it still does at the end. *)
Fixpoint feed (its : list item) (st : St) : St * bool :=
  match its with
  | [] => (st, true)
  | (block, err) :: its' =>
      let '(st', more) := yield st block err in
      if more then feed its' st' else (st', false)
  end.

Lemma feed_app (a b : list item) (st : St) :
  feed (a ++ b) st =
  match feed a st with
  | (st', true) => feed b st'
  | (st', false) => (st', false)
  end.
Proof.
  revert st; induction a as [|[block err] a IH]; intros st; simpl; [reflexivity|].
  destruct (yield st block err) as [st' [|]]; [apply IH|reflexivity].
Qed.

End Feed.

(** The items of one group of lines: one, except for no line at all. *)
Definition block_item (lines : list string) : list item :=
  match parseBlock lines with
  | (_, Some err) => [(None, Some err)]
  | (Some block, None) => [(Some block, None)]
  | (None, None) => []
  end.

(** The items of the scanning loop and the lines left when it ends. *)
Fixpoint loop_items (tokens lines : list string) : list item * list string :=
  match tokens with
  | [] => ([], lines)
  | line :: tokens' =>
      if isEmpty line then
        if (0 <? length lines)%nat then
          let '(its, pending) := loop_items tokens' [] in
          (block_item lines ++ its, pending)
        else loop_items tokens' lines
      else loop_items tokens' (lines ++ [line])
  end.

Definition error_item (err : option error) : list item :=
  match err with
  | Some e => [(None, Some e)]
  | None => []
  end.

(** The items of the last block and of the final scanner error. *)
Definition last_items (lines : list string) (err : option error) : list item :=
  if (0 <? length lines)%nat then
    match parseBlock lines with
    | (_, Some e) => [(None, Some e)]
    | (Some block, None) => (Some block, None) :: error_item err
    | (None, None) => error_item err
    end
  else error_item err.

Definition all_items (r : bufio.Scanner) : list item :=
  match bufio.lines r with
  | [] =>
      match bufio.Err r with
      | Some err => [(None, Some err)]
      | None => [(None, Some errEmptyInput)]
      end
  | header :: tokens =>
      if negb (HasPrefix header "WEBVTT") then [(None, Some errMissingHeader)]
      else
        let '(its, pending) := loop_items tokens [] in
        its ++ last_items pending (bufio.Err r)
  end.

Section ParseFeed.
Context {St : Type}.
Variable yield : St -> option Block -> option error -> St * bool.

Definition flow_of (lines : list string) (res : St * bool) : flow :=
  match res with
  | (st, true) => Running lines st
  | (st, false) => Returned st
  end.

Lemma flush_feed (lines : list string) (st : St) :
  flush yield lines st = flow_of [] (feed yield (block_item lines) st).
Proof.
  unfold flush, block_item.
  destruct (parseBlock lines) as [[block|] [err|]]; simpl;
    try destruct (yield st _ _) as [st' [|]]; reflexivity.
Qed.

Lemma Parse_loop_feed (tokens lines : list string) (st : St) :
  Parse_loop yield tokens lines st =
  flow_of (snd (loop_items tokens lines))
          (feed yield (fst (loop_items tokens lines)) st).
Proof.
  revert lines st; induction tokens as [|line tokens IH]; intros lines st;
    simpl; [reflexivity|].
  destruct (isEmpty line); [|apply IH].
  destruct (0 <? length lines)%nat; [|apply IH].
  rewrite flush_feed.
  destruct (loop_items tokens []) as [its pending] eqn:E. simpl.
  rewrite feed_app.
  destruct (feed yield (block_item lines) st) as [st' [|]]; simpl; [|reflexivity].
  rewrite IH, E. reflexivity.
Qed.

Lemma feed_error_item (err : option error) (st : St) :
  fst (feed yield (error_item err) st) =
  match err with
  | Some e => fst (yield st None (Some e))
  | None => st
  end.
Proof.
  destruct err as [e|]; simpl; [|reflexivity].
  now destruct (yield st None (Some e)) as [st' [|]].
Qed.

Lemma Parse_last_feed (lines : list string) (err : option error) (st : St) :
  match Parse_last yield lines st with
  | Returned st' => st'
  | Running _ st' =>
      match err with
      | Some e => fst (yield st' None (Some e))
      | None => st'
      end
  end = fst (feed yield (last_items lines err) st).
Proof.
  unfold Parse_last, last_items.
  destruct (0 <? length lines)%nat; [|now rewrite feed_error_item].
  destruct (parseBlock lines) as [[block|] [e|]]; simpl.
  - now destruct (yield st None (Some e)) as [st' [|]].
  - destruct (yield st (Some block) None) as [st' [|]]; [|reflexivity].
    now rewrite feed_error_item.
  - now destruct (yield st None (Some e)) as [st' [|]].
  - now rewrite feed_error_item.
Qed.

Lemma Parse_all_items (r : bufio.Scanner) (st : St) :
  Parse yield r st = fst (feed yield (all_items r) st).
Proof.
  unfold Parse, all_items.
  destruct (bufio.lines r) as [|header tokens].
  - destruct (bufio.Err r) as [e|]; simpl;
      now destruct (yield st None _) as [st' [|]].
  - destruct (negb (HasPrefix header "WEBVTT")).
    + simpl. now destruct (yield st None _) as [st' [|]].
    + rewrite Parse_loop_feed.
      destruct (loop_items tokens []) as [its pending]. simpl.
      rewrite feed_app.
      destruct (feed yield its st) as [st' [|]]; simpl; [|reflexivity].
      apply Parse_last_feed.
Qed.

End ParseFeed.

Lemma feed_collect (its acc : list item) :
  feed collect its acc = (acc ++ its, true).
Proof.
  revert acc; induction its as [|[block err] its IH]; intros acc; simpl.
  - now rewrite app_nil_r.
  - rewrite IH, <- app_assoc. reflexivity.
Qed.

Lemma items_all_items (r : bufio.Scanner) : items r = all_items r.
Proof.
  unfold items. rewrite Parse_all_items, feed_collect. reflexivity.
Qed.

(** Every consumer is fed the items, in order, until it stops. *)
Lemma Parse_feed {St : Type}
    (yield : St -> option Block -> option error -> St * bool)
    (r : bufio.Scanner) (st : St) :
  Parse yield r st = fst (feed yield (items r) st).
Proof.
  rewrite items_all_items. apply Parse_all_items.
Qed.

(** ** The whole-document operation *)

(** The first error among the items. *)
Fixpoint first_error (its : list item) : option error :=
  match its with
  | [] => None
  | (_, Some e) :: _ => Some e
  | (_, None) :: its' => first_error its'
  end.

(** The cues among the items, in order; the other blocks are dropped. *)
Fixpoint cues_of (its : list item) : list Cue :=
  match its with
  | [] => []
  | (Some (BlockCue c), _) :: its' => c :: cues_of its'
  | _ :: its' => cues_of its'
  end.

Lemma feed_ParseAll_body (its : list item) (cues : list Cue) :
  match first_error its with
  | Some e => exists cues', feed ParseAll_body its (cues, None) = ((cues', Some e), false)
  | None => feed ParseAll_body its (cues, None) = ((cues ++ cues_of its, None), true)
  end.
Proof.
  revert cues; induction its as [|[block [e|]] its IH]; intros cues; simpl.
  - now rewrite app_nil_r.
  - eexists; reflexivity.
  - destruct block as [[c|n|s|g]|]; simpl;
      try (specialize (IH cues); destruct (first_error its); exact IH).
    specialize (IH (cues ++ [c])). destruct (first_error its); [exact IH|].
    rewrite IH, <- app_assoc. reflexivity.
Qed.

(** C3. [ParseAll] returns either all the cues of the block sequence, in
    order and without the Note, Style and Region blocks, and no error; or
    the first error of the block sequence and no cue collection at all. *)
Theorem ParseAll_all_or_first_error (r : bufio.Scanner) :
  ParseAll r =
  match first_error (items r) with
  | Some e => (None, Some e)
  | None => (Some {| Cues := cues_of (items r) |}, None)
  end.
Proof.
  unfold ParseAll. rewrite Parse_feed.
  pose proof (feed_ParseAll_body (items r) []) as H.
  destruct (first_error (items r)) as [e|].
  - destruct H as [cues' ->]. reflexivity.
  - rewrite H. reflexivity.
Qed.

(** ** Block groups

    The specification's view of the input after the header: the lines
    are cut at the blank lines, and the pieces that have at least one
    line are the block groups. *)

Fixpoint split_blank (tokens : list string) : list (list string) :=
  match tokens with
  | [] => [[]]
  | line :: rest =>
      if isEmpty line then [] :: split_blank rest
      else match split_blank rest with
           | g :: gs => (line :: g) :: gs
           | [] => [[line]]
           end
  end.

Definition nonempty (g : list string) : bool := (0 <? length g)%nat.

Definition block_groups (tokens : list string) : list (list string) :=
  List.filter nonempty (split_blank tokens).

(** The item a block group is emitted as: its block, or its error. *)
Definition classify (g : list string) : item :=
  match parseBlock g with
  | (_, Some err) => (None, Some err)
  | (block, None) => (block, None)
  end.

(** The item of the read error that ended the input, if any; it is not
    emitted when the group that was pending at that point failed. *)
Definition read_error_item (tokens : list string) (err : option error) : list item :=
  match snd (parseBlock (List.last (split_blank tokens) [])) with
  | Some _ => []
  | None => error_item err
  end.

Lemma split_blank_cons (tokens : list string) :
  exists g gs, split_blank tokens = g :: gs.
Proof.
  induction tokens as [|line rest [g [gs IH]]]; simpl; [eauto|].
  destruct (isEmpty line); [eauto|]. rewrite IH. eauto.
Qed.

Lemma parseBlock_nonempty (g : list string) :
  nonempty g = true -> exists b, fst (parseBlock g) = Some b.
Proof.
  destruct g as [|first rest]; [discriminate|]. intros _.
  unfold parseBlock, CutPrefix.
  destruct (HasPrefix first "NOTE"); [eauto|].
  destruct (String.eqb first "STYLE"); [eauto|].
  destruct (String.eqb first "REGION" || HasPrefix first "REGION"); [eauto|].
  destruct (parseCue (first :: rest)). eauto.
Qed.

Lemma block_item_classify (g : list string) :
  nonempty g = true -> block_item g = [classify g].
Proof.
  intros H. destruct (parseBlock_nonempty g H) as [b Hb].
  unfold block_item, classify.
  destruct (parseBlock g) as [block [e|]]; simpl in *; subst; reflexivity.
Qed.

Lemma nonempty_nil (g : list string) : nonempty g = false -> g = [].
Proof. destruct g; [reflexivity|discriminate]. Qed.

(** The scanning loop emits the groups that a blank line closes, and
    leaves the last piece pending. *)
Lemma loop_items_groups (tokens cur : list string) :
  forall g gs, split_blank tokens = g :: gs ->
  loop_items tokens cur =
  (map classify (List.filter nonempty (removelast ((cur ++ g) :: gs))),
   List.last ((cur ++ g) :: gs) []).
Proof.
  revert cur; induction tokens as [|line rest IH]; intros cur g gs Hs; simpl in Hs.
  - injection Hs as <- <-. simpl. now rewrite app_nil_r.
  - destruct (split_blank_cons rest) as [g' [gs' Hr]].
    simpl. destruct (isEmpty line) eqn:Hl.
    + injection Hs as <- <-. rewrite app_nil_r, Hr.
      change (removelast (cur :: g' :: gs')) with (cur :: removelast (g' :: gs')).
      change (List.last (cur :: g' :: gs') []) with (List.last (g' :: gs') []).
      fold (nonempty cur). simpl List.filter.
      destruct (nonempty cur) eqn:Hc.
      * rewrite (IH [] g' gs' Hr). simpl app at 1.
        rewrite (block_item_classify _ Hc). reflexivity.
      * apply nonempty_nil in Hc. subst cur.
        rewrite (IH [] g' gs' Hr). reflexivity.
    + rewrite Hr in Hs. injection Hs as <- <-.
      rewrite (IH (cur ++ [line]) g' gs' Hr), <- app_assoc. reflexivity.
Qed.

Lemma filter_removelast_last (gs : list (list string)) :
  gs <> [] ->
  List.filter nonempty gs =
  List.filter nonempty (removelast gs) ++
  (if nonempty (List.last gs []) then [List.last gs []] else []).
Proof.
  induction gs as [|g gs IH]; [congruence|]. intros _.
  destruct gs as [|g' gs].
  - simpl. destruct (nonempty g); reflexivity.
  - change (removelast (g :: g' :: gs)) with (g :: removelast (g' :: gs)).
    change (List.last (g :: g' :: gs) []) with (List.last (g' :: gs) []).
    remember (g' :: gs) as rest eqn:Hrest. simpl.
    rewrite IH by (subst rest; discriminate).
    destruct (nonempty g); reflexivity.
Qed.

Lemma last_items_classify (g : list string) (err : option error) :
  last_items g err =
  (if nonempty g then [classify g] else []) ++
  match snd (parseBlock g) with
  | Some _ => []
  | None => error_item err
  end.
Proof.
  unfold last_items. fold (nonempty g).
  destruct (nonempty g) eqn:Hg.
  - destruct (parseBlock_nonempty g Hg) as [b Hb]. unfold classify.
    destruct (parseBlock g) as [block [e|]]; simpl in *; subst; reflexivity.
  - apply nonempty_nil in Hg. subst g. reflexivity.
Qed.

(** C6. After a valid header, the items are exactly the classifications
    of all the block groups of the input, in order, a failed group being
    an error item like any other, followed at most by the item of a read
    error; and every consumer receives these items one after the other
    for as long as it asks for more. *)
Theorem errors_do_not_stop_the_stream (r : bufio.Scanner)
    (header : string) (tokens : list string) :
  bufio.lines r = header :: tokens ->
  (exists t, header = "WEBVTT" +:+ t) ->
  items r = map classify (block_groups tokens)
            ++ read_error_item tokens (bufio.Err r)
  /\ forall (St : Type) (yield : St -> option Block -> option error -> St * bool) st,
      Parse yield r st = fst (feed yield (items r) st).
Proof.
  intros Hl Hh. apply HasPrefix_spec in Hh. split; [|intros; apply Parse_feed].
  rewrite items_all_items. unfold all_items. rewrite Hl, Hh. simpl negb. cbv iota.
  destruct (split_blank_cons tokens) as [g [gs Hs]].
  rewrite (loop_items_groups tokens [] g gs Hs).
  change ([] ++ g) with g. cbv beta iota.
  unfold block_groups, read_error_item. rewrite Hs.
  rewrite (filter_removelast_last (g :: gs)) by discriminate.
  rewrite last_items_classify, map_app, <- !app_assoc.
  destruct (nonempty (List.last (g :: gs) [])); reflexivity.
Qed.

Definition broken_then_good : list string :=
  ["WEBVTT"; ""; "oops"; ""; "00:01.000 --> 00:02.000"; "fine"].

Lemma errors_do_not_stop_the_stream_witness :
  items {| bufio.lines := broken_then_good; bufio.Err := None |}
    = map classify (block_groups (tl broken_then_good))
      ++ read_error_item (tl broken_then_good) None
  /\ forall (St : Type) (yield : St -> option Block -> option error -> St * bool) st,
      Parse yield {| bufio.lines := broken_then_good; bufio.Err := None |} st
      = fst (feed yield (items {| bufio.lines := broken_then_good; bufio.Err := None |}) st).
Proof.
  apply (errors_do_not_stop_the_stream
           {| bufio.lines := broken_then_good; bufio.Err := None |} "WEBVTT");
    [reflexivity|].
  exists "". reflexivity.
Defined.

(** ** The timestamp decoder *)

Import strconv.

(** A number: a non-empty string of decimal digits, and its value. *)
Fixpoint all_digits (s : string) : bool :=
  match s with
  | EmptyString => true
  | String c s' => isDigit c && all_digits s'
  end.

Definition number (s : string) : bool := negb (isEmpty s) && all_digits s.

Fixpoint decimal_from (s : string) (n : Z) : Z :=
  match s with
  | EmptyString => n
  | String c s' => decimal_from s' (n * 10 + digitVal c)
  end.

Definition decimal (s : string) : Z := decimal_from s 0.

(** The largest [int]. *)
Definition maxInt : Z := (2 ^ 63 - 1)%Z.

Lemma isDigit_val (c : ascii) :
  isDigit c = true -> (0 <= digitVal c <= 9)%Z.
Proof.
  unfold isDigit, digitVal. intros H.
  apply andb_true_iff in H as [H1 H2].
  apply N.leb_le in H1, H2. lia.
Qed.

Lemma decimal_from_ge (s : string) (n : Z) :
  all_digits s = true -> (0 <= n)%Z -> (n <= decimal_from s n)%Z.
Proof.
  revert n; induction s as [|c s IH]; intros n Hd Hn; simpl in *; [lia|].
  apply andb_true_iff in Hd as [Hc Hs].
  pose proof (isDigit_val c Hc).
  specialize (IH (n * 10 + digitVal c)%Z Hs). lia.
Qed.

Lemma decimal_from_lt (s : string) (n : Z) :
  all_digits s = true -> (0 <= n)%Z ->
  (decimal_from s n < (n + 1) * 10 ^ Z.of_nat (String.length s))%Z.
Proof.
  revert n; induction s as [|c s IH]; intros n Hd Hn.
  - simpl. lia.
  - simpl in Hd. apply andb_true_iff in Hd as [Hc Hs].
    pose proof (isDigit_val c Hc).
    specialize (IH (n * 10 + digitVal c)%Z Hs).
    cbn [decimal_from String.length].
    rewrite Nat2Z.inj_succ, Z.pow_succ_r by lia.
    assert (0 < 10 ^ Z.of_nat (String.length s))%Z by (apply Z.pow_pos_nonneg; lia).
    nia.
Qed.

Lemma decimal_nonneg (s : string) : all_digits s = true -> (0 <= decimal s)%Z.
Proof. intros H. apply (decimal_from_ge s 0 H). lia. Qed.

(** On digits the loop of [ParseUint] computes the decimal value, unless
    that value leaves 64 bits. *)
Lemma parseUint_loop_digits (s : string) (n : Z) :
  all_digits s = true -> (0 <= n <= maxUint64)%Z ->
  parseUint_loop s n =
  if (decimal_from s n <=? maxUint64)%Z then uintOk (decimal_from s n) else uintRange.
Proof.
  revert n; induction s as [|c s IH]; intros n Hd Hn; simpl in *.
  - destruct (Z.leb_spec n maxUint64); [reflexivity|lia].
  - apply andb_true_iff in Hd as [Hc Hs]. rewrite Hc.
    pose proof (isDigit_val c Hc) as Hv.
    pose proof (decimal_from_ge s (n * 10 + digitVal c)%Z Hs) as Hge.
    unfold maxUint64 in *.
    change (2 ^ 64 - 1)%Z with 18446744073709551615%Z in *.
    change (18446744073709551615 / 10 + 1)%Z with 1844674407370955162%Z.
    destruct (Z.leb_spec 1844674407370955162 n).
    { destruct (Z.leb_spec (decimal_from s (n * 10 + digitVal c)) 18446744073709551615);
        [lia|reflexivity]. }
    destruct (Z.ltb_spec 18446744073709551615 (n * 10 + digitVal c)).
    { destruct (Z.leb_spec (decimal_from s (n * 10 + digitVal c)) 18446744073709551615);
        [lia|reflexivity]. }
    apply IH; [assumption|lia].
Qed.

Lemma digit_not_sign (c : ascii) :
  isDigit c = true -> Ascii.eqb c "+" || Ascii.eqb c "-" = false.
Proof.
  intros H.
  destruct (Ascii.eqb_spec c "+") as [->|]; [discriminate|].
  destruct (Ascii.eqb_spec c "-") as [->|]; [discriminate|reflexivity].
Qed.

(** [Atoi] on a number: its value when it fits [int], a range error
    otherwise. *)
Lemma Atoi_number (s : string) :
  number s = true ->
  Atoi s = if (decimal s <=? maxInt)%Z then (decimal s, None)
           else (maxInt, Some (NumError "Atoi" s ErrRange)).
Proof.
  unfold number, Atoi. intros H. apply andb_true_iff in H as [Hne Hd].
  destruct s as [|c rest]; [discriminate|].
  pose proof Hd as Hd'. simpl in Hd'. apply andb_true_iff in Hd' as [Hc _].
  pose proof (digit_not_sign c Hc) as Hsign.
  apply orb_false_iff in Hsign as [Hplus Hminus].
  rewrite Hplus, Hminus. cbn [orb negb andb].
  rewrite (parseUint_loop_digits (String c rest) 0 Hd) by (unfold maxUint64; lia).
  fold (decimal (String c rest)).
  pose proof (decimal_nonneg _ Hd) as Hnn.
  unfold maxUint64, maxInt.
  change (2 ^ 64 - 1)%Z with 18446744073709551615%Z.
  change (2 ^ 63 - 1)%Z with 9223372036854775807%Z.
  change (2 ^ 63)%Z with 9223372036854775808%Z.
  destruct (Z.leb_spec (decimal (String c rest)) 18446744073709551615);
    destruct (Z.leb_spec (decimal (String c rest)) 9223372036854775807);
    try lia; try reflexivity.
  - destruct (Z.leb_spec 9223372036854775808 (decimal (String c rest))); [lia|].
    reflexivity.
  - destruct (Z.leb_spec 9223372036854775808 (decimal (String c rest))); [|lia].
    reflexivity.
Qed.

(** *** Splitting at a one-byte separator *)

Lemma append_nil_r (s : string) : s +:+ "" = s.
Proof. induction s as [|c s IH]; simpl; [reflexivity|now rewrite IH]. Qed.

Lemma append_assoc (a b c : string) : (a +:+ b) +:+ c = a +:+ b +:+ c.
Proof. induction a as [|x a IH]; simpl; [reflexivity|now rewrite IH]. Qed.

(** The byte [c] does not occur in [s]. *)
Fixpoint free_of (c : ascii) (s : string) : bool :=
  match s with
  | EmptyString => true
  | String x s' => negb (Ascii.eqb x c) && free_of c s'
  end.

Lemma free_of_app (c : ascii) (a b : string) :
  free_of c (a +:+ b) = free_of c a && free_of c b.
Proof.
  induction a as [|x a IH]; simpl; [reflexivity|].
  now rewrite IH, andb_assoc.
Qed.

Lemma digits_free_of (c : ascii) (s : string) :
  isDigit c = false -> all_digits s = true -> free_of c s = true.
Proof.
  intros Hc. induction s as [|x s IH]; simpl; [reflexivity|]. intros H.
  apply andb_true_iff in H as [Hx Hs]. rewrite (IH Hs), andb_true_r.
  destruct (Ascii.eqb_spec x c) as [->|]; [congruence|reflexivity].
Qed.

Section SplitByte.
Variable c : ascii.
Let sep : string := String c EmptyString.

Lemma Split_from_free (a cur s : string) :
  free_of c a = true ->
  Split_from sep 0 cur (a +:+ s) = Split_from sep 0 (cur +:+ a) s.
Proof.
  revert cur; induction a as [|x a IH]; intros cur H; simpl in *.
  - now rewrite append_nil_r.
  - apply andb_true_iff in H as [Hx Ha].
    apply negb_true_iff in Hx. rewrite Hx. simpl.
    rewrite (IH _ Ha), append_assoc. reflexivity.
Qed.

Lemma Split_from_sep (cur s : string) :
  Split_from sep 0 cur (String c s) = cur :: Split_from sep 0 "" s.
Proof. simpl. now rewrite Ascii.eqb_refl. Qed.

(** A text without the separator is one piece. *)
Lemma Split_free (a : string) : free_of c a = true -> Split a sep = [a].
Proof.
  intros H. unfold Split.
  rewrite <- (append_nil_r a) at 1. rewrite (Split_from_free a "" "" H).
  simpl. destruct a; reflexivity.
Qed.

(** The first piece ends at the first separator. *)
Lemma Split_cons (a s : string) :
  free_of c a = true -> Split (a +:+ String c s) sep = a :: Split s sep.
Proof.
  intros H. unfold Split.
  rewrite (Split_from_free a "" _ H), Split_from_sep. reflexivity.
Qed.

End SplitByte.

(** *** Timestamp texts *)

(** The components of a timestamp text: optional hours, minutes, seconds
    and the fraction after the point. *)
Record Stamp : Type :=
  { hh : option string; mm : string; ss : string; frac : string }.

(** [H:M:S.F] or [M:S.F] *)
Definition render (t : Stamp) : string :=
  match hh t with
  | Some h => h +:+ ":" +:+ mm t +:+ ":" +:+ ss t +:+ "." +:+ frac t
  | None => mm t +:+ ":" +:+ ss t +:+ "." +:+ frac t
  end.

Definition hours_of (t : Stamp) : Z :=
  match hh t with
  | Some h => decimal h
  | None => 0%Z
  end.

(** All components are numbers. *)
Definition numeric (t : Stamp) : bool :=
  match hh t with
  | Some h => number h
  | None => true
  end && number (mm t) && number (ss t) && number (frac t).

(** All components fit [int]. *)
Definition fits_int (t : Stamp) : bool :=
  ((hours_of t <=? maxInt) && (decimal (mm t) <=? maxInt) &&
   (decimal (ss t) <=? maxInt) && (decimal (frac t) <=? maxInt))%Z.

(** The format of the specification: one or two digits of hours when
    present, two of minutes, two of seconds, three of milliseconds. *)
Definition well_formed (t : Stamp) : bool :=
  numeric t &&
  match hh t with
  | Some h => (String.length h <=? 2)%nat
  | None => true
  end &&
  (String.length (mm t) =? 2)%nat && (String.length (ss t) =? 2)%nat &&
  (String.length (frac t) =? 3)%nat.

(** The instant a stamp denotes, in nanoseconds:
    hours x 3600 + minutes x 60 + seconds, in seconds, plus the
    fraction read as a count of milliseconds. *)
Definition instant (t : Stamp) : Z :=
  ((hours_of t * 3600 + decimal (mm t) * 60 + decimal (ss t)) * time.Second
   + decimal (frac t) * time.Millisecond)%Z.

Lemma wrap64_spec (z : Z) : exists k, time.wrap64 z = (z + k * 2 ^ 64)%Z.
Proof.
  exists (- ((z + 2 ^ 63) / 2 ^ 64))%Z. unfold time.wrap64.
  rewrite Z.mod_eq by (apply Z.pow_nonzero; lia). ring.
Qed.

Lemma wrap64_congr (a b k : Z) :
  a = (b + k * 2 ^ 64)%Z -> time.wrap64 a = time.wrap64 b.
Proof.
  intros ->. unfold time.wrap64. f_equal.
  replace (b + k * 2 ^ 64 + 2 ^ 63)%Z with (b + 2 ^ 63 + k * 2 ^ 64)%Z by ring.
  apply Z_mod_plus_full.
Qed.

Lemma wrap64_small (z : Z) :
  (- 2 ^ 63 <= z < 2 ^ 63)%Z -> time.wrap64 z = z.
Proof.
  intros H. unfold time.wrap64.
  change (2 ^ 63)%Z with 9223372036854775808%Z in *.
  change (2 ^ 64)%Z with 18446744073709551616%Z.
  rewrite Z.mod_small; lia.
Qed.

(** The four products and three sums of [parseTimestamp], each wrapped
    to 64 bits, amount to wrapping the exact value once. *)
Lemma duration_wrap (h m s ms : Z) :
  duration h m s ms =
  time.wrap64 ((h * 3600 + m * 60 + s) * time.Second + ms * time.Millisecond).
Proof.
  unfold duration, time.add, time.mul.
  destruct (wrap64_spec (h * time.Hour)) as [k1 ->].
  destruct (wrap64_spec (m * time.Minute)) as [k2 ->].
  destruct (wrap64_spec (s * time.Second)) as [k3 ->].
  destruct (wrap64_spec (ms * time.Millisecond)) as [k4 ->].
  destruct (wrap64_spec (h * time.Hour + k1 * 2 ^ 64
                         + (m * time.Minute + k2 * 2 ^ 64))) as [k5 ->].
  destruct (wrap64_spec (h * time.Hour + k1 * 2 ^ 64
                         + (m * time.Minute + k2 * 2 ^ 64) + k5 * 2 ^ 64
                         + (s * time.Second + k3 * 2 ^ 64))) as [k6 ->].
  apply (wrap64_congr _ _ (k1 + k2 + k3 + k4 + k5 + k6)).
  unfold time.Hour, time.Minute. ring.
Qed.

Lemma number_digits (s : string) : number s = true -> all_digits s = true.
Proof. unfold number. intros H. now apply andb_true_iff in H as [_ H]. Qed.

Lemma number_free (c : ascii) (s : string) :
  isDigit c = false -> number s = true -> free_of c s = true.
Proof. intros Hc H. apply digits_free_of; [assumption|now apply number_digits]. Qed.

(** The seconds part [S.F] of a stamp is split into its two numbers. *)
Lemma Split_seconds (s f : string) :
  number s = true -> number f = true ->
  Split (s +:+ "." +:+ f) ":" = [s +:+ "." +:+ f]
  /\ Split (s +:+ "." +:+ f) "." = [s; f].
Proof.
  intros Hs Hf. split.
  - apply Split_free. rewrite !free_of_app.
    rewrite (number_free ":" s), (number_free ":" f); auto.
  - change (s +:+ "." +:+ f) with (s +:+ String "." f).
    rewrite Split_cons by (apply number_free; auto).
    rewrite Split_free by (apply number_free; auto). reflexivity.
Qed.

(** Decoding the text of a stamp with numeric components that fit [int]
    succeeds, whatever the numbers of digits, with the wrapped instant. *)
Lemma parseTimestamp_render (t : Stamp) :
  numeric t = true -> fits_int t = true ->
  parseTimestamp (render t) = (time.wrap64 (instant t), None).
Proof.
  destruct t as [h m s f]. unfold numeric, fits_int, render, instant, hours_of.
  cbn [hh mm ss frac]. intros Hn Hf. split_andb.
  destruct (Split_seconds s f) as [Hc Hp]; [assumption..|].
  unfold parseTimestamp.
  destruct h as [h|].
  - change (h +:+ ":" +:+ m +:+ ":" +:+ s +:+ "." +:+ f)
      with (h +:+ String ":" (m +:+ String ":" (s +:+ "." +:+ f))).
    rewrite Split_cons by (apply number_free; auto).
    rewrite Split_cons by (apply number_free; auto).
    rewrite Hc, Hp. cbn [nth length Nat.ltb Nat.leb].
    rewrite !Atoi_number by assumption.
    repeat match goal with H : (_ <=? maxInt)%Z = true |- _ => rewrite H; clear H end.
    rewrite duration_wrap. reflexivity.
  - change (m +:+ ":" +:+ s +:+ "." +:+ f)
      with (m +:+ String ":" (s +:+ "." +:+ f)).
    rewrite Split_cons by (apply number_free; auto).
    rewrite Hc, Hp. cbn [nth length Nat.ltb Nat.leb].
    rewrite !Atoi_number by assumption.
    repeat match goal with H : (_ <=? maxInt)%Z = true |- _ => rewrite H; clear H end.
    rewrite duration_wrap. reflexivity.
Qed.

Lemma decimal_bound (s : string) (n : nat) :
  all_digits s = true -> (String.length s <= n)%nat ->
  (0 <= decimal s < 10 ^ Z.of_nat n)%Z.
Proof.
  intros Hd Hl. split; [now apply decimal_nonneg|].
  pose proof (decimal_from_lt s 0 Hd) as H. unfold decimal.
  assert (10 ^ Z.of_nat (String.length s) <= 10 ^ Z.of_nat n)%Z
    by (apply Z.pow_le_mono_r; lia).
  lia.
Qed.

(** A well-formed stamp has numeric components below 100 (below 1000
    for the milliseconds). *)
Lemma well_formed_bounds (t : Stamp) :
  well_formed t = true ->
  numeric t = true
  /\ (0 <= hours_of t < 100)%Z /\ (0 <= decimal (mm t) < 100)%Z
  /\ (0 <= decimal (ss t) < 100)%Z /\ (0 <= decimal (frac t) < 1000)%Z.
Proof.
  unfold well_formed. intros H.
  apply andb_true_iff in H as [H Hf]. apply andb_true_iff in H as [H Hs].
  apply andb_true_iff in H as [H Hm]. apply andb_true_iff in H as [Hn Hh].
  split; [assumption|].
  apply Nat.eqb_eq in Hf, Hs, Hm.
  unfold numeric in Hn. split_andb.
  repeat match goal with
         | H : number _ = true |- _ => apply number_digits in H
         end.
  repeat split;
    try (apply (decimal_bound _ 2); [assumption|lia]);
    try (apply (decimal_bound _ 3); [assumption|lia]);
    unfold hours_of; destruct (hh t) as [h|]; try lia;
    apply Nat.leb_le in Hh;
    repeat match goal with
           | H : number _ = true |- _ => apply number_digits in H
           end;
    apply (decimal_bound h 2); assumption.
Qed.

Lemma well_formed_fits (t : Stamp) :
  well_formed t = true ->
  fits_int t = true /\ (- 2 ^ 63 <= instant t < 2 ^ 63)%Z.
Proof.
  intros H. destruct (well_formed_bounds t H) as (_ & Hh & Hm & Hs & Hf).
  unfold fits_int, instant, maxInt, time.Second, time.Millisecond,
    time.Microsecond, time.Nanosecond.
  change (2 ^ 63 - 1)%Z with 9223372036854775807%Z.
  change (2 ^ 63)%Z with 9223372036854775808%Z.
  split; [|lia].
  repeat (apply andb_true_iff; split); apply Z.leb_le; lia.
Qed.

(** On a well-formed stamp the decoder computes the instant exactly. *)
Lemma parseTimestamp_well_formed (t : Stamp) :
  well_formed t = true -> parseTimestamp (render t) = (instant t, None).
Proof.
  intros H. destruct (well_formed_bounds t H) as [Hn _].
  destruct (well_formed_fits t H) as [Hf Hr].
  rewrite (parseTimestamp_render t Hn Hf), (wrap64_small _ Hr). reflexivity.
Qed.

(** C8. "01:02:03.040" and "62:03.040" decode to the same duration, 3723
    seconds and 40 milliseconds.  Decoding computes
    hours x 3600 + minutes x 60 + seconds, in seconds, plus the
    milliseconds: exactly on every well-formed text, and in general
    whenever that value is a 64-bit duration.  Hence two well-formed texts
    that denote the same instant decode to the same duration. *)
Theorem same_instant_same_duration :
  parseTimestamp "01:02:03.040" = parseTimestamp "62:03.040"
  /\ parseTimestamp "62:03.040" = ((3723 * time.Second + 40 * time.Millisecond)%Z, None)
  /\ (forall t, well_formed t = true -> parseTimestamp (render t) = (instant t, None))
  /\ (forall t, numeric t = true -> fits_int t = true ->
                (- 2 ^ 63 <= instant t < 2 ^ 63)%Z ->
                parseTimestamp (render t) = (instant t, None))
  /\ (forall t1 t2, well_formed t1 = true -> well_formed t2 = true ->
                    instant t1 = instant t2 ->
                    parseTimestamp (render t1) = parseTimestamp (render t2)).
Proof.
  split; [reflexivity|]. split; [reflexivity|].
  split; [exact parseTimestamp_well_formed|]. split.
  - intros t Hn Hf Hr.
    rewrite (parseTimestamp_render t Hn Hf), (wrap64_small _ Hr). reflexivity.
  - intros t1 t2 H1 H2 Hi.
    rewrite (parseTimestamp_well_formed t1 H1), (parseTimestamp_well_formed t2 H2).
    now rewrite Hi.
Qed.

Definition stamp_1h_2m_3s : Stamp :=
  {| hh := Some "01"; mm := "02"; ss := "03"; frac := "040" |}.

Definition stamp_62m_3s : Stamp :=
  {| hh := None; mm := "62"; ss := "03"; frac := "040" |}.

Lemma same_instant_same_duration_witness :
  render stamp_1h_2m_3s = "01:02:03.040"
  /\ render stamp_62m_3s = "62:03.040"
  /\ parseTimestamp (render stamp_1h_2m_3s) = parseTimestamp (render stamp_62m_3s).
Proof.
  split; [reflexivity|]. split; [reflexivity|].
  apply (proj2 (proj2 (proj2 (proj2 same_instant_same_duration))));
    reflexivity.
Defined.

(** *** Digit counts and magnitudes *)

Lemma Atoi_error (s : string) (e : error) :
  snd (Atoi s) = Some e -> exists k, e = NumError "Atoi" s k.
Proof.
  unfold Atoi. intros H.
  destruct s as [|c rest]; [injection H as <-; eauto|].
  destruct (if Ascii.eqb c "+" || Ascii.eqb c "-" then rest else String c rest);
    [injection H as <-; eauto|].
  destruct (parseUint_loop _ 0) as [un| |];
    [|injection H as <-; eauto|injection H as <-; eauto].
  destruct (negb (Ascii.eqb c "-") && _); [injection H as <-; eauto|].
  destruct (Ascii.eqb c "-" && _); [injection H as <-; eauto|discriminate].
Qed.

Lemma Atoi_not_format (s : string) :
  snd (Atoi s) <> Some errInvalidTimestampFormat.
Proof. intros H. apply Atoi_error in H as [k H]. discriminate. Qed.

(** The "invalid timestamp format" error is the one for a wrong number
    of colon-separated components, and nothing else. *)
Lemma format_error_iff (s : string) :
  snd (parseTimestamp s) = Some errInvalidTimestampFormat <->
  length (Split s ":") <> 2 /\ length (Split s ":") <> 3.
Proof.
  unfold parseTimestamp.
  destruct (Split s ":") as [|p0 [|p1 [|p2 [|p3 l]]]]; simpl;
    try (split; [intros _; split; discriminate|reflexivity]).
  - split; [|intros [H _]; congruence]. intros H. exfalso.
    pose proof (Atoi_not_format p0) as H0.
    destruct (Atoi p0) as [v0 [e0|]]; [exact (H0 H)|].
    pose proof (Atoi_not_format (nth 0 (Split p1 ".") "")) as H1.
    destruct (Atoi (nth 0 (Split p1 ".") "")) as [v1 [e1|]]; [exact (H1 H)|].
    destruct (1 <? length (Split p1 "."))%nat; [|discriminate].
    pose proof (Atoi_not_format (nth 1 (Split p1 ".") "")) as H2.
    destruct (Atoi (nth 1 (Split p1 ".") "")) as [v2 [e2|]]; [exact (H2 H)|discriminate].
  - split; [|intros [_ H]; congruence]. intros H. exfalso.
    pose proof (Atoi_not_format p0) as H0.
    destruct (Atoi p0) as [v0 [e0|]]; [exact (H0 H)|].
    pose proof (Atoi_not_format p1) as H1.
    destruct (Atoi p1) as [v1 [e1|]]; [exact (H1 H)|].
    pose proof (Atoi_not_format (nth 0 (Split p2 ".") "")) as H2.
    destruct (Atoi (nth 0 (Split p2 ".") "")) as [v2 [e2|]]; [exact (H2 H)|].
    destruct (1 <? length (Split p2 "."))%nat; [|discriminate].
    pose proof (Atoi_not_format (nth 1 (Split p2 ".") "")) as H3.
    destruct (Atoi (nth 1 (Split p2 ".") "")) as [v3 [e3|]]; [exact (H3 H)|discriminate].
Qed.

(** Against C1 as stated: decoding "1:02.5" does not fail, it yields 1
    minute, 2 seconds and 5 milliseconds. *)
Lemma short_fraction_is_accepted :
  parseTimestamp "1:02.5" = ((62 * time.Second + 5 * time.Millisecond)%Z, None)
  /\ snd (parseTimestamp "1:02.5") <> Some errInvalidTimestampFormat.
Proof. split; [reflexivity|discriminate]. Qed.

(** C1, as amended. The timestamp decoder does not check digit counts:
    every text [M:S.F] or [H:M:S.F] whose components are numbers that fit
    [int] is decoded without error, whatever the numbers of digits, and
    "1:02.5" decodes to 62 seconds and 5 milliseconds; the error
    "invalid timestamp format" is returned exactly when the text does not
    have two or three colon-separated components. *)
Theorem digit_counts_are_not_checked :
  (forall t, numeric t = true -> fits_int t = true ->
             snd (parseTimestamp (render t)) = None)
  /\ parseTimestamp "1:02.5" = ((62 * time.Second + 5 * time.Millisecond)%Z, None)
  /\ (forall s, snd (parseTimestamp s) = Some errInvalidTimestampFormat <->
                length (Split s ":") <> 2 /\ length (Split s ":") <> 3).
Proof.
  split; [|split; [reflexivity|exact format_error_iff]].
  intros t Hn Hf. now rewrite (parseTimestamp_render t Hn Hf).
Qed.

Definition stamp_1m_2s_5 : Stamp :=
  {| hh := None; mm := "1"; ss := "02"; frac := "5" |}.

Lemma digit_counts_are_not_checked_witness :
  render stamp_1m_2s_5 = "1:02.5"
  /\ snd (parseTimestamp (render stamp_1m_2s_5)) = None
  /\ snd (parseTimestamp "12.5") = Some errInvalidTimestampFormat.
Proof.
  split; [reflexivity|]. split.
  - apply (proj1 digit_counts_are_not_checked); reflexivity.
  - apply (proj2 (proj2 digit_counts_are_not_checked)).
    split; vm_compute; discriminate.
Defined.

(** Against C10 as stated: a component that does not fit [int] is
    rejected, so not every magnitude is accepted. *)
Lemma huge_component_is_rejected :
  number "9223372036854775808" = true
  /\ parseTimestamp "9223372036854775808:00.000"
     = (0%Z, Some (NumError "Atoi" "9223372036854775808" ErrRange)).
Proof. split; reflexivity. Qed.

(** The first component of a stamp that does not fit [int]. *)
Definition first_unfit (t : Stamp) : string :=
  if (hours_of t <=? maxInt)%Z then
    if (decimal (mm t) <=? maxInt)%Z then
      if (decimal (ss t) <=? maxInt)%Z then frac t else ss t
    else mm t
  else match hh t with
       | Some h => h
       | None => ""
       end.

Lemma parseTimestamp_unfit (t : Stamp) :
  numeric t = true -> fits_int t = false ->
  parseTimestamp (render t)
  = (0%Z, Some (NumError "Atoi" (first_unfit t) ErrRange)).
Proof.
  destruct t as [h m s f].
  unfold numeric, fits_int, render, first_unfit, hours_of.
  cbn [hh mm ss frac]. intros Hn Hf. split_andb.
  destruct (Split_seconds s f) as [Hc Hp]; [assumption..|].
  unfold parseTimestamp.
  destruct h as [h|].
  - change (h +:+ ":" +:+ m +:+ ":" +:+ s +:+ "." +:+ f)
      with (h +:+ String ":" (m +:+ String ":" (s +:+ "." +:+ f))).
    rewrite Split_cons by (apply number_free; auto).
    rewrite Split_cons by (apply number_free; auto).
    rewrite Hc, Hp. cbn [nth length Nat.ltb Nat.leb].
    rewrite !Atoi_number by assumption.
    destruct (decimal h <=? maxInt)%Z; [|reflexivity].
    destruct (decimal m <=? maxInt)%Z; [|reflexivity].
    destruct (decimal s <=? maxInt)%Z; [|reflexivity].
    destruct (decimal f <=? maxInt)%Z; [discriminate|reflexivity].
  - change (m +:+ ":" +:+ s +:+ "." +:+ f)
      with (m +:+ String ":" (s +:+ "." +:+ f)).
    rewrite Split_cons by (apply number_free; auto).
    rewrite Hc, Hp. cbn [nth length Nat.ltb Nat.leb].
    rewrite !Atoi_number by assumption.
    change (0 <=? maxInt)%Z with true in *. cbv iota.
    destruct (decimal m <=? maxInt)%Z; [|reflexivity].
    destruct (decimal s <=? maxInt)%Z; [|reflexivity].
    destruct (decimal f <=? maxInt)%Z; [discriminate|reflexivity].
Qed.

(** C10, as amended. The timestamp decoder validates no range of its
    own: numeric components are accepted whatever their magnitude as
    long as each fits the 64-bit [int] of the integer parser, the
    duration being computed in 64 bits; a component that does not fit
    makes the decoder fail with the parser's range error.  So
    "00:99:99.999" decodes to 99 x 60 + 99 seconds plus 999
    milliseconds, and the digits after the point are an integer count of
    milliseconds whatever their number: ".5" contributes 5 ms. *)
Theorem no_range_validation_within_int :
  (forall t, numeric t = true ->
             parseTimestamp (render t) =
             if fits_int t then (time.wrap64 (instant t), None)
             else (0%Z, Some (NumError "Atoi" (first_unfit t) ErrRange)))
  /\ parseTimestamp "00:99:99.999"
     = (((99 * 60 + 99) * time.Second + 999 * time.Millisecond)%Z, None)
  /\ parseTimestamp "00:00:00.5" = ((5 * time.Millisecond)%Z, None)
  /\ parseTimestamp "00:00:00.0005" = ((5 * time.Millisecond)%Z, None).
Proof.
  split; [|repeat split; reflexivity].
  intros t Hn. destruct (fits_int t) eqn:Hf.
  - now apply parseTimestamp_render.
  - now apply parseTimestamp_unfit.
Qed.

Definition stamp_99m_99s : Stamp :=
  {| hh := Some "00"; mm := "99"; ss := "99"; frac := "999" |}.

Lemma no_range_validation_within_int_witness :
  render stamp_99m_99s = "00:99:99.999"
  /\ parseTimestamp (render stamp_99m_99s)
     = if fits_int stamp_99m_99s then (time.wrap64 (instant stamp_99m_99s), None)
       else (0%Z, Some (NumError "Atoi" (first_unfit stamp_99m_99s) ErrRange)).
Proof.
  split; [reflexivity|].
  apply (proj1 no_range_validation_within_int). reflexivity.
Defined.

(** ** What the matcher finds

    The words a pattern denotes, given the position where the word
    starts ([^] needs it), and the two directions that tie [run] to
    them. *)

Inductive star_at (P : nat -> string -> Prop) : nat -> string -> Prop :=
| star_nil (pos : nat) : star_at P pos ""
| star_cons (pos : nat) (a b : string) :
    P pos a -> star_at P (pos + String.length a) b -> star_at P pos (a +:+ b).

Fixpoint lang (r : Regexp) (pos : nat) (w : string) : Prop :=
  match r with
  | Empty => w = ""
  | Bol => w = "" /\ pos = 0
  | Class p => exists c, w = String c "" /\ p c = true
  | Cat r1 r2 =>
      exists a b, w = a +:+ b /\ lang r1 pos a /\ lang r2 (pos + String.length a) b
  | Opt r1 => w = "" \/ lang r1 pos w
  | Star r1 => star_at (lang r1) pos w
  | Group _ r1 => lang r1 pos w
  end.

Lemma length_append (a b : string) :
  String.length (a +:+ b) = String.length a + String.length b.
Proof. induction a as [|c a IH]; simpl; [reflexivity|now rewrite IH]. Qed.

Section Soundness.
Context {T : Type}.

(** A matcher is sound for a set of words when each of its successes
    comes from a word of the set at the front of the text. *)
Definition sound_for (P : nat -> string -> Prop)
    (step : string -> nat -> caps -> (string -> nat -> caps -> option T) -> option T)
  : Prop :=
  forall s pos cs k x,
    step s pos cs k = Some x ->
    exists a b cs', s = a +:+ b /\ P pos a /\ k b (pos + String.length a) cs' = Some x.

Lemma star_loop_sound (P : nat -> string -> Prop) step :
  sound_for P step ->
  forall k fuel s pos cs x,
    star_loop step k fuel s pos cs = Some x ->
    exists a b cs',
      s = a +:+ b /\ star_at P pos a /\ k b (pos + String.length a) cs' = Some x.
Proof.
  intros Hstep k fuel.
  assert (Hk : forall s pos cs x, k s pos cs = Some x ->
    exists a b cs',
      s = a +:+ b /\ star_at P pos a /\ k b (pos + String.length a) cs' = Some x).
  { intros s pos cs x H. exists "", s, cs. simpl. rewrite Nat.add_0_r.
    repeat split; [constructor|assumption]. }
  induction fuel as [|fuel IH]; intros s pos cs x H; simpl in H.
  - now apply Hk in H.
  - destruct (step s pos cs _) as [y|] eqn:E; [|now apply Hk in H].
    injection H as ->.
    apply Hstep in E as (a & b & cs1 & -> & Ha & E).
    destruct (Nat.ltb pos (pos + String.length a)); [|discriminate].
    apply IH in E as (a2 & b2 & cs2 & -> & Ha2 & E).
    exists (a +:+ a2), b2, cs2. rewrite append_assoc, length_append, Nat.add_assoc.
    repeat split; [now constructor|assumption].
Qed.

Lemma run_sound (r : Regexp) : sound_for (lang r) (run r).
Proof.
  induction r as [| |p|r1 IH1 r2 IH2|r1 IH1|r1 IH1|i r1 IH1];
    intros s pos cs k x H; simpl in H.
  - exists "", s, cs. simpl. now rewrite Nat.add_0_r.
  - destruct (Nat.eqb_spec pos 0) as [->|]; [|discriminate].
    exists "", s, cs. simpl. auto.
  - destruct s as [|c s]; [discriminate|].
    destruct (p c) eqn:Hp; [|discriminate].
    exists (String c ""), s, cs. simpl. rewrite Nat.add_1_r. eauto.
  - apply IH1 in H as (a & b & cs1 & -> & Ha & H).
    apply IH2 in H as (a2 & b2 & cs2 & -> & Ha2 & H).
    exists (a +:+ a2), b2, cs2. rewrite append_assoc, length_append, Nat.add_assoc.
    simpl. eauto 8.
  - destruct (run r1 s pos cs k) as [y|] eqn:E.
    + injection H as ->. apply IH1 in E as (a & b & cs1 & -> & Ha & E).
      exists a, b, cs1. simpl. auto.
    + exists "", s, cs. simpl. rewrite Nat.add_0_r. auto.
  - now apply (star_loop_sound (lang r1) (run r1) IH1) in H.
  - apply IH1 in H as (a & b & cs1 & -> & Ha & H). simpl. eauto 8.
Qed.

End Soundness.

(** *** The fuel of the star loop is never used up

    A matcher calls its continuation only on a rest of its text, at the
    position advanced by what was consumed; so every round of the star
    loop that goes on has a shorter text, and any fuel that is at least
    the length of the text gives the same result. *)

Definition rest_of (s : string) (pos : nat) (s' : string) (pos' : nat) : Prop :=
  String.length s' + pos' = String.length s + pos /\ pos <= pos'.

Section Fuel.
Context {T : Type}.

Definition agree_on (s : string) (pos : nat)
    (k1 k2 : string -> nat -> caps -> option T) : Prop :=
  forall s' pos' cs', rest_of s pos s' pos' -> k1 s' pos' cs' = k2 s' pos' cs'.

Definition local
    (step : string -> nat -> caps -> (string -> nat -> caps -> option T) -> option T)
  : Prop :=
  forall s pos cs k1 k2, agree_on s pos k1 k2 -> step s pos cs k1 = step s pos cs k2.

Lemma rest_of_refl (s : string) (pos : nat) : rest_of s pos s pos.
Proof. split; lia. Qed.

Lemma rest_of_trans (s : string) (pos : nat) (s1 : string) (pos1 : nat)
    (s2 : string) (pos2 : nat) :
  rest_of s pos s1 pos1 -> rest_of s1 pos1 s2 pos2 -> rest_of s pos s2 pos2.
Proof. unfold rest_of. lia. Qed.

Lemma agree_on_rest (s : string) (pos : nat) (s' : string) (pos' : nat) k1 k2 :
  agree_on s pos k1 k2 -> rest_of s pos s' pos' -> agree_on s' pos' k1 k2.
Proof.
  intros H Hr s2 pos2 cs2 H2. apply H. eapply rest_of_trans; eassumption.
Qed.

Lemma star_loop_local step :
  local step ->
  forall fuel s pos cs k1 k2,
    agree_on s pos k1 k2 ->
    star_loop step k1 fuel s pos cs = star_loop step k2 fuel s pos cs.
Proof.
  intros Hl. induction fuel as [|fuel IH]; intros s pos cs k1 k2 Hk; simpl.
  - apply Hk, rest_of_refl.
  - rewrite (Hk s pos cs (rest_of_refl s pos)).
    erewrite Hl; [reflexivity|].
    intros s' pos' cs' Hr. destruct (Nat.ltb pos pos'); [|reflexivity].
    apply IH. eapply agree_on_rest; eassumption.
Qed.

Lemma run_local (r : Regexp) : local (run r).
Proof.
  induction r as [| |p|r1 IH1 r2 IH2|r1 IH1|r1 IH1|i r1 IH1];
    intros s pos cs k1 k2 Hk; simpl.
  - apply Hk, rest_of_refl.
  - destruct (Nat.eqb pos 0); [apply Hk, rest_of_refl|reflexivity].
  - destruct s as [|c s]; [reflexivity|].
    destruct (p c); [|reflexivity]. apply Hk. split; simpl; lia.
  - apply IH1. intros s' pos' cs' Hr. apply IH2.
    eapply agree_on_rest; eassumption.
  - rewrite (IH1 s pos cs k1 k2 Hk), (Hk s pos cs (rest_of_refl s pos)).
    reflexivity.
  - now apply star_loop_local.
  - apply IH1. intros s' pos' cs' Hr. now apply Hk.
Qed.

Definition fail : string -> nat -> caps -> option T := fun _ _ _ => None.

Lemma star_loop_fail step :
  local step -> (forall s pos cs, step s pos cs fail = None) ->
  forall fuel s pos cs, star_loop step fail fuel s pos cs = None.
Proof.
  intros Hl Hf. induction fuel as [|fuel IH]; intros s pos cs; simpl; [reflexivity|].
  erewrite Hl; [rewrite Hf; reflexivity|].
  intros s' pos' cs' _. destruct (Nat.ltb pos pos'); [apply IH|reflexivity].
Qed.

Lemma run_fail (r : Regexp) (s : string) (pos : nat) (cs : caps) :
  run r s pos cs fail = None.
Proof.
  revert s pos cs.
  induction r as [| |p|r1 IH1 r2 IH2|r1 IH1|r1 IH1|i r1 IH1];
    intros s pos cs; simpl; try reflexivity.
  - now destruct (Nat.eqb pos 0).
  - destruct s as [|c s]; [reflexivity|]. now destruct (p c).
  - erewrite run_local; [apply IH1|]. intros s' pos' cs' _. apply IH2.
  - now rewrite IH1.
  - apply star_loop_fail; [apply run_local|assumption].
  - erewrite run_local; [apply IH1|]. intros s' pos' cs' _. reflexivity.
Qed.

(** No round can follow when nothing is left to consume. *)
Lemma star_loop_nil step k (fuel : nat) (s : string) (pos : nat) (cs : caps) :
  local step -> (forall s pos cs, step s pos cs fail = None) ->
  String.length s = 0 ->
  star_loop step k fuel s pos cs = k s pos cs.
Proof.
  intros Hl Hf Hs. destruct fuel as [|fuel]; simpl; [reflexivity|].
  erewrite Hl; [rewrite Hf; reflexivity|].
  intros s' pos' cs' [Hr1 Hr2].
  replace (Nat.ltb pos pos') with false; [reflexivity|].
  symmetry. apply Nat.ltb_ge. lia.
Qed.

Lemma star_loop_fuel step k :
  local step -> (forall s pos cs, step s pos cs fail = None) ->
  forall fuel1 fuel2 s pos cs,
    String.length s <= fuel1 -> String.length s <= fuel2 ->
    star_loop step k fuel1 s pos cs = star_loop step k fuel2 s pos cs.
Proof.
  intros Hl Hf. induction fuel1 as [|fuel1 IH]; intros fuel2 s pos cs H1 H2.
  - rewrite !star_loop_nil by (assumption || lia). reflexivity.
  - destruct fuel2 as [|fuel2].
    + rewrite !star_loop_nil by (assumption || lia). reflexivity.
    + simpl. erewrite Hl; [reflexivity|].
      intros s' pos' cs' [Hr1 Hr2].
      destruct (Nat.ltb_spec pos pos'); [|reflexivity].
      apply IH; lia.
Qed.

(** [r*] with any fuel that covers the text. *)
Lemma run_Star_fuel (r : Regexp) (k : string -> nat -> caps -> option T)
    (fuel : nat) (s : string) (pos : nat) (cs : caps) :
  String.length s <= fuel ->
  star_loop (run r) k fuel s pos cs = run (Star r) s pos cs k.
Proof.
  intros H. simpl. apply star_loop_fuel;
    [apply run_local|apply run_fail|assumption|lia].
Qed.

End Fuel.

Lemma matchAt_sound (r : Regexp) (s : string) (pos : nat) (m : Submatch) :
  matchAt r s pos = Some m ->
  exists a b, s = a +:+ b /\ lang r pos a
              /\ m_start m = pos /\ m_end m = pos + String.length a.
Proof.
  unfold matchAt. intros H.
  apply run_sound in H as (a & b & cs & -> & Ha & H).
  injection H as <-. simpl. eauto 8.
Qed.

(** A first match exists only where the text has a word of the pattern. *)
Lemma findAll_sound (r : Regexp) (s : string) (pos : nat) :
  findAll r 0 s pos <> [] ->
  exists pre a b, s = pre +:+ a +:+ b /\ lang r (pos + String.length pre) a.
Proof.
  revert pos; induction s as [|c s IH]; intros pos H; simpl in H.
  - destruct (matchAt r "" pos) as [m|] eqn:E; [|congruence].
    apply matchAt_sound in E as (a & b & E & Ha & _).
    exists "", a, b. simpl. now rewrite Nat.add_0_r.
  - destruct (matchAt r (String c s) pos) as [m|] eqn:E.
    + apply matchAt_sound in E as (a & b & E & Ha & _).
      exists "", a, b. simpl. now rewrite Nat.add_0_r.
    + apply IH in H as (pre & a & b & -> & Ha).
      exists (String c pre), a, b. simpl. split; [reflexivity|].
      now rewrite Nat.add_succ_r.
Qed.

Section Completeness.
Context {T : Type}.

(** A matcher is complete for a set of words when it succeeds on every
    text that starts with a word of the set after which [k] succeeds. *)
Definition complete_for (P : nat -> string -> Prop)
    (step : string -> nat -> caps -> (string -> nat -> caps -> option T) -> option T)
  : Prop :=
  forall a b pos cs k,
    P pos a ->
    (forall cs', k b (pos + String.length a) cs' <> None) ->
    step (a +:+ b) pos cs k <> None.

Lemma star_loop_complete (P : nat -> string -> Prop) step :
  complete_for P step ->
  forall pos a, star_at P pos a ->
  forall b cs k fuel,
    String.length a <= fuel ->
    (forall cs', k b (pos + String.length a) cs' <> None) ->
    star_loop step k fuel (a +:+ b) pos cs <> None.
Proof.
  intros Hstep pos a Hs.
  induction Hs as [pos|pos a1 a2 Ha1 Ha2 IH]; intros b cs k fuel Hf Hk.
  - simpl in Hk. rewrite Nat.add_0_r in Hk. simpl.
    destruct fuel as [|fuel]; simpl.
    + apply Hk.
    + destruct (step b pos cs _); [discriminate|apply Hk].
  - destruct a1 as [|c a1].
    + simpl in *. rewrite Nat.add_0_r in IH. apply IH; assumption.
    + rewrite length_append in Hf, Hk. simpl in Hf.
      destruct fuel as [|fuel]; [lia|]. cbn [star_loop].
      match goal with
      | |- match step _ _ _ ?k' with _ => _ end <> None =>
          pose proof (Hstep (String c a1) (a2 +:+ b) pos cs k' Ha1) as Hc
      end.
      rewrite append_assoc.
      match type of Hc with
      | ?A -> ?B => assert (Hc' : B)
      end.
      { apply Hc. intros cs'. cbv beta.
        replace (Nat.ltb pos (pos + String.length (String c a1))) with true
          by (symmetry; apply Nat.ltb_lt; simpl; lia).
        apply IH; [simpl in Hf; lia|].
        intros cs''. rewrite <- Nat.add_assoc. apply Hk. }
      destruct (step _ pos cs _); [discriminate|contradiction].
Qed.

Lemma run_complete (r : Regexp) : complete_for (lang r) (run r).
Proof.
  induction r as [| |p|r1 IH1 r2 IH2|r1 IH1|r1 IH1|i r1 IH1];
    intros a b pos cs k Ha Hk; simpl in Ha.
  - subst a. simpl in *. rewrite Nat.add_0_r in Hk. apply Hk.
  - destruct Ha as [-> ->]. simpl in *. apply Hk.
  - destruct Ha as (c & -> & Hp). simpl in *. rewrite Hp.
    rewrite Nat.add_1_r in Hk. apply Hk.
  - destruct Ha as (a1 & a2 & -> & Ha1 & Ha2). simpl.
    rewrite append_assoc. apply IH1; [assumption|].
    intros cs'. apply IH2; [assumption|].
    intros cs''. rewrite <- Nat.add_assoc, <- length_append. apply Hk.
  - simpl. destruct (run r1 (a +:+ b) pos cs k) eqn:E; [discriminate|].
    destruct Ha as [->|Ha].
    + simpl in *. rewrite Nat.add_0_r in Hk. apply Hk.
    + exfalso. revert E. apply IH1; assumption.
  - simpl. apply (star_loop_complete (lang r1) (run r1) IH1 pos a Ha);
      [rewrite length_append; lia|assumption].
  - simpl. apply IH1; [assumption|]. intros cs'. apply Hk.
Qed.

End Completeness.

(** A match exists wherever the text has a word of the pattern. *)
Lemma findAll_complete (r : Regexp) (pre a b : string) (pos : nat) :
  lang r (pos + String.length pre) a ->
  findAll r 0 (pre +:+ a +:+ b) pos <> [].
Proof.
  revert pos; induction pre as [|c pre IH]; intros pos Ha.
  - simpl in Ha. rewrite Nat.add_0_r in Ha.
    assert (E : matchAt r (a +:+ b) pos <> None).
    { unfold matchAt. apply run_complete; [assumption|discriminate]. }
    change ("" +:+ a +:+ b) with (a +:+ b).
    destruct (a +:+ b); simpl; destruct (matchAt r _ pos); congruence.
  - change (String c pre +:+ a +:+ b) with (String c (pre +:+ a +:+ b)).
    cbn [findAll]. destruct (matchAt r _ pos); [discriminate|].
    apply IH. simpl in Ha. now rewrite Nat.add_succ_r in Ha.
Qed.

(** *** Well-formed texts and the pattern

    The texts of the well-formed stamps are the words of the timestamp
    part of [timestampLineRegex]. *)

Lemma lang_Class_intro (p : ascii -> bool) (pos : nat) (c : ascii) :
  p c = true -> lang (Class p) pos (String c "").
Proof. simpl. eauto. Qed.

Lemma lang_Cat_intro (r1 r2 : Regexp) (pos : nat) (a b : string) :
  lang r1 pos a -> lang r2 (pos + String.length a) b ->
  lang (Cat r1 r2) pos (a +:+ b).
Proof. simpl. eauto. Qed.

Lemma lang_Opt_skip (r : Regexp) (pos : nat) : lang (Opt r) pos "".
Proof. now left. Qed.

Lemma lang_Opt_take (r : Regexp) (pos : nat) (w : string) :
  lang r pos w -> lang (Opt r) pos w.
Proof. now right. Qed.

Ltac lang_byte := apply lang_Class_intro; (assumption || reflexivity).

Ltac break_lang :=
  repeat match goal with
         | H : exists _, _ |- _ => destruct H
         | H : _ /\ _ |- _ => destruct H
         | H : Ascii.eqb _ _ = true |- _ => apply Ascii.eqb_eq in H
         end;
  subst.

(** [\d{2}:\d{2}\.\d{3}] *)
Lemma lang_minutes_seconds (pos : nat) (w : string) :
  lang (Cats [Times 2 (Class digit); Lit ":"; Times 2 (Class digit); Lit ".";
              Times 3 (Class digit)]) pos w <->
  exists c1 c2 c3 c4 c5 c6 c7,
    w = String c1 (String c2 (String ":" (String c3 (String c4
          (String "." (String c5 (String c6 (String c7 "")))))))) /\
    all_digits (String c1 (String c2 (String c3 (String c4
          (String c5 (String c6 (String c7 ""))))))) = true.
Proof.
  unfold Times. cbn [Cats repeat]. unfold Lit. split.
  - cbn [lang]. intros H. break_lang.
    do 7 eexists. split; [reflexivity|]. simpl.
    repeat match goal with H : digit _ = true |- _ => unfold digit in H; rewrite H end.
    reflexivity.
  - intros (c1 & c2 & c3 & c4 & c5 & c6 & c7 & -> & H). simpl in H.
    split_andb.
    apply (lang_Cat_intro _ _ _ (String c1 (String c2 ""))).
    { apply (lang_Cat_intro _ _ _ (String c1 "") (String c2 "")); lang_byte. }
    apply (lang_Cat_intro _ _ _ ":"); [lang_byte|].
    apply (lang_Cat_intro _ _ _ (String c3 (String c4 ""))).
    { apply (lang_Cat_intro _ _ _ (String c3 "") (String c4 "")); lang_byte. }
    apply (lang_Cat_intro _ _ _ "."); [lang_byte|].
    apply (lang_Cat_intro _ _ _ (String c5 "")); [lang_byte|].
    apply (lang_Cat_intro _ _ _ (String c6 "") (String c7 "")); lang_byte.
Qed.

(** [(\d{1,2}:)?] *)
Lemma lang_hours (g pos : nat) (w : string) :
  lang (Opt (Group g (Cats [Class digit; Opt (Class digit); Lit ":"]))) pos w <->
  w = "" \/ exists h, w = h +:+ ":" /\ number h = true /\ String.length h <= 2.
Proof.
  cbn [Cats]. unfold Lit. split.
  - cbn [lang].
    intros [->|(a & b & -> & (d1 & -> & Hd1) & a2 & b2 & -> & Ha2 & (c & -> & Hc))];
      [now left|right].
    apply Ascii.eqb_eq in Hc. subst c. unfold digit in *.
    destruct Ha2 as [->|(d2 & -> & Hd2)].
    + exists (String d1 ""). unfold number. simpl. rewrite Hd1.
      repeat split; lia.
    + exists (String d1 (String d2 "")). unfold number. simpl. rewrite Hd1, Hd2.
      repeat split; lia.
  - intros [->|(h & -> & Hn & Hl)]; [apply lang_Opt_skip|apply lang_Opt_take].
    change (lang (Cat (Class digit) (Cat (Opt (Class digit)) (Class (Ascii.eqb ":"))))
                 pos (h +:+ ":")).
    unfold number in Hn. split_andb.
    destruct h as [|d1 [|d2 [|? ?]]]; simpl in * |-; try discriminate; try lia;
      split_andb.
    + apply (lang_Cat_intro _ _ _ (String d1 "") ":"); [lang_byte|].
      apply (lang_Cat_intro _ _ _ "" ":"); [apply lang_Opt_skip|lang_byte].
    + apply (lang_Cat_intro _ _ _ (String d1 "") (String d2 ":")); [lang_byte|].
      apply (lang_Cat_intro _ _ _ (String d2 "") ":");
        [apply lang_Opt_take|]; lang_byte.
Qed.

Lemma lang_timestampRe (g pos : nat) (w : string) :
  lang (timestampRe g) pos w <-> exists t, well_formed t = true /\ w = render t.
Proof.
  unfold timestampRe.
  change (Cats [?a; ?b; ?c; ?d; ?e; ?f]) with (Cat a (Cats [b; c; d; e; f])).
  split.
  - intros (a & b & -> & Ha & Hb).
    apply lang_hours in Ha. apply lang_minutes_seconds in Hb.
    destruct Hb as (c1 & c2 & c3 & c4 & c5 & c6 & c7 & -> & H).
    simpl in H. split_andb.
    destruct Ha as [->|(h & -> & Hn & Hl)].
    + exists {| hh := None; mm := String c1 (String c2 "");
                ss := String c3 (String c4 "");
                frac := String c5 (String c6 (String c7 "")) |}.
      split; [|reflexivity].
      unfold well_formed, numeric, number. simpl.
      repeat match goal with H : isDigit _ = true |- _ => rewrite H; clear H end.
      reflexivity.
    + exists {| hh := Some h; mm := String c1 (String c2 "");
                ss := String c3 (String c4 "");
                frac := String c5 (String c6 (String c7 "")) |}.
      split; [|unfold render; simpl; now rewrite append_assoc].
      unfold well_formed, numeric. cbn [hh mm ss frac]. rewrite Hn.
      apply Nat.leb_le in Hl. rewrite Hl.
      unfold number. simpl.
      repeat match goal with H : isDigit _ = true |- _ => rewrite H; clear H end.
      reflexivity.
  - intros ([h m s f] & Hw & ->). unfold well_formed, numeric in Hw.
    cbn [hh mm ss frac] in Hw. unfold render. cbn [hh mm ss frac].
    split_andb.
    repeat match goal with
           | H : (String.length _ =? _)%nat = true |- _ => apply Nat.eqb_eq in H
           end.
    destruct m as [|c1 [|c2 [|? ?]]]; try discriminate.
    destruct s as [|c3 [|c4 [|? ?]]]; try discriminate.
    destruct f as [|c5 [|c6 [|c7 [|? ?]]]]; try discriminate.
    assert (Hrest : forall p,
      lang (Cats [Times 2 (Class digit); Lit ":"; Times 2 (Class digit); Lit ".";
                  Times 3 (Class digit)]) p
        (String c1 (String c2 "") +:+ ":" +:+ String c3 (String c4 "") +:+ "."
         +:+ String c5 (String c6 (String c7 "")))).
    { intros p. apply lang_minutes_seconds.
      exists c1, c2, c3, c4, c5, c6, c7. split; [reflexivity|].
      unfold number in *. simpl in * |-. split_andb. simpl.
      repeat match goal with H : isDigit _ = true |- _ => rewrite H; clear H end.
      reflexivity. }
    destruct h as [h|].
    + rewrite <- append_assoc.
      apply lang_Cat_intro; [|apply Hrest].
      apply lang_hours. right. exists h.
      repeat split; [assumption|now apply Nat.leb_le].
    + apply (lang_Cat_intro _ _ _ ""); [apply lang_Opt_skip|apply Hrest].
Qed.

(** *** Voice-open markers *)

Fixpoint all_bytes (p : ascii -> bool) (s : string) : bool :=
  match s with
  | EmptyString => true
  | String c s' => p c && all_bytes p s'
  end.

(** A voice-open marker: [<v], white space, a name without [>], [>]. *)
Definition voice_marker (w : string) : Prop :=
  exists ws name,
    w = "<v" +:+ ws +:+ name +:+ ">"
    /\ ws <> "" /\ all_bytes space ws = true
    /\ name <> "" /\ all_bytes notGt name = true.

(** The text contains a voice-open marker. *)
Definition has_voice_marker (text : string) : Prop :=
  exists pre w post, text = pre +:+ w +:+ post /\ voice_marker w.

Lemma star_class (p : ascii -> bool) (pos : nat) (w : string) :
  star_at (lang (Class p)) pos w <-> all_bytes p w = true.
Proof.
  split.
  - induction 1 as [|pos a b (c & -> & Hp) _ IH]; [reflexivity|].
    simpl. now rewrite Hp, IH.
  - revert pos; induction w as [|c w IH]; intros pos H; [constructor|].
    simpl in H. apply andb_true_iff in H as [Hp Hw].
    change (String c w) with (String c "" +:+ w).
    constructor; [simpl; eauto|]. now apply IH.
Qed.

Lemma lang_Lit (c : ascii) (pos : nat) (w : string) :
  lang (Lit c) pos w <-> w = String c "".
Proof.
  unfold Lit. simpl. split.
  - intros (x & -> & H). apply Ascii.eqb_eq in H. now subst.
  - intros ->. exists c. now rewrite Ascii.eqb_refl.
Qed.

Lemma lang_Plus_Class (p : ascii -> bool) (pos : nat) (w : string) :
  lang (Plus (Class p)) pos w <-> w <> "" /\ all_bytes p w = true.
Proof.
  unfold Plus. cbn [lang]. split.
  - intros (a & b & -> & (c & -> & Hp) & Hb). apply star_class in Hb.
    simpl. rewrite Hp, Hb. split; [discriminate|reflexivity].
  - intros [Hne H]. destruct w as [|c w]; [congruence|].
    simpl in H. apply andb_true_iff in H as [Hp Hw].
    exists (String c ""), w. repeat split; [eauto|now apply star_class].
Qed.

(** The pattern [voiceStartRegex] denotes the voice-open markers. *)
Lemma lang_voiceStartRegex (pos : nat) (w : string) :
  lang voiceStartRegex pos w <-> voice_marker w.
Proof.
  unfold voiceStartRegex, voice_marker. cbn [Cats].
  cbn [lang]. split.
  - intros (a1 & b1 & -> & H1 & a2 & b2 & -> & H2 & a3 & b3 & -> & H3
            & a4 & b4 & -> & H4 & H5).
    apply lang_Lit in H1, H2, H5. subst a1 a2 b4.
    apply lang_Plus_Class in H3 as [Hne3 H3].
    change (lang (Plus (Class notGt)) (pos + String.length "<" + String.length "v"
                                       + String.length a3) a4) in H4.
    apply lang_Plus_Class in H4 as [Hne4 H4].
    exists a3, a4. repeat split; assumption.
  - intros (ws & name & -> & Hne1 & H1 & Hne2 & H2).
    exists "<", ("v" +:+ ws +:+ name +:+ ">"). split; [reflexivity|].
    split; [now apply lang_Lit|].
    exists "v", (ws +:+ name +:+ ">"). split; [reflexivity|].
    split; [now apply lang_Lit|].
    exists ws, (name +:+ ">"). split; [reflexivity|].
    split; [now apply lang_Plus_Class|].
    exists name, ">". split; [reflexivity|].
    split; [|now apply lang_Lit].
    change (lang (Plus (Class notGt)) (pos + String.length "<" + String.length "v"
                                       + String.length ws) name).
    now apply lang_Plus_Class.
Qed.

(** A match of [voiceStartRegex] is never empty, as [findAll] supposes. *)
Lemma voice_match_nonempty (s : string) (pos : nat) (m : Submatch) :
  matchAt voiceStartRegex s pos = Some m -> m_start m + 5 <= m_end m.
Proof.
  intros H. apply matchAt_sound in H as (a & b & _ & Ha & -> & ->).
  apply lang_voiceStartRegex in Ha as (ws & name & -> & Hws & _ & Hname & _).
  change ("<v" +:+ ws +:+ name +:+ ">")
    with (String "<" (String "v" (ws +:+ name +:+ ">"))).
  cbn [String.length]. rewrite !length_append.
  destruct ws; [congruence|]. destruct name; [congruence|]. simpl. lia.
Qed.

(** [parseVoices] finds a match exactly when the text has a marker. *)
Lemma voice_matches_iff (text : string) :
  FindAllStringSubmatchIndex voiceStartRegex text <> [] <-> has_voice_marker text.
Proof.
  unfold FindAllStringSubmatchIndex, has_voice_marker. split.
  - intros H. apply findAll_sound in H as (pre & a & b & -> & Ha).
    exists pre, a, b. split; [reflexivity|]. now apply lang_voiceStartRegex in Ha.
  - intros (pre & w & post & -> & Hw).
    apply findAll_complete. now apply lang_voiceStartRegex.
Qed.

(** ** The voice-span extractor *)

(** The parts of one round of the loop of [parseVoices]. *)

(** [text[match[2]:match[3]]] *)
Definition name_of (text : string) (m : Submatch) : string :=
  match group 1 (m_caps m) with
  | Some (a, b) => slice text a b
  | None => ""
  end.

(** The span of a marker: up to the next marker, or to the end. *)
Definition span_of (text : string) (m : Submatch) (later : list Submatch) : string :=
  match later with
  | next :: _ => slice text (m_end m) (m_start next)
  | [] => drop (m_end m) text
  end.

(** The voice appended for a marker. *)
Definition voice_of (text : string) (m : Submatch) (later : list Submatch) : Voice :=
  {| Speaker := name_of text m;
     Text := TrimSpace
               match Index (span_of text m later) "</v>" with
               | Some idx => take idx (span_of text m later)
               | None => span_of text m later
               end |}.

(** The value of [lastEnd] after a marker. *)
Definition resume_at (text : string) (m : Submatch) (later : list Submatch) : nat :=
  match Index (span_of text m later) "</v>" with
  | Some idx => m_end m + idx + 4
  | None => m_end m + len (span_of text m later)
  end.

(** What the text between [lastEnd] and a marker does to the voices. *)
Definition absorb (text : string) (lastEnd : nat) (m : Submatch)
    (voices : list Voice) : list Voice :=
  if (lastEnd <? m_start m)%nat then
    let prefix := TrimSpace (slice text lastEnd (m_start m)) in
    if negb (isEmpty prefix) && (0 <? length voices)%nat then
      appendToLast voices prefix
    else if negb (isEmpty prefix) then
      voices ++ [{| Speaker := ""; Text := prefix |}]
    else voices
  else voices.

Lemma parseVoices_loop_cons (text : string) (m : Submatch)
    (later : list Submatch) (lastEnd : nat) (voices : list Voice) :
  parseVoices_loop text (m :: later) lastEnd voices =
  parseVoices_loop text later (resume_at text m later)
    (absorb text lastEnd m voices ++ [voice_of text m later]).
Proof.
  cbn [parseVoices_loop]. unfold resume_at, voice_of, absorb.
  fold (span_of text m later). fold (name_of text m).
  destruct (Index (span_of text m later) "</v>"); reflexivity.
Qed.

Lemma appendToLast_snoc (vs : list Voice) (v : Voice) (p : string) :
  appendToLast (vs ++ [v]) p =
  vs ++ [{| Speaker := Speaker v; Text := Text v +:+ " " +:+ p |}].
Proof.
  unfold appendToLast.
  rewrite length_app. simpl length.
  replace (length vs + 1 - 1) with (length vs + 0) by lia.
  now rewrite alter_app_r.
Qed.

Lemma absorb_snoc (text : string) (lastEnd : nat) (m : Submatch)
    (vs : list Voice) (v : Voice) :
  exists v', absorb text lastEnd m (vs ++ [v]) = vs ++ [v'].
Proof.
  unfold absorb.
  destruct (lastEnd <? m_start m)%nat; [|eauto].
  replace (0 <? length (vs ++ [v]))%nat with true
    by (symmetry; apply Nat.ltb_lt; rewrite length_app; simpl; lia).
  destruct (negb (isEmpty _)); simpl; [|eauto].
  rewrite appendToLast_snoc. eauto.
Qed.

(** Once another voice has been appended, a voice is final. *)
Lemma parseVoices_loop_keeps (text : string) (later : list Submatch) :
  forall lastEnd vs v,
  exists tl, parseVoices_loop text later lastEnd (vs ++ [v]) = vs ++ tl /\ tl <> [].
Proof.
  induction later as [|m later IH]; intros lastEnd vs v.
  - exists [v]. split; [reflexivity|discriminate].
  - rewrite parseVoices_loop_cons.
    destruct (absorb_snoc text lastEnd m vs v) as [v' ->].
    destruct (IH (resume_at text m later) (vs ++ [v']) (voice_of text m later))
      as (tl & -> & _).
    exists (v' :: tl). rewrite <- app_assoc. split; [reflexivity|discriminate].
Qed.

Lemma parseVoices_loop_nonempty (text : string) (ms : list Submatch)
    (lastEnd : nat) (vs : list Voice) :
  ms <> [] -> parseVoices_loop text ms lastEnd vs <> [].
Proof.
  destruct ms as [|m later]; [congruence|]. intros _.
  rewrite parseVoices_loop_cons.
  destruct (parseVoices_loop_keeps text later (resume_at text m later)
              (absorb text lastEnd m vs) (voice_of text m later)) as (tl & -> & Htl).
  intros H. apply app_eq_nil in H as [_ H]. contradiction.
Qed.

Lemma parseVoices_matches (text : string) (ms : list Submatch) :
  FindAllStringSubmatchIndex voiceStartRegex text = ms -> ms <> [] ->
  parseVoices text = parseVoices_loop text ms 0 [].
Proof.
  intros E H. unfold parseVoices. rewrite E.
  destruct ms; [congruence|reflexivity].
Qed.

(** C7. [parseVoices] never returns an empty sequence; and when the text
    contains no voice-open marker, it returns the single voice with empty
    speaker whose text is the input, untrimmed. *)
Theorem parseVoices_nonempty_and_verbatim :
  (forall text, parseVoices text <> [])
  /\ (forall text, ~ has_voice_marker text ->
                   parseVoices text = [{| Speaker := ""; Text := text |}]).
Proof.
  split; intros text.
  - destruct (FindAllStringSubmatchIndex voiceStartRegex text) as [|m ms] eqn:E.
    + unfold parseVoices. rewrite E. discriminate.
    + rewrite (parseVoices_matches text _ E) by discriminate.
      apply parseVoices_loop_nonempty. discriminate.
  - intros H. unfold parseVoices.
    destruct (FindAllStringSubmatchIndex voiceStartRegex text) as [|m ms] eqn:E;
      [reflexivity|].
    exfalso. apply H. apply voice_matches_iff. rewrite E. discriminate.
Qed.

Lemma parseVoices_nonempty_and_verbatim_witness :
  parseVoices "  <i>no</i> speaker <v> here  "
  = [{| Speaker := ""; Text := "  <i>no</i> speaker <v> here  " |}].
Proof.
  apply (proj2 parseVoices_nonempty_and_verbatim).
  intros H. apply voice_matches_iff in H. vm_compute in H. congruence.
Defined.

(** What precedes a marker in the list of matches only sets the state in
    which its round starts. *)
Lemma parseVoices_loop_app (text : string) (before ms : list Submatch) :
  forall lastEnd vs,
  exists lastEnd' vs',
    parseVoices_loop text (before ++ ms) lastEnd vs
    = parseVoices_loop text ms lastEnd' vs'.
Proof.
  induction before as [|m before IH]; intros lastEnd vs; [simpl; eauto|].
  change ((m :: before) ++ ms) with (m :: (before ++ ms)).
  rewrite parseVoices_loop_cons. apply IH.
Qed.

Lemma TrimSpace_slice_nonempty (text : string) (a b : nat) :
  TrimSpace (slice text a b) <> "" -> (a <? b)%nat = true.
Proof.
  intros H. apply Nat.ltb_lt.
  destruct (Nat.lt_ge_cases a b) as [Hlt|Hge]; [assumption|].
  exfalso. apply H. unfold slice.
  replace (b - a) with 0 by lia. reflexivity.
Qed.

Lemma isEmpty_false (s : string) : s <> "" -> isEmpty s = false.
Proof. destruct s; [congruence|reflexivity]. Qed.

(** A cue text in which "stray" stands between the closing token of
    Alice's voice and Bob's marker, and "bye" after the last closing
    token. *)
Definition stray_text : string := "<v Alice>Hi</v> stray <v Bob>Hello</v> bye".

(** Against C2 as stated: the content between a closing token and the
    next marker is not discarded, it ends up in the text of the voice that
    was closed. *)
Lemma stray_text_is_kept :
  parseVoices stray_text
  = [{| Speaker := "Alice"; Text := "Hi stray" |};
     {| Speaker := "Bob"; Text := "Hello" |}].
Proof. vm_compute. reflexivity. Qed.

(** C2, as amended. When the span of a voice contains a closing token
    followed, before the next voice-open marker, by content that is not
    blank, that content is not discarded: trimmed, it is appended after
    one space to the text of the voice that was closed.  Only what
    follows the closing token of the last marker is dropped: the last
    voice's text is the trimmed text before that token. *)
Theorem stray_text_joins_closed_voice :
  (forall text before m next after idx,
      FindAllStringSubmatchIndex voiceStartRegex text
      = before ++ m :: next :: after ->
      Index (slice text (m_end m) (m_start next)) "</v>" = Some idx ->
      TrimSpace (slice text (m_end m + idx + 4) (m_start next)) <> "" ->
      In {| Speaker := name_of text m;
            Text := TrimSpace (take idx (slice text (m_end m) (m_start next)))
                    +:+ " "
                    +:+ TrimSpace (slice text (m_end m + idx + 4) (m_start next)) |}
         (parseVoices text))
  /\ (forall text before m idx,
      FindAllStringSubmatchIndex voiceStartRegex text = before ++ [m] ->
      Index (drop (m_end m) text) "</v>" = Some idx ->
      List.last (parseVoices text) {| Speaker := ""; Text := "" |}
      = {| Speaker := name_of text m;
           Text := TrimSpace (take idx (drop (m_end m) text)) |}).
Proof.
  split.
  - intros text before m next after idx E Hidx Hstray.
    rewrite (parseVoices_matches text _ E) by (destruct before; discriminate).
    destruct (parseVoices_loop_app text before (m :: next :: after) 0 [])
      as (le & vs & ->).
    rewrite parseVoices_loop_cons.
    assert (Hv : voice_of text m (next :: after)
                 = {| Speaker := name_of text m;
                      Text := TrimSpace (take idx (slice text (m_end m) (m_start next))) |})
      by (unfold voice_of, span_of; now rewrite Hidx).
    assert (Hr : resume_at text m (next :: after) = m_end m + idx + 4)
      by (unfold resume_at, span_of; now rewrite Hidx).
    rewrite Hv, Hr, parseVoices_loop_cons.
    assert (Ha : forall ws v,
               absorb text (m_end m + idx + 4) next (ws ++ [v])
               = ws ++ [{| Speaker := Speaker v;
                           Text := Text v +:+ " "
                                   +:+ TrimSpace (slice text (m_end m + idx + 4)
                                                        (m_start next)) |}]).
    { intros ws v. unfold absorb.
      rewrite (TrimSpace_slice_nonempty _ _ _ Hstray).
      rewrite (isEmpty_false _ Hstray).
      replace (0 <? length (ws ++ [v]))%nat with true
        by (symmetry; apply Nat.ltb_lt; rewrite length_app; simpl; lia).
      simpl. apply appendToLast_snoc. }
    rewrite Ha. cbn [Speaker Text].
    match goal with
    | |- In ?v (parseVoices_loop _ _ ?le' ((?ws ++ [_]) ++ [?v'])) =>
        destruct (parseVoices_loop_keeps text after le' (ws ++ [v]) v') as (tl & -> & _)
    end.
    apply in_or_app. left. apply in_or_app. right. left. reflexivity.
  - intros text before m idx E Hidx.
    rewrite (parseVoices_matches text _ E) by (destruct before; discriminate).
    destruct (parseVoices_loop_app text before [m] 0 []) as (le & vs & ->).
    rewrite parseVoices_loop_cons. cbn [parseVoices_loop].
    rewrite last_last. unfold voice_of, span_of. now rewrite Hidx.
Qed.

Lemma stray_text_joins_closed_voice_witness :
  In {| Speaker := "Alice"; Text := "Hi stray" |} (parseVoices stray_text)
  /\ List.last (parseVoices stray_text) {| Speaker := ""; Text := "" |}
     = {| Speaker := "Bob"; Text := "Hello" |}.
Proof.
  split.
  - apply (proj1 stray_text_joins_closed_voice stray_text []
             {| m_start := 0; m_end := 9; m_caps := [(1, (3, 8))] |}
             {| m_start := 22; m_end := 29; m_caps := [(1, (25, 28))] |}
             [] 2).
    + vm_compute. reflexivity.
    + vm_compute. reflexivity.
    + vm_compute. discriminate.
  - apply (proj2 stray_text_joins_closed_voice stray_text
             [{| m_start := 0; m_end := 9; m_caps := [(1, (3, 8))] |}]
             {| m_start := 22; m_end := 29; m_caps := [(1, (25, 28))] |} 5).
    + vm_compute. reflexivity.
    + vm_compute. reflexivity.
Defined.

(** * Further properties

    Properties of the remaining code paths: the timestamp line and its
    settings, the cue builder, the block classifier, the region loop,
    notes, the two entry points, signs and fractions of timestamps, the
    voices of a marked-up text and whole documents of cues. *)

(** ** Slices, [Index] and white space *)

Lemma take_app (a b : string) : take (String.length a) (a +:+ b) = a.
Proof. induction a as [|c a IH]; simpl; [now destruct b|now rewrite IH]. Qed.

Lemma drop_app (a b : string) (n : nat) :
  drop (String.length a + n) (a +:+ b) = drop n b.
Proof. induction a as [|c a IH]; simpl; [reflexivity|apply IH]. Qed.

Lemma drop_app_0 (a b : string) : drop (String.length a) (a +:+ b) = b.
Proof. rewrite <- (Nat.add_0_r (String.length a)), drop_app. reflexivity. Qed.

(** [Index] finds an occurrence, and the first one. *)
Lemma Index_Some (s sub : string) (m : nat) :
  Index s sub = Some m ->
  s = take m s +:+ sub +:+ drop (m + len sub) s.
Proof.
  revert m; induction s as [|c s IH]; intros m H; cbn [Index] in H.
  - destruct (HasPrefix "" sub) eqn:E; [|discriminate].
    injection H as <-. now apply HasPrefix_inv in E.
  - destruct (HasPrefix (String c s) sub) eqn:E.
    + injection H as <-. now apply HasPrefix_inv in E.
    + destruct (Index s sub) as [m'|]; [|discriminate].
      injection H as <-. simpl. f_equal. now apply IH.
Qed.

Lemma Index_None (s sub : string) :
  Index s sub = None <-> ~ exists a b, s = a +:+ sub +:+ b.
Proof.
  split.
  - intros H (a & b & ->). revert H.
    induction a as [|c a IH]; intros H.
    + simpl in H. destruct (sub +:+ b) eqn:Eb; cbn [Index] in H;
        rewrite <- Eb, HasPrefix_app in H; discriminate.
    + change (String c a +:+ sub +:+ b) with (String c (a +:+ sub +:+ b)) in H.
      cbn [Index] in H. destruct (HasPrefix _ sub); [discriminate|].
      destruct (Index (a +:+ sub +:+ b) sub); [discriminate|]. now apply IH.
  - intros H. destruct (Index s sub) as [m|] eqn:E; [|reflexivity].
    exfalso. apply H. apply Index_Some in E. eauto.
Qed.

(** The first occurrence is where the text before does not hold the
    first byte of the separator. *)
Lemma Index_free (c : ascii) (sep a b : string) :
  free_of c a = true ->
  Index (a +:+ String c sep +:+ b) (String c sep) = Some (String.length a).
Proof.
  intros H. induction a as [|x a IH].
  - change ("" +:+ String c sep +:+ b) with (String c sep +:+ b).
    pose proof (HasPrefix_app (String c sep) b) as E.
    change (String c sep +:+ b) with (String c (sep +:+ b)) in *.
    cbn [Index]. now rewrite E.
  - simpl in H. apply andb_true_iff in H as [Hx Ha].
    apply negb_true_iff in Hx.
    change (String x a +:+ String c sep +:+ b)
      with (String x (a +:+ String c sep +:+ b)).
    cbn [Index HasPrefix]. rewrite Hx. cbn [andb].
    rewrite (IH Ha). reflexivity.
Qed.

(** A byte that is ASCII and no white space. *)
Definition plain_byte (c : ascii) : bool :=
  (code c <? 128)%N && negb (asciiSpace c).

(** A token: a non-empty string of such bytes. *)
Definition plain (s : string) : bool := negb (isEmpty s) && all_bytes plain_byte s.

Lemma space_width_plain (c : ascii) (r : string) :
  plain_byte c = true -> space_width (String c r) = 0.
Proof.
  unfold plain_byte, space_width. intros H.
  apply andb_true_iff in H as [Hc Hs]. apply negb_true_iff in Hs.
  apply N.ltb_lt in Hc. rewrite Hs.
  destruct r as [|d r]; [reflexivity|].
  destruct (N.eqb_spec (code c) 194); [lia|].
  destruct r as [|e r]; [reflexivity|].
  destruct (N.eqb_spec (code c) 225); [lia|].
  destruct (N.eqb_spec (code c) 226); [lia|].
  destruct (N.eqb_spec (code c) 227); [lia|].
  reflexivity.
Qed.

Lemma space_width_space (c : ascii) (r : string) :
  asciiSpace c = true -> space_width (String c r) = 1.
Proof. unfold space_width. now intros ->. Qed.

Lemma space_width_rev_space (c : ascii) (r : string) :
  asciiSpace c = true -> space_width_rev (String c r) = 1.
Proof. unfold space_width_rev. now intros ->. Qed.

Lemma space_width_rev_plain (e : ascii) (r : string) :
  plain_byte e = true -> space_width_rev (String e r) = 0.
Proof.
  unfold plain_byte, space_width_rev. intros H.
  apply andb_true_iff in H as [He Hs]. apply negb_true_iff in Hs.
  apply N.ltb_lt in He. rewrite Hs.
  destruct r as [|d r]; [reflexivity|].
  assert (H2 : space_width (String d (String e "")) <> 2).
  { unfold space_width. destruct (asciiSpace d); [discriminate|].
    destruct (N.eqb_spec (code d) 194); [|discriminate].
    destruct (N.eqb_spec (code e) 133); [lia|].
    destruct (N.eqb_spec (code e) 160); [lia|]. discriminate. }
  assert (H3 : forall c, space_width (String c (String d (String e ""))) <> 3).
  { intros c. unfold space_width.
    replace (code e =? 128)%N with false by (symmetry; apply N.eqb_neq; lia).
    replace (128 <=? code e)%N with false by (symmetry; apply N.leb_gt; lia).
    replace (code e =? 168)%N with false by (symmetry; apply N.eqb_neq; lia).
    replace (code e =? 169)%N with false by (symmetry; apply N.eqb_neq; lia).
    replace (code e =? 175)%N with false by (symmetry; apply N.eqb_neq; lia).
    replace (code e =? 159)%N with false by (symmetry; apply N.eqb_neq; lia).
    cbn [andb orb]. rewrite !andb_false_r.
    repeat match goal with
           | |- context [if ?b then _ else _] => destruct b
           end; discriminate. }
  destruct (space_width (String d (String e ""))) as [|[|[|n]]];
    try congruence;
    (destruct r as [|c r]; [reflexivity|]);
    specialize (H3 c);
    destruct (space_width (String c (String d (String e "")))) as [|[|[|[|k]]]];
    congruence.
Qed.

(** *** Reversal *)

Lemma rev_append_app (s acc : string) :
  strings.rev_append s acc = strings.rev s +:+ acc.
Proof.
  unfold strings.rev. revert acc.
  induction s as [|c s IH]; intros acc; simpl; [reflexivity|].
  rewrite IH, (IH (String c "")), append_assoc. reflexivity.
Qed.

Lemma rev_append_append (a b acc : string) :
  strings.rev_append (a +:+ b) acc = strings.rev_append b (strings.rev_append a acc).
Proof.
  revert acc; induction a as [|c a IH]; intros acc; simpl; [reflexivity|apply IH].
Qed.

Lemma rev_app (a b : string) :
  strings.rev (a +:+ b) = strings.rev b +:+ strings.rev a.
Proof.
  unfold strings.rev at 1. rewrite rev_append_append, rev_append_app.
  reflexivity.
Qed.

Lemma rev_append_rev_append (s acc acc' : string) :
  strings.rev_append (strings.rev_append s acc) acc'
  = strings.rev_append acc (s +:+ acc').
Proof.
  revert acc acc'; induction s as [|c s IH]; intros acc acc'; simpl;
    [reflexivity|]. now rewrite IH.
Qed.

Lemma rev_rev (s : string) : strings.rev (strings.rev s) = s.
Proof.
  unfold strings.rev. rewrite rev_append_rev_append. simpl. apply append_nil_r.
Qed.

(** *** Trimming *)

Lemma TrimLeftSpace_spaces (ws s : string) :
  all_bytes asciiSpace ws = true ->
  TrimLeftSpace (ws +:+ s) = TrimLeftSpace s.
Proof.
  unfold TrimLeftSpace. induction ws as [|c ws IH]; intros H; [reflexivity|].
  simpl in H. apply andb_true_iff in H as [Hc Hw].
  change (String c ws +:+ s) with (String c (ws +:+ s)).
  cbn [trim_front]. rewrite (space_width_space c _ Hc). now apply IH.
Qed.

Lemma TrimLeftSpace_plain (c : ascii) (s : string) :
  plain_byte c = true -> TrimLeftSpace (String c s) = String c s.
Proof.
  intros H. unfold TrimLeftSpace. cbn [trim_front].
  now rewrite (space_width_plain c s H).
Qed.

Lemma TrimRightSpace_space (s : string) (c : ascii) :
  asciiSpace c = true ->
  TrimRightSpace (s +:+ String c "") = TrimRightSpace s.
Proof.
  intros H. unfold TrimRightSpace. rewrite rev_app.
  change (strings.rev (String c "") +:+ strings.rev s)
    with (String c (strings.rev s)).
  cbn [trim_front]. now rewrite (space_width_rev_space c _ H).
Qed.

Lemma TrimRightSpace_spaces (ws s : string) :
  all_bytes asciiSpace ws = true ->
  TrimRightSpace (s +:+ ws) = TrimRightSpace s.
Proof.
  revert s; induction ws as [|c ws IH]; intros s H.
  - now rewrite append_nil_r.
  - simpl in H. apply andb_true_iff in H as [Hc Hw].
    change (String c ws) with (String c "" +:+ ws).
    rewrite <- append_assoc, (IH _ Hw). now apply TrimRightSpace_space.
Qed.

Lemma TrimRightSpace_plain (s : string) (c : ascii) :
  plain_byte c = true ->
  TrimRightSpace (s +:+ String c "") = s +:+ String c "".
Proof.
  intros H. unfold TrimRightSpace. rewrite rev_app.
  change (strings.rev (String c "") +:+ strings.rev s)
    with (String c (strings.rev s)).
  cbn [trim_front]. rewrite (space_width_rev_plain c _ H).
  change (String c (strings.rev s))
    with (strings.rev (String c "") +:+ strings.rev s).
  rewrite <- rev_app. apply rev_rev.
Qed.

(** A text that starts and ends with plain bytes is its own trimming,
    whatever ASCII white space surrounds it. *)
Lemma TrimSpace_padded (ws1 ws2 : string) (c : ascii) (s : string) (d : ascii) :
  all_bytes asciiSpace ws1 = true -> all_bytes asciiSpace ws2 = true ->
  plain_byte c = true -> plain_byte d = true ->
  TrimSpace (ws1 +:+ String c (s +:+ String d "") +:+ ws2)
  = String c (s +:+ String d "").
Proof.
  intros H1 H2 Hc Hd. unfold TrimSpace.
  rewrite (TrimLeftSpace_spaces _ _ H1).
  change (String c (s +:+ String d "") +:+ ws2)
    with (String c ((s +:+ String d "") +:+ ws2)).
  rewrite (TrimLeftSpace_plain c _ Hc).
  change (String c ((s +:+ String d "") +:+ ws2))
    with (String c (s +:+ String d "") +:+ ws2).
  rewrite (TrimRightSpace_spaces _ _ H2).
  change (String c (s +:+ String d "")) with ((String c s) +:+ String d "").
  now apply TrimRightSpace_plain.
Qed.

(** A text that starts and ends with a plain byte. *)
Definition ends_plain (w : string) : Prop :=
  (exists c r, w = String c r /\ plain_byte c = true)
  /\ (exists u d, w = u +:+ String d "" /\ plain_byte d = true).

Lemma TrimSpace_ends_plain (ws1 ws2 w : string) :
  all_bytes asciiSpace ws1 = true -> all_bytes asciiSpace ws2 = true ->
  ends_plain w -> TrimSpace (ws1 +:+ w +:+ ws2) = w.
Proof.
  intros H1 H2 [(c & r & Hw & Hc) (u & d & Hu & Hd)]. unfold TrimSpace.
  rewrite (TrimLeftSpace_spaces _ _ H1).
  rewrite Hw at 1. change (String c r +:+ ws2) with (String c (r +:+ ws2)).
  rewrite (TrimLeftSpace_plain c _ Hc).
  change (String c (r +:+ ws2)) with (String c r +:+ ws2). rewrite <- Hw.
  rewrite (TrimRightSpace_spaces _ _ H2), Hu.
  now apply TrimRightSpace_plain.
Qed.

Lemma all_bytes_app (p : ascii -> bool) (a b : string) :
  all_bytes p (a +:+ b) = all_bytes p a && all_bytes p b.
Proof.
  induction a as [|c a IH]; simpl; [reflexivity|]. now rewrite IH, andb_assoc.
Qed.

Lemma plain_last (w : string) :
  plain w = true -> exists u d, w = u +:+ String d "" /\ plain_byte d = true.
Proof.
  unfold plain. intros H. apply andb_true_iff in H as [Hne H].
  induction w as [|c w IH]; [discriminate|]. simpl in H.
  apply andb_true_iff in H as [Hc Hw].
  destruct w as [|c' w'].
  - exists "", c. auto.
  - destruct (IH eq_refl Hw) as (u & d & -> & Hd).
    exists (String c u), d. auto.
Qed.

Lemma plain_first (w : string) :
  plain w = true -> exists c r, w = String c r /\ plain_byte c = true.
Proof.
  unfold plain. intros H. apply andb_true_iff in H as [Hne H].
  destruct w as [|c w]; [discriminate|]. simpl in H.
  apply andb_true_iff in H as [Hc _]. eauto.
Qed.

(** *** Fields *)

(** The tokens of a tail, each after one space. *)
Fixpoint tail_of (toks : list string) : string :=
  match toks with
  | [] => ""
  | t :: ts => " " +:+ t +:+ tail_of ts
  end.

Lemma Fields_from_plain (w cur r : string) :
  all_bytes plain_byte w = true ->
  Fields_from 0 cur (w +:+ r) = Fields_from 0 (cur +:+ w) r.
Proof.
  revert cur; induction w as [|c w IH]; intros cur H.
  - now rewrite append_nil_r.
  - simpl in H. apply andb_true_iff in H as [Hc Hw].
    change (String c w +:+ r) with (String c (w +:+ r)).
    cbn [Fields_from]. rewrite (space_width_plain c _ Hc), (IH _ Hw).
    now rewrite append_assoc.
Qed.

Lemma Fields_tokens (w0 : string) (toks : list string) :
  plain w0 = true -> forallb plain toks = true ->
  Fields (w0 +:+ tail_of toks) = w0 :: toks.
Proof.
  unfold Fields.
  assert (G : forall toks cur, plain cur = true -> forallb plain toks = true ->
              Fields_from 0 cur (tail_of toks) = cur :: toks).
  { clear. induction toks as [|t ts IH]; intros cur Hc H.
    - simpl. unfold plain in Hc. destruct cur; [discriminate|reflexivity].
    - simpl in H. apply andb_true_iff in H as [Ht Hts].
      change (tail_of (t :: ts)) with (String " " (t +:+ tail_of ts)).
      cbn [Fields_from]. rewrite (space_width_space " " _ eq_refl).
      pose proof Ht as Ht'. unfold plain in Ht'.
      apply andb_true_iff in Ht' as [_ Ht'].
      rewrite (Fields_from_plain t "" _ Ht'). simpl "+:+".
      rewrite (IH t Ht Hts).
      unfold plain in Hc. destruct cur; [discriminate|reflexivity]. }
  intros H0 H. pose proof H0 as H0'. unfold plain in H0'.
  apply andb_true_iff in H0' as [_ H0'].
  rewrite (Fields_from_plain w0 "" _ H0'). now apply G.
Qed.

Lemma ends_plain_tokens (w0 : string) (toks : list string) :
  plain w0 = true -> forallb plain toks = true ->
  ends_plain (w0 +:+ tail_of toks).
Proof.
  intros H0 H. split.
  - destruct (plain_first w0 H0) as (c & r & -> & Hc).
    exists c, (r +:+ tail_of toks). auto.
  - revert w0 H0 H. induction toks as [|t ts IH]; intros w0 H0 H.
    + simpl. rewrite append_nil_r. now apply plain_last.
    + simpl in H. apply andb_true_iff in H as [Ht Hts].
      destruct (IH t Ht Hts) as (u & d & E & Hd).
      exists (w0 +:+ " " +:+ u), d. split; [|assumption].
      simpl tail_of. rewrite E. now rewrite !append_assoc.
Qed.

(** *** The text of a stamp *)

Lemma digit_plain (c : ascii) : isDigit c = true -> plain_byte c = true.
Proof.
  unfold isDigit, plain_byte, asciiSpace. intros H.
  apply andb_true_iff in H as [H1 H2]. apply N.leb_le in H1, H2.
  destruct (N.ltb_spec (code c) 128); [|lia].
  destruct (N.leb_spec 9 (code c)); [|lia].
  destruct (N.leb_spec (code c) 13); [lia|].
  destruct (N.eqb_spec (code c) 32); [lia|reflexivity].
Qed.

Lemma digits_plain (s : string) :
  all_digits s = true -> all_bytes plain_byte s = true.
Proof.
  induction s as [|c s IH]; simpl; [reflexivity|]. intros H.
  apply andb_true_iff in H as [Hc Hs]. now rewrite (digit_plain c Hc), IH.
Qed.

Lemma render_plain (t : Stamp) : numeric t = true -> plain (render t) = true.
Proof.
  destruct t as [h m s f]. unfold numeric, render, plain. cbn [hh mm ss frac].
  intros H. split_andb.
  repeat match goal with
         | H : number _ = true |- _ =>
             unfold number in H; apply andb_true_iff in H as [? H];
             apply digits_plain in H
         end.
  destruct h as [h|].
  - unfold number in H. apply andb_true_iff in H as [Hne Hh].
    apply digits_plain in Hh.
    rewrite !all_bytes_app. simpl.
    repeat match goal with H : all_bytes _ _ = true |- _ => rewrite H end.
    destruct h; [discriminate|reflexivity].
  - rewrite !all_bytes_app. simpl.
    repeat match goal with H : all_bytes _ _ = true |- _ => rewrite H end.
    destruct m; [discriminate|reflexivity].
Qed.

Lemma render_free_of (c : ascii) (t : Stamp) :
  isDigit c = false -> Ascii.eqb ":" c = false -> Ascii.eqb "." c = false ->
  numeric t = true -> free_of c (render t) = true.
Proof.
  intros Hd Hc Hp. destruct t as [h m s f]. unfold numeric, render.
  cbn [hh mm ss frac]. intros H. split_andb.
  repeat match goal with
         | H : number _ = true |- _ => apply (number_free c _ Hd) in H
         end.
  destruct h as [h|].
  - apply (number_free c _ Hd) in H.
    rewrite !free_of_app.
    change (free_of c ":") with (negb (Ascii.eqb ":" c) && true).
    change (free_of c ".") with (negb (Ascii.eqb "." c) && true).
    rewrite Hc, Hp.
    repeat match goal with H : free_of _ _ = true |- _ => rewrite H end.
    reflexivity.
  - rewrite !free_of_app.
    change (free_of c ":") with (negb (Ascii.eqb ":" c) && true).
    change (free_of c ".") with (negb (Ascii.eqb "." c) && true).
    rewrite Hc, Hp.
    repeat match goal with H : free_of _ _ = true |- _ => rewrite H end.
    reflexivity.
Qed.

Lemma spaces_free_of (c : ascii) (ws : string) :
  asciiSpace c = false -> all_bytes asciiSpace ws = true -> free_of c ws = true.
Proof.
  intros Hc. induction ws as [|x ws IH]; simpl; [reflexivity|]. intros H.
  apply andb_true_iff in H as [Hx Hw]. rewrite (IH Hw), andb_true_r.
  destruct (Ascii.eqb_spec x c) as [->|]; [congruence|reflexivity].
Qed.

(** ** The timestamp line *)

Definition errInvalidTimestampLine : error := errorString "invalid timestamp line".
Definition errMissingEndTimestamp : error := errorString "missing end timestamp".

(** X1. The error "invalid timestamp line" is returned exactly for the lines
    in which the arrow does not occur. *)
Theorem timestamp_line_needs_arrow (line : string) :
  tl_err (parseTimestampLine line) = Some errInvalidTimestampLine
  <-> ~ exists a b, line = a +:+ "-->" +:+ b.
Proof.
  rewrite <- Index_None. unfold parseTimestampLine, SplitN2.
  destruct (Index line "-->") as [m|]; [|split; reflexivity].
  split; [|discriminate]. intros H. exfalso.
  destruct (Fields _) as [|endStr toks]; [discriminate|].
  destruct (parseTimestamp (TrimSpace _)) as [start [e|]]; [discriminate|].
  destruct (parseTimestamp endStr) as [end_ [e|]]; discriminate.
Qed.

(** A line of a start text, the arrow, an end text and tokens: the two
    texts are handed to [parseTimestamp], the start first, and an error
    of either is wrapped. *)
Lemma parseTimestampLine_fields (a e ws1 ws2 : string) (toks : list string) :
  plain a = true -> free_of "-" a = true -> plain e = true ->
  all_bytes asciiSpace ws1 = true -> all_bytes asciiSpace ws2 = true ->
  forallb plain toks = true ->
  parseTimestampLine (a +:+ ws1 +:+ "-->" +:+ ws2 +:+ e +:+ tail_of toks)
  = match parseTimestamp a with
    | (_, Some err) =>
        timestampLineError (wrapError "invalid start timestamp: " err)
    | (start, None) =>
        match parseTimestamp e with
        | (_, Some err) =>
            timestampLineError (wrapError "invalid end timestamp: " err)
        | (end_, None) =>
            {| tl_start := start; tl_end := end_;
               tl_settings := fold_left applySetting toks zeroSettings;
               tl_err := None |}
        end
    end.
Proof.
  intros Ha Hfa He Hw1 Hw2 Ht.
  set (b := ws2 +:+ e +:+ tail_of toks).
  assert (Hi : Index ((a +:+ ws1) +:+ "-->" +:+ b) "-->"
               = Some (String.length (a +:+ ws1))).
  { apply (Index_free "-" "->"). rewrite free_of_app.
    rewrite Hfa, (spaces_free_of "-" ws1); auto. }
  unfold parseTimestampLine, SplitN2.
  replace (a +:+ ws1 +:+ "-->" +:+ b)
    with ((a +:+ ws1) +:+ "-->" +:+ b) by now rewrite append_assoc.
  rewrite Hi, take_app. change (len "-->") with 3. rewrite drop_app.
  change (drop 3 ("-->" +:+ b)) with b.
  assert (E1 : TrimSpace (a +:+ ws1) = a).
  { apply (TrimSpace_ends_plain "" ws1); auto.
    pose proof (ends_plain_tokens a [] Ha eq_refl) as H.
    simpl in H. now rewrite append_nil_r in H. }
  assert (E2 : TrimSpace b = e +:+ tail_of toks).
  { unfold b. rewrite <- (append_nil_r (ws2 +:+ _)), append_assoc.
    apply TrimSpace_ends_plain; auto.
    apply ends_plain_tokens; auto. }
  rewrite E1, E2, (Fields_tokens _ _ He Ht). reflexivity.
Qed.

(** X2. A line of two stamps around the arrow, with any ASCII white space (or
    none) beside the arrow and tokens after the end stamp, is decoded to
    the two instants and the settings of the tokens. *)
Theorem timestamp_line_decodes (t1 t2 : Stamp) (ws1 ws2 : string)
    (toks : list string) :
  numeric t1 = true -> fits_int t1 = true ->
  numeric t2 = true -> fits_int t2 = true ->
  all_bytes asciiSpace ws1 = true -> all_bytes asciiSpace ws2 = true ->
  forallb plain toks = true ->
  parseTimestampLine
    (render t1 +:+ ws1 +:+ "-->" +:+ ws2 +:+ render t2 +:+ tail_of toks)
  = {| tl_start := time.wrap64 (instant t1);
       tl_end := time.wrap64 (instant t2);
       tl_settings := fold_left applySetting toks zeroSettings;
       tl_err := None |}.
Proof.
  intros Hn1 Hf1 Hn2 Hf2 Hw1 Hw2 Ht.
  rewrite (parseTimestampLine_fields (render t1) (render t2) ws1 ws2 toks)
    by auto using render_plain, render_free_of.
  rewrite (parseTimestamp_render t1 Hn1 Hf1), (parseTimestamp_render t2 Hn2 Hf2).
  reflexivity.
Qed.

Lemma timestamp_line_decodes_witness :
  parseTimestampLine "00:00:00.500 --> 00:00:02.000 align:center line:0"
  = {| tl_start := (500 * time.Millisecond)%Z;
       tl_end := (2 * time.Second)%Z;
       tl_settings := {| Vertical := ""; Line := "0"; Position := ""; Size := "";
                         Align := "center"; Region_ := "" |};
       tl_err := None |}.
Proof.
  exact (timestamp_line_decodes
           {| hh := Some "00"; mm := "00"; ss := "00"; frac := "500" |}
           {| hh := Some "00"; mm := "00"; ss := "02"; frac := "000" |}
           " " " " ["align:center"; "line:0"]
           eq_refl eq_refl eq_refl eq_refl eq_refl eq_refl eq_refl).
Defined.

Lemma timestamp_line_needs_arrow_witness :
  tl_err (parseTimestampLine "00:01.000 -> 00:02.000") = Some errInvalidTimestampLine.
Proof.
  apply (proj2 (timestamp_line_needs_arrow "00:01.000 -> 00:02.000")).
  apply Index_None. reflexivity.
Defined.

(** ** Cue settings *)

(** The field of the settings that a key names. *)
Definition field (key : string) (s : CueSettings) : option string :=
  if String.eqb key "vertical" then Some (Vertical s)
  else if String.eqb key "line" then Some (Line s)
  else if String.eqb key "position" then Some (Position s)
  else if String.eqb key "size" then Some (Size s)
  else if String.eqb key "align" then Some (Align s)
  else if String.eqb key "region" then Some (Region_ s)
  else None.

(** The key of a token: what stands before its first colon, when that is
    not empty. *)
Definition key_of (tok : string) : string :=
  match Index tok ":" with
  | Some (S i) => take (S i) tok
  | _ => ""
  end.

Lemma Index_key (key v : string) :
  free_of ":" key = true ->
  Index (key +:+ ":" +:+ v) ":" = Some (String.length key).
Proof. intros H. now apply (Index_free ":" ""). Qed.

Lemma known_key (key : string) (s : CueSettings) :
  field key s <> None ->
  key = "vertical" \/ key = "line" \/ key = "position" \/ key = "size"
  \/ key = "align" \/ key = "region".
Proof.
  unfold field. intros H.
  repeat match goal with
         | H : context [String.eqb key ?k] |- _ =>
             destruct (String.eqb_spec key k); [now auto 10|]
         end.
  congruence.
Qed.

Lemma applySetting_other (key tok : string) (s : CueSettings) :
  key_of tok <> key -> field key (applySetting s tok) = field key s.
Proof.
  unfold applySetting, key_of.
  destruct (Index tok ":") as [[|i]|]; try reflexivity.
  intros H. unfold field.
  repeat match goal with
         | |- context [String.eqb (take (S i) tok) ?k] =>
             destruct (String.eqb_spec (take (S i) tok) k)
         end;
  cbn [Vertical Line Position Size Align Region_];
  repeat match goal with
         | |- context [String.eqb key ?k] =>
             destruct (String.eqb_spec key k); try congruence
         end;
  reflexivity.
Qed.

Lemma applySetting_set (key v : string) (s : CueSettings) :
  field key s <> None ->
  field key (applySetting s (key +:+ ":" +:+ v)) = Some v.
Proof.
  intros H. apply known_key in H.
  destruct H as [-> | [-> | [-> | [-> | [-> | ->]]]]];
    unfold applySetting; rewrite Index_key by reflexivity; reflexivity.
Qed.

Lemma Index_byte_free (c : ascii) (s : string) :
  free_of c s = true -> Index s (String c "") = None.
Proof.
  intros H. apply Index_None. intros (a & b & ->).
  rewrite !free_of_app in H. simpl in H.
  rewrite Ascii.eqb_refl, andb_false_r in H. discriminate.
Qed.

(** X3. The last token of a key decides the field of that key. *)
Theorem setting_last_wins (key v : string) (toks later : list string)
    (s : CueSettings) :
  field key s <> None ->
  Forall (fun t => key_of t <> key) later ->
  field key (fold_left applySetting (toks ++ (key +:+ ":" +:+ v) :: later) s)
  = Some v.
Proof.
  intros Hk Hl. rewrite fold_left_app. cbn [fold_left].
  assert (Hk' : field key (fold_left applySetting toks s) <> None).
  { unfold field in *. repeat destruct (String.eqb key _); congruence. }
  pose proof (applySetting_set key v _ Hk') as E.
  revert E. generalize (applySetting (fold_left applySetting toks s)
                          (key +:+ ":" +:+ v)).
  induction Hl as [|t later Ht Hl IH]; intros s' E; [exact E|].
  cbn [fold_left]. apply IH. now rewrite applySetting_other.
Qed.

Lemma setting_last_wins_witness :
  field "align"
    (fold_left applySetting
       (["align:start"; "size:50%"] ++ ("align" +:+ ":" +:+ "end") :: ["line:0"; "left"])
       zeroSettings)
  = Some "end".
Proof.
  apply setting_last_wins; [discriminate|].
  repeat constructor; discriminate.
Defined.

(** X4. A token without colon, a token that starts with the colon, and a
    token whose key is none of the six are ignored. *)
Theorem setting_ignored (tok : string) (s : CueSettings) :
  free_of ":" tok = true
  \/ (exists x, tok = ":" +:+ x)
  \/ (exists key v, tok = key +:+ ":" +:+ v /\ free_of ":" key = true
                    /\ field key s = None) ->
  applySetting s tok = s.
Proof.
  unfold applySetting. intros [H|[[x ->]|(key & v & -> & Hf & Hk)]].
  - now rewrite (Index_byte_free ":" tok H).
  - reflexivity.
  - rewrite (Index_key key v Hf).
    destruct key as [|c key]; [reflexivity|].
    cbn [String.length].
    change (String c key +:+ ":" +:+ v) with (String c key +:+ (":" +:+ v)).
    rewrite <- (take_app (String c key) (":" +:+ v)) in Hk.
    cbn [String.length] in Hk. unfold field in Hk.
    repeat match type of Hk with
           | context [String.eqb ?a ?k] =>
               destruct (String.eqb a k) eqn:?; [discriminate|]
           end.
    reflexivity.
Qed.

Lemma setting_ignored_witness :
  applySetting zeroSettings "colour:red" = zeroSettings.
Proof.
  apply setting_ignored. right. right. exists "colour", "red".
  repeat split; reflexivity.
Defined.

(** ** The timestamp-line pattern *)

Lemma search_sound (r : Regexp) (s : string) (pos : nat) (m : Submatch) :
  search r s pos = Some m ->
  exists pre a b, s = pre +:+ a +:+ b /\ lang r (pos + String.length pre) a.
Proof.
  revert pos; induction s as [|c s IH]; intros pos H; cbn [search] in H.
  - destruct (matchAt r "" pos) as [m'|] eqn:E; [|discriminate].
    apply matchAt_sound in E as (a & b & E & Ha & _).
    exists "", a, b. simpl. now rewrite Nat.add_0_r.
  - destruct (matchAt r (String c s) pos) as [m'|] eqn:E.
    + apply matchAt_sound in E as (a & b & E & Ha & _).
      exists "", a, b. simpl. now rewrite Nat.add_0_r.
    + apply IH in H as (pre & a & b & -> & Ha).
      exists (String c pre), a, b. simpl. split; [reflexivity|].
      now rewrite Nat.add_succ_r.
Qed.

Lemma search_complete (r : Regexp) (pre a b : string) (pos : nat) :
  lang r (pos + String.length pre) a ->
  search r (pre +:+ a +:+ b) pos <> None.
Proof.
  revert pos; induction pre as [|c pre IH]; intros pos Ha.
  - simpl in Ha. rewrite Nat.add_0_r in Ha.
    assert (E : matchAt r (a +:+ b) pos <> None).
    { unfold matchAt. apply run_complete; [assumption|discriminate]. }
    change ("" +:+ a +:+ b) with (a +:+ b).
    destruct (a +:+ b); cbn [search]; destruct (matchAt r _ pos); congruence.
  - change (String c pre +:+ a +:+ b) with (String c (pre +:+ a +:+ b)).
    cbn [search]. destruct (matchAt r _ pos); [discriminate|].
    apply IH. simpl in Ha. now rewrite Nat.add_succ_r in Ha.
Qed.

(** [re.MatchString(s)] holds exactly when [s] contains a word of the
    pattern. *)
Lemma MatchString_iff (r : Regexp) (s : string) :
  MatchString r s = true <->
  exists pre a b, s = pre +:+ a +:+ b /\ lang r (String.length pre) a.
Proof.
  unfold MatchString. split.
  - destruct (search r s 0) as [m|] eqn:E; [|discriminate]. intros _.
    now apply search_sound in E.
  - intros (pre & a & b & -> & Ha).
    pose proof (search_complete r pre a b 0 Ha) as H.
    destruct (search r _ 0); congruence.
Qed.

(** The shape of a timestamp line: a well-formed stamp, white space, the
    arrow, white space, a well-formed stamp. *)
Definition timestamp_line_word (w : string) : Prop :=
  exists t1 t2 ws1 ws2,
    well_formed t1 = true /\ well_formed t2 = true
    /\ ws1 <> "" /\ all_bytes space ws1 = true
    /\ ws2 <> "" /\ all_bytes space ws2 = true
    /\ w = render t1 +:+ ws1 +:+ "-->" +:+ ws2 +:+ render t2.

Lemma lang_timestampLineRegex (pos : nat) (w : string) :
  lang timestampLineRegex pos w <-> pos = 0 /\ timestamp_line_word w.
Proof.
  unfold timestampLineRegex, timestamp_line_word.
  change (Cats [?a; ?b; ?c; ?d; ?e; ?f; ?g; ?h])
    with (Cat a (Cat b (Cat c (Cat d (Cat e (Cat f (Cat g h))))))).
  split.
  - intros (a0 & b0 & -> & [-> ->] & a1 & b1 & -> & H1 & a2 & b2 & -> & H2
            & a3 & b3 & -> & H3 & a4 & b4 & -> & H4 & a5 & b5 & -> & H5
            & a6 & b6 & -> & H6 & H7).
    apply lang_timestampRe in H1 as (t1 & Hw1 & ->).
    apply lang_timestampRe in H7 as (t2 & Hw2 & ->).
    apply lang_Plus_Class in H2 as [Hn2 H2].
    apply lang_Plus_Class in H6 as [Hn6 H6].
    apply lang_Lit in H3, H4, H5. subst a3 a4 a5.
    split; [reflexivity|]. exists t1, t2, a2, a6. repeat split; assumption.
  - intros (-> & t1 & t2 & ws1 & ws2 & Hw1 & Hw2 & Hn1 & Hs1 & Hn2 & Hs2 & ->).
    apply (lang_Cat_intro _ _ _ ""); [simpl; auto|].
    apply lang_Cat_intro; [apply lang_timestampRe; eauto|].
    apply lang_Cat_intro; [now apply lang_Plus_Class|].
    apply (lang_Cat_intro _ _ _ "-"); [now apply lang_Lit|].
    apply (lang_Cat_intro _ _ _ "-"); [now apply lang_Lit|].
    apply (lang_Cat_intro _ _ _ ">"); [now apply lang_Lit|].
    apply lang_Cat_intro; [now apply lang_Plus_Class|].
    apply lang_timestampRe; eauto.
Qed.

(** A line that begins with a timestamp-line word is matched. *)
Lemma MatchString_word (w rest : string) :
  timestamp_line_word w -> MatchString timestampLineRegex (w +:+ rest) = true.
Proof.
  intros Hw. apply MatchString_iff. exists "", w, rest.
  split; [reflexivity|]. now apply lang_timestampLineRegex.
Qed.

(** A match is anchored at the start of the line. *)
Lemma MatchString_word_inv (line : string) :
  MatchString timestampLineRegex line = true ->
  exists w rest, timestamp_line_word w /\ line = w +:+ rest.
Proof.
  intros H. apply MatchString_iff in H as (pre & a & b & -> & Ha).
  apply lang_timestampLineRegex in Ha as [Hp Ha].
  destruct pre; [|discriminate]. exists a, b. auto.
Qed.

(** X5. [timestampLineRegex] matches exactly the lines that begin with a
    timestamp-line word; what follows the second stamp is not looked
    at. *)
Theorem timestamp_line_pattern (line : string) :
  MatchString timestampLineRegex line = true <->
  exists w rest, timestamp_line_word w /\ line = w +:+ rest.
Proof.
  split.
  - apply MatchString_word_inv.
  - intros (w & rest & Hw & ->). now apply MatchString_word.
Qed.

Lemma timestamp_line_pattern_witness :
  MatchString timestampLineRegex "00:01.000 --> 1:00:02.000 align:start" = true.
Proof.
  apply (proj2 (timestamp_line_pattern _)).
  exists "00:01.000 --> 1:00:02.000", " align:start". split; [|reflexivity].
  exists {| hh := None; mm := "00"; ss := "01"; frac := "000" |},
         {| hh := Some "1"; mm := "00"; ss := "02"; frac := "000" |}, " ", " ".
  repeat split; (reflexivity || discriminate).
Defined.

(** ** The cue builder *)

Lemma parseTimestampLine_not_missing (line : string) :
  tl_err (parseTimestampLine line) <> Some errMissingTimestampLine.
Proof.
  unfold parseTimestampLine.
  destruct (SplitN2 line "-->") as [|p0 [|p1 [|p2 l]]]; try discriminate.
  destruct (Fields _) as [|endStr toks]; [discriminate|].
  destruct (parseTimestamp (TrimSpace p0)) as [start [e|]]; [discriminate|].
  destruct (parseTimestamp endStr) as [end_ [e|]]; discriminate.
Qed.

(** X6. The error "missing timestamp line" is returned exactly for a group
    of one line that does not begin like a timestamp line. *)
Theorem missing_timestamp_line_iff (lines : list string) :
  snd (parseCue lines) = Some errMissingTimestampLine <->
  exists first,
    lines = [first]
    /\ ~ exists w rest, timestamp_line_word w /\ first = w +:+ rest.
Proof.
  unfold parseCue. destruct lines as [|first rest].
  { split; [discriminate|]. intros (first & H & _). discriminate. }
  assert (Hp : MatchString timestampLineRegex first = true <->
               exists w rest, timestamp_line_word w /\ first = w +:+ rest).
  { split; [apply MatchString_word_inv|].
    intros (w & r & Hw & ->). now apply MatchString_word. }
  destruct (MatchString timestampLineRegex first); cbn [negb].
  - cbn [length Nat.leb].
    split.
    + intros H. exfalso.
      pose proof (parseTimestampLine_not_missing (nth 0 (first :: rest) "")) as Hn.
      destruct (tl_err (parseTimestampLine (nth 0 (first :: rest) "")));
        [now apply Hn|discriminate].
    + intros (f & E & Hf). injection E as <- ->.
      exfalso. apply Hf. now apply Hp.
  - destruct rest as [|second rest].
    + split; [|reflexivity]. intros _. exists first. split; [reflexivity|].
      intros H. apply Hp in H. discriminate.
    + cbn [length Nat.leb]. split; [|intros (f & E & _); discriminate].
      intros H. exfalso.
      pose proof (parseTimestampLine_not_missing
                    (nth 1 (first :: second :: rest) "")) as Hn.
      destruct (tl_err (parseTimestampLine (nth 1 (first :: second :: rest) "")));
        [now apply Hn|discriminate].
Qed.

Lemma missing_timestamp_line_iff_witness :
  snd (parseCue ["1:02.5 --> 1:03.5"]) = Some errMissingTimestampLine.
Proof.
  apply (proj2 (missing_timestamp_line_iff _)).
  exists "1:02.5 --> 1:03.5". split; [reflexivity|].
  intros (w & r & Hw & E). pose proof (MatchString_word w r Hw) as H.
  rewrite <- E in H. vm_compute in H. discriminate.
Defined.

Lemma parseVoices_not_nil (text : string) : parseVoices text <> [].
Proof.
  destruct (FindAllStringSubmatchIndex voiceStartRegex text) as [|m ms] eqn:E.
  - unfold parseVoices. rewrite E. discriminate.
  - rewrite (parseVoices_matches text _ E) by discriminate.
    apply parseVoices_loop_nonempty. discriminate.
Qed.

(** X7. A cue has no voice at all exactly when no line follows its timestamp
    line, which is the first line if that is a timestamp line and the
    second otherwise. *)
Theorem no_voice_iff_no_text (lines : list string) (c : Cue) :
  parseCue lines = (c, None) ->
  (Voices c = [] <->
   length lines = if MatchString timestampLineRegex (hd "" lines) then 1 else 2).
Proof.
  unfold parseCue. destruct lines as [|first rest]; [discriminate|].
  cbn [hd].
  destruct (MatchString timestampLineRegex first); cbn [negb];
    cbv beta iota.
  - cbn [length Nat.leb].
    destruct (tl_err (parseTimestampLine _)); [discriminate|].
    intros H. injection H as <-. cbn [Voices].
    destruct rest as [|l rest]; [split; reflexivity|].
    replace (0 + 1 <? length (first :: l :: rest))%nat with true by reflexivity.
    split; [intros H; now apply parseVoices_not_nil in H|discriminate].
  - destruct rest as [|second rest]; [discriminate|].
    cbn [length Nat.leb].
    destruct (tl_err (parseTimestampLine _)); [discriminate|].
    intros H. injection H as <-. cbn [Voices].
    destruct rest as [|l rest]; [split; reflexivity|].
    replace (1 + 1 <? length (first :: second :: l :: rest))%nat with true
      by reflexivity.
    split; [intros H; now apply parseVoices_not_nil in H|discriminate].
Qed.

Lemma no_voice_iff_no_text_witness :
  Voices (fst (parseCue ["intro"; "00:01.000 --> 00:02.000"])) = [].
Proof.
  apply (proj2 (no_voice_iff_no_text ["intro"; "00:01.000 --> 00:02.000"] _ eq_refl)).
  reflexivity.
Defined.

Lemma space_asciiSpace (ws : string) :
  all_bytes space ws = true -> all_bytes asciiSpace ws = true.
Proof.
  induction ws as [|c ws IH]; simpl; [reflexivity|]. intros H.
  apply andb_true_iff in H as [Hc Hw]. rewrite (IH Hw), andb_true_r.
  unfold space, asciiSpace in *.
  repeat match type of Hc with
         | context [N.eqb ?a ?b] => destruct (N.eqb_spec a b) as [->|]
         end; try reflexivity; discriminate.
Qed.

(** The voices of the text lines of a cue. *)
Definition body_voices (body : list string) : list Voice :=
  match body with
  | [] => []
  | _ => parseVoices (Join body nl)
  end.



(** X9. A group whose first line is a well-formed timestamp line gives a cue
    without identifier, with the exact instants. *)
Theorem cue_without_identifier (t1 t2 : Stamp) (ws1 ws2 : string)
    (toks body : list string) :
  well_formed t1 = true -> well_formed t2 = true ->
  ws1 <> "" -> all_bytes space ws1 = true ->
  ws2 <> "" -> all_bytes space ws2 = true ->
  forallb plain toks = true ->
  parseCue ((render t1 +:+ ws1 +:+ "-->" +:+ ws2 +:+ render t2 +:+ tail_of toks)
            :: body)
  = ({| ID := "";
        StartTime := instant t1;
        EndTime := instant t2;
        Settings := fold_left applySetting toks zeroSettings;
        Voices := body_voices body |}, None).
Proof.
  intros Hw1 Hw2 Hn1 Hs1 Hn2 Hs2 Ht. unfold parseCue.
  assert (E : MatchString timestampLineRegex
                (render t1 +:+ ws1 +:+ "-->" +:+ ws2 +:+ render t2 +:+ tail_of toks)
              = true).
  { replace (render t1 +:+ ws1 +:+ "-->" +:+ ws2 +:+ render t2 +:+ tail_of toks)
      with ((render t1 +:+ ws1 +:+ "-->" +:+ ws2 +:+ render t2) +:+ tail_of toks)
      by now rewrite !append_assoc.
    apply MatchString_word.
    exists t1, t2, ws1, ws2; repeat split; assumption. }
  rewrite E. cbn [negb]. cbv beta iota. cbn [length Nat.leb nth].
  destruct (well_formed_bounds t1 Hw1) as [N1 _].
  destruct (well_formed_bounds t2 Hw2) as [N2 _].
  destruct (well_formed_fits t1 Hw1) as [F1 R1].
  destruct (well_formed_fits t2 Hw2) as [F2 R2].
  rewrite (parseTimestampLine_fields (render t1) (render t2) ws1 ws2 toks)
    by auto using render_plain, render_free_of, space_asciiSpace.
  rewrite (parseTimestamp_render t1 N1 F1), (parseTimestamp_render t2 N2 F2).
  cbn [tl_err tl_start tl_end tl_settings].
  rewrite (wrap64_small _ R1), (wrap64_small _ R2).
  destruct body as [|l body]; reflexivity.
Qed.

Lemma cue_without_identifier_witness :
  parseCue ["00:01.000 --> 00:02.500 align:end"]
  = ({| ID := "";
        StartTime := (1 * time.Second)%Z;
        EndTime := (2 * time.Second + 500 * time.Millisecond)%Z;
        Settings := {| Vertical := ""; Line := ""; Position := ""; Size := "";
                       Align := "end"; Region_ := "" |};
        Voices := [] |}, None).
Proof.
  refine (cue_without_identifier
            {| hh := None; mm := "00"; ss := "01"; frac := "000" |}
            {| hh := None; mm := "00"; ss := "02"; frac := "500" |}
            " " " " ["align:end"] []
            eq_refl eq_refl _ eq_refl _ eq_refl eq_refl); discriminate.
Defined.

(** ** The block classifier *)

(** X10. The kind of the block is decided by the first line alone: a Note
    when it starts with NOTE, a Style when it is STYLE, a Region when it
    starts with REGION, and a Cue in every other case (so "STYLE " with a
    trailing blank, or "Note", begin a cue). *)
Theorem block_kind (first : string) (rest : list string) (b : Block)
    (e : option error) :
  parseBlock (first :: rest) = (Some b, e) ->
  (blockType b = BlockTypeNote <-> exists t, first = "NOTE" +:+ t)
  /\ (blockType b = BlockTypeStyle <-> first = "STYLE")
  /\ (blockType b = BlockTypeRegion <-> exists t, first = "REGION" +:+ t)
  /\ (blockType b = BlockTypeCue <->
      ~ ((exists t, first = "NOTE" +:+ t) \/ first = "STYLE"
         \/ exists t, first = "REGION" +:+ t)).
Proof.
  unfold parseBlock, CutPrefix.
  pose proof (HasPrefix_spec first "NOTE") as Hn.
  pose proof (HasPrefix_spec first "REGION") as Hr.
  destruct (HasPrefix first "NOTE").
  { intros H. injection H as <- <-. cbn [blockType].
    assert (En : exists t, first = "NOTE" +:+ t) by now apply Hn.
    repeat split; try discriminate; auto.
    - intros ->. destruct En as [t Ht]. discriminate.
    - intros [t ->]. destruct En as [t' Ht]. discriminate.
    - intros H. exfalso. apply H. auto. }
  assert (Nn : ~ exists t, first = "NOTE" +:+ t)
    by (intros H; apply Hn in H; discriminate).
  destruct (String.eqb_spec first "STYLE") as [->|Ns].
  { intros H. injection H as <- <-. cbn [blockType].
    repeat split; try discriminate; auto.
    - intros [t Ht]. discriminate.
    - intros [t Ht]. discriminate.
    - intros H. exfalso. apply H. auto. }
  destruct (String.eqb_spec first "REGION") as [->|_]; cbn [orb].
  { intros H. injection H as <- <-. cbn [blockType].
    repeat split; try discriminate; auto.
    - intros [t Ht]. discriminate.
    - exists "". reflexivity.
    - intros H. exfalso. apply H. right. right. exists "". reflexivity. }
  destruct (HasPrefix first "REGION").
  { intros H. injection H as <- <-. cbn [blockType].
    assert (Er : exists t, first = "REGION" +:+ t) by now apply Hr.
    repeat split; try discriminate; auto; try contradiction.
    intros H. exfalso. apply H. auto. }
  assert (Nr : ~ exists t, first = "REGION" +:+ t)
    by (intros H; apply Hr in H; discriminate).
  destruct (parseCue (first :: rest)) as [c err].
  intros H. injection H as <- <-. cbn [blockType].
  repeat split; try discriminate; try contradiction; auto.
  intros _ [H|[H|H]]; contradiction.
Qed.

Lemma block_kind_witness :
  blockType (BlockCue (fst (parseCue ["STYLE "; "x"]))) = BlockTypeCue
  <-> ~ ((exists t, "STYLE " = "NOTE" +:+ t) \/ "STYLE " = "STYLE"
         \/ exists t, "STYLE " = "REGION" +:+ t).
Proof.
  exact (proj2 (proj2 (proj2
           (block_kind "STYLE " ["x"] _ _ eq_refl)))).
Defined.

(** ** Regions *)

Lemma regionLine_keeps_id_out (region : Region) (line : string) :
  RegionSettings region !! "id" = None ->
  RegionSettings (regionLine region line) !! "id" = None.
Proof.
  intros H. unfold regionLine.
  destruct (String.eqb line "REGION"); [assumption|].
  destruct (Index line ":") as [[|i]|]; try assumption.
  destruct (String.eqb_spec (TrimSpace (take (S i) line)) "id") as [E|E];
    cbn [RegionSettings]; [assumption|].
  rewrite lookup_insert_ne; [assumption|exact E].
Qed.

(** X11. The identifier of a region is never stored among its settings: the
    key "id" is absent from the settings of every Region block. *)
Theorem region_id_not_a_setting (lines : list string) (g : Region)
    (e : option error) :
  parseBlock lines = (Some (BlockRegion g), e) ->
  RegionSettings g !! "id" = None.
Proof.
  unfold parseBlock, CutPrefix. destruct lines as [|first rest]; [discriminate|].
  destruct (HasPrefix first "NOTE"); [discriminate|].
  destruct (String.eqb first "STYLE"); [discriminate|].
  destruct (String.eqb first "REGION" || HasPrefix first "REGION").
  - intros H. injection H as <- _.
    generalize (skipn (if String.eqb first "REGION" then 1 else 0) (first :: rest)).
    intros ls.
    assert (G : forall region, RegionSettings region !! "id" = None ->
                RegionSettings (fold_left regionLine ls region) !! "id" = None).
    { induction ls as [|l ls IH]; intros region H; [exact H|].
      cbn [fold_left]. apply IH. now apply regionLine_keeps_id_out. }
    apply G. reflexivity.
  - destruct (parseCue (first :: rest)). discriminate.
Qed.

Lemma region_id_not_a_setting_witness :
  RegionSettings
    (fold_left regionLine ["id:fred"; "width:40%"]
       {| RegionID := ""; RegionSettings := ∅ |}) !! "id" = None.
Proof.
  exact (region_id_not_a_setting ["REGION"; "id:fred"; "width:40%"] _ None eq_refl).
Defined.

(** A line [key:value] of a region, with a key that starts and ends with
    a plain byte and holds no colon: key and value are trimmed, the key
    "id" sets the identifier and any other key one setting. *)
Lemma regionLine_entry (region : Region) (ws1 key ws2 v : string) :
  all_bytes asciiSpace ws1 = true -> all_bytes asciiSpace ws2 = true ->
  ends_plain key -> free_of ":" key = true ->
  regionLine region (ws1 +:+ key +:+ ws2 +:+ ":" +:+ v)
  = if String.eqb key "id"
    then {| RegionID := TrimSpace v; RegionSettings := RegionSettings region |}
    else {| RegionID := RegionID region;
            RegionSettings := <[key := TrimSpace v]> (RegionSettings region) |}.
Proof.
  intros H1 H2 Hk Hf.
  replace (ws1 +:+ key +:+ ws2 +:+ ":" +:+ v)
    with ((ws1 +:+ key +:+ ws2) +:+ ":" +:+ v) by now rewrite !append_assoc.
  assert (Hfree : free_of ":" (ws1 +:+ key +:+ ws2) = true).
  { rewrite !free_of_app, Hf, !spaces_free_of by (assumption || reflexivity).
    reflexivity. }
  pose proof (Index_free ":" "" _ v Hfree) as Hi.
  assert (Hlen : exists i, String.length (ws1 +:+ key +:+ ws2) = S i).
  { destruct Hk as [(c & r & -> & _) _]. rewrite !length_append.
    cbn [String.length]. exists (String.length ws1 + (String.length r + String.length ws2)).
    lia. }
  destruct Hlen as [i Hlen].
  unfold regionLine.
  destruct (String.eqb_spec ((ws1 +:+ key +:+ ws2) +:+ ":" +:+ v) "REGION") as [E|_].
  { rewrite E in Hi. vm_compute in Hi. discriminate. }
  rewrite Hi, Hlen. cbv beta iota zeta. rewrite <- Hlen.
  rewrite take_app, drop_app.
  change (drop 1 (":" +:+ v)) with v.
  rewrite (TrimSpace_ends_plain ws1 ws2 key H1 H2 Hk). reflexivity.
Qed.

Lemma plain_ends_plain (w : string) : plain w = true -> ends_plain w.
Proof. intros H. split; [now apply plain_first|now apply plain_last]. Qed.

(** X12. The last line of a region decides its key: whatever the lines
    before did, the identifier (key "id") or the setting of that key is
    the trimmed value of the last line. *)
Theorem region_last_line_wins (ls : list string) (ws1 key ws2 v : string) :
  all_bytes asciiSpace ws1 = true -> all_bytes asciiSpace ws2 = true ->
  plain key = true -> free_of ":" key = true ->
  exists g,
    parseBlock ("REGION" :: ls ++ [ws1 +:+ key +:+ ws2 +:+ ":" +:+ v])
    = (Some (BlockRegion g), None)
    /\ (key = "id" -> RegionID g = TrimSpace v)
    /\ (key <> "id" -> RegionSettings g !! key = Some (TrimSpace v)).
Proof.
  intros H1 H2 Hk Hf.
  exists (fold_left regionLine (ls ++ [ws1 +:+ key +:+ ws2 +:+ ":" +:+ v])
            {| RegionID := ""; RegionSettings := ∅ |}).
  split; [reflexivity|].
  rewrite fold_left_app. cbn [fold_left].
  rewrite (regionLine_entry _ ws1 key ws2 v H1 H2 (plain_ends_plain _ Hk) Hf).
  destruct (String.eqb_spec key "id") as [E|E]; split; try congruence.
  - intros _. reflexivity.
  - intros _. cbn [RegionSettings]. apply lookup_insert_eq.
Qed.

Lemma region_last_line_wins_witness :
  exists g,
    parseBlock ["REGION"; "width:10%"; " width : 40% "]
    = (Some (BlockRegion g), None)
    /\ ("width" = "id" -> RegionID g = "40%")
    /\ ("width" <> "id" -> RegionSettings g !! "width" = Some "40%").
Proof.
  exact (region_last_line_wins ["width:10%"] " " "width" " " " 40% "
           eq_refl eq_refl eq_refl eq_refl).
Defined.

(** X13. Settings written on the REGION line itself are stored under a key
    that starts with the word REGION: the identifier is not set by
    "REGION id:x", and the setting "width" is not set by
    "REGION width:x". *)
Theorem region_inline_setting (ws key v : string) :
  all_bytes asciiSpace ws = true -> plain key = true -> free_of ":" key = true ->
  parseBlock ["REGION" +:+ ws +:+ key +:+ ":" +:+ v]
  = (Some (BlockRegion
             {| RegionID := "";
                RegionSettings := {[ "REGION" +:+ ws +:+ key := TrimSpace v ]} |}),
     None).
Proof.
  intros Hw Hk Hf.
  assert (He : ends_plain ("REGION" +:+ ws +:+ key)).
  { split.
    - exists "R"%char, ("EGION" +:+ ws +:+ key). split; reflexivity.
    - destruct (plain_last key Hk) as (u & d & -> & Hd).
      exists ("REGION" +:+ ws +:+ u), d. split; [|exact Hd].
      now rewrite !append_assoc. }
  assert (Hfree : free_of ":" ("REGION" +:+ ws +:+ key) = true).
  { rewrite !free_of_app, Hf, (spaces_free_of ":" ws) by (assumption || reflexivity).
    reflexivity. }
  pose proof (regionLine_entry {| RegionID := ""; RegionSettings := ∅ |}
                "" ("REGION" +:+ ws +:+ key) "" v eq_refl eq_refl He Hfree) as E.
  change ("" +:+ ("REGION" +:+ ws +:+ key) +:+ "" +:+ ":" +:+ v)
    with (("REGION" +:+ ws +:+ key) +:+ ":" +:+ v) in E.
  rewrite !append_assoc in E.
  replace (String.eqb ("REGION" +:+ ws +:+ key) "id") with false in E
    by reflexivity.
  cbn [RegionSettings RegionID] in E.
  unfold parseBlock.
  change (CutPrefix ("REGION" +:+ ws +:+ key +:+ ":" +:+ v) "NOTE")
    with ("REGION" +:+ ws +:+ key +:+ ":" +:+ v, false).
  cbv beta iota.
  replace (String.eqb ("REGION" +:+ ws +:+ key +:+ ":" +:+ v) "STYLE") with false
    by reflexivity.
  replace (HasPrefix ("REGION" +:+ ws +:+ key +:+ ":" +:+ v) "REGION") with true
    by (symmetry; apply HasPrefix_app).
  rewrite orb_true_r. cbv beta iota zeta.
  destruct (String.eqb_spec ("REGION" +:+ ws +:+ key +:+ ":" +:+ v) "REGION")
    as [Eq|_].
  { exfalso.
    pose proof (Index_free ":" "" ("REGION" +:+ ws +:+ key) v Hfree) as Hi.
    rewrite !append_assoc, Eq in Hi. discriminate Hi. }
  cbn [skipn fold_left]. rewrite E. reflexivity.
Qed.

Lemma region_inline_setting_witness :
  parseBlock ["REGION id:fred"]
  = (Some (BlockRegion
             {| RegionID := "";
                RegionSettings := {[ "REGION id" := "fred" ]} |}),
     None).
Proof.
  exact (region_inline_setting " " "id" "fred" eq_refl eq_refl eq_refl).
Defined.

(** ** Notes *)

Lemma trim_front_width (width : string -> nat) (k : nat) (s : string) :
  width "" = 0 -> width (trim_front width k s) = 0.
Proof.
  intros H0. revert k; induction s as [|c s IH]; intros k.
  - destruct k; cbn [trim_front]; [rewrite H0|]; exact H0.
  - destruct k as [|k]; cbn [trim_front]; [|apply IH].
    destruct (width (String c s)) eqn:E; [exact E|apply IH].
Qed.

Lemma trim_front_fixed (width : string -> nat) (s : string) :
  width s = 0 -> trim_front width 0 s = s.
Proof. intros H. destruct s; cbn [trim_front]; now rewrite H. Qed.

Lemma trim_front_suffix (width : string -> nat) (k : nat) (s : string) :
  exists z, s = z +:+ trim_front width k s.
Proof.
  revert k; induction s as [|c s IH]; intros k.
  - exists "". destruct k; cbn [trim_front]; [destruct (width "")|]; reflexivity.
  - destruct k as [|k]; cbn [trim_front].
    + destruct (width (String c s)); [now exists ""|].
      destruct (IH n) as [z Hz]. exists (String c z). simpl. now rewrite <- Hz.
    + destruct (IH k) as [z Hz]. exists (String c z). simpl. now rewrite <- Hz.
Qed.

(** No white-space rune starts a prefix of a text that none starts. *)
Lemma space_width_prefix (u z : string) :
  space_width (u +:+ z) = 0 -> space_width u = 0.
Proof.
  destruct u as [|c [|d [|e r]]]; [reflexivity|..]; unfold space_width;
    cbn [String.append]; destruct (asciiSpace c); try discriminate;
    try reflexivity.
  - destruct (code c =? 194)%N; [tauto|reflexivity].
  - tauto.
Qed.

Lemma TrimRightSpace_prefix (t : string) : exists z, t = TrimRightSpace t +:+ z.
Proof.
  unfold TrimRightSpace.
  destruct (trim_front_suffix space_width_rev 0 (strings.rev t)) as [z Hz].
  exists (strings.rev z).
  rewrite <- rev_app, <- Hz. symmetry. apply rev_rev.
Qed.

(** Trimming a trimmed text changes nothing. *)
Lemma TrimSpace_idempotent (s : string) : TrimSpace (TrimSpace s) = TrimSpace s.
Proof.
  unfold TrimSpace.
  assert (Hl : TrimLeftSpace (TrimRightSpace (TrimLeftSpace s))
               = TrimRightSpace (TrimLeftSpace s)).
  { apply trim_front_fixed.
    destruct (TrimRightSpace_prefix (TrimLeftSpace s)) as [z Hz].
    apply (space_width_prefix _ z). rewrite <- Hz.
    now apply trim_front_width. }
  rewrite Hl. unfold TrimRightSpace at 1 2. rewrite rev_rev.
  rewrite trim_front_fixed; [reflexivity|]. now apply trim_front_width.
Qed.

(** X14. A NOTE block never fails, and the text of the Note has no white
    space at either end: trimming it changes nothing. *)
Theorem note_text_is_trimmed (lines : list string) (n : Note) (e : option error) :
  parseBlock lines = (Some (BlockNote n), e) ->
  e = None /\ TrimSpace (NoteText n) = NoteText n.
Proof.
  unfold parseBlock, CutPrefix. destruct lines as [|first rest]; [discriminate|].
  destruct (HasPrefix first "NOTE").
  - intros H. injection H as <- <-. split; [reflexivity|].
    cbn [NoteText]. apply TrimSpace_idempotent.
  - destruct (String.eqb first "STYLE"); [discriminate|].
    destruct (String.eqb first "REGION" || HasPrefix first "REGION");
      [discriminate|].
    destruct (parseCue (first :: rest)). discriminate.
Qed.

Lemma note_text_is_trimmed_witness :
  TrimSpace (NoteText {| NoteText := "a comment" |}) = "a comment".
Proof.
  exact (proj2 (note_text_is_trimmed ["NOTE   a comment  "]
                  {| NoteText := "a comment" |} None eq_refl)).
Defined.

(** ** The stream of items and the whole document *)

(** The items after a valid header, by block groups. *)
Lemma items_block_groups (r : bufio.Scanner) (header : string)
    (tokens : list string) :
  bufio.lines r = header :: tokens -> HasPrefix header "WEBVTT" = true ->
  items r = map classify (block_groups tokens)
            ++ read_error_item tokens (bufio.Err r).
Proof.
  intros Hl Hh.
  rewrite items_all_items. unfold all_items. rewrite Hl, Hh. simpl negb. cbv iota.
  destruct (split_blank_cons tokens) as [g [gs Hs]].
  rewrite (loop_items_groups tokens [] g gs Hs).
  change ([] ++ g) with g. cbv beta iota.
  unfold block_groups, read_error_item. rewrite Hs.
  rewrite (filter_removelast_last (g :: gs)) by discriminate.
  rewrite last_items_classify, map_app, <- !app_assoc.
  destruct (nonempty (List.last (g :: gs) [])); reflexivity.
Qed.

Lemma ParseAll_items (r : bufio.Scanner) :
  ParseAll r =
  match first_error (items r) with
  | Some e => (None, Some e)
  | None => (Some {| Cues := cues_of (items r) |}, None)
  end.
Proof.
  unfold ParseAll. rewrite Parse_feed.
  pose proof (feed_ParseAll_body (items r) []) as H.
  destruct (first_error (items r)) as [e|].
  - destruct H as [cues' ->]. reflexivity.
  - rewrite H. reflexivity.
Qed.

(** An item is a block or an error, never both and never neither. *)
Definition one_sided (it : item) : bool :=
  match it with
  | (Some _, None) | (None, Some _) => true
  | _ => false
  end.

Lemma block_item_one_sided (lines : list string) :
  Forall (fun it => one_sided it = true) (block_item lines).
Proof.
  unfold block_item. destruct (parseBlock lines) as [[b|] [e|]]; repeat constructor.
Qed.

Lemma error_item_one_sided (err : option error) :
  Forall (fun it => one_sided it = true) (error_item err).
Proof. destruct err; repeat constructor. Qed.

Lemma loop_items_one_sided (tokens lines : list string) :
  Forall (fun it => one_sided it = true) (fst (loop_items tokens lines)).
Proof.
  revert lines; induction tokens as [|line tokens IH]; intros lines; simpl.
  - constructor.
  - destruct (isEmpty line); [|apply IH].
    destruct (0 <? length lines)%nat; [|apply IH].
    specialize (IH []). destruct (loop_items tokens []) as [its pending].
    simpl in *. apply Forall_app. split; [apply block_item_one_sided|exact IH].
Qed.

(** X15. Every item that [Parse] hands to its consumer is either a block
    with no error or an error with no block; a cue that failed to decode
    is never handed over together with its error. *)
Theorem item_is_block_or_error (r : bufio.Scanner) :
  Forall (fun it => one_sided it = true) (items r).
Proof.
  rewrite items_all_items. unfold all_items.
  destruct (bufio.lines r) as [|header tokens].
  - destruct (bufio.Err r); repeat constructor.
  - destruct (negb (HasPrefix header "WEBVTT")); [repeat constructor|].
    pose proof (loop_items_one_sided tokens []) as H.
    destruct (loop_items tokens []) as [its pending]. simpl in H.
    apply Forall_app. split; [exact H|].
    unfold last_items.
    destruct (0 <? length pending)%nat; [|apply error_item_one_sided].
    destruct (parseBlock pending) as [[b|] [e|]]; repeat constructor;
      apply error_item_one_sided.
Qed.

(** The group decodes without error. *)
Definition decodes (g : list string) : Prop := snd (parseBlock g) = None.

Lemma first_error_app (a b : list item) :
  first_error (a ++ b) =
  match first_error a with
  | Some e => Some e
  | None => first_error b
  end.
Proof.
  induction a as [|[blk [e|]] a IH]; simpl; [reflexivity|reflexivity|exact IH].
Qed.

Lemma first_error_classify (gs : list (list string)) :
  first_error (map classify gs) = None <-> Forall decodes gs.
Proof.
  induction gs as [|g gs IH]; simpl.
  - split; [constructor|reflexivity].
  - unfold classify at 1, decodes at 1.
    destruct (parseBlock g) as [blk [e|]] eqn:E; simpl.
    + split; [discriminate|]. intros H. inversion H as [|? ? Hg _].
      unfold decodes in Hg. rewrite E in Hg. discriminate.
    + rewrite IH. split.
      * intros H. constructor; [unfold decodes; now rewrite E|exact H].
      * intros H. now inversion H.
Qed.

Lemma cues_of_app (a b : list item) : cues_of (a ++ b) = cues_of a ++ cues_of b.
Proof.
  induction a as [|[[[c|n|s|g]|] e] a IH]; simpl; [reflexivity|..];
    try exact IH.
  now rewrite IH.
Qed.

Lemma cues_of_error_item (err : option error) : cues_of (error_item err) = [].
Proof. now destruct err. Qed.

(** The piece after the last blank line, when it fails, is one of the
    block groups. *)
Lemma last_piece_group (tokens : list string) (e : error) :
  snd (parseBlock (List.last (split_blank tokens) [])) = Some e ->
  In (List.last (split_blank tokens) []) (block_groups tokens).
Proof.
  intros H. unfold block_groups.
  destruct (split_blank_cons tokens) as [g [gs Hs]].
  rewrite Hs in *.
  rewrite (filter_removelast_last (g :: gs)) by discriminate.
  apply in_or_app. right.
  destruct (nonempty (List.last (g :: gs) [])) eqn:Hn; [now left|].
  apply nonempty_nil in Hn. rewrite Hn in H. discriminate.
Qed.

Lemma first_error_groups (tokens : list string) (err : option error) :
  Forall decodes (block_groups tokens) ->
  first_error (map classify (block_groups tokens) ++ read_error_item tokens err)
  = err.
Proof.
  intros H. rewrite first_error_app.
  rewrite (proj2 (first_error_classify _) H).
  unfold read_error_item.
  destruct (snd (parseBlock (List.last (split_blank tokens) []))) as [e|] eqn:E.
  - pose proof (last_piece_group tokens e E) as Hin.
    rewrite List.Forall_forall in H.
    apply H in Hin. unfold decodes in Hin. congruence.
  - now destruct err.
Qed.

(** X16. [ParseAll] returns a document exactly when the first line starts
    with WEBVTT, reading ended without error and every block group
    decodes; the document then holds the cues of the groups, in order. *)
Theorem ParseAll_succeeds_iff (r : bufio.Scanner) (v : WebVTT) :
  ParseAll r = (Some v, None) <->
  exists header tokens,
    bufio.lines r = header :: tokens
    /\ (exists t, header = "WEBVTT" +:+ t)
    /\ bufio.Err r = None
    /\ Forall decodes (block_groups tokens)
    /\ v = {| Cues := cues_of (map classify (block_groups tokens)) |}.
Proof.
  rewrite ParseAll_items. split.
  - intros H.
    destruct (bufio.lines r) as [|header tokens] eqn:Hl.
    { rewrite items_all_items in H. unfold all_items in H. rewrite Hl in H.
      destruct (bufio.Err r); discriminate. }
    destruct (HasPrefix header "WEBVTT") eqn:Hh.
    2:{ rewrite items_all_items in H. unfold all_items in H.
        rewrite Hl, Hh in H. discriminate. }
    rewrite (items_block_groups r header tokens Hl Hh) in H.
    destruct (first_error _) as [e|] eqn:Hf; [discriminate|].
    injection H as <-.
    rewrite first_error_app in Hf.
    destruct (first_error (map classify (block_groups tokens))) eqn:Hg;
      [discriminate|].
    apply first_error_classify in Hg.
    rewrite <- (first_error_groups tokens (bufio.Err r) Hg), first_error_app.
    rewrite (proj2 (first_error_classify _) Hg).
    exists header, tokens. repeat split; auto.
    + now apply HasPrefix_spec.
    + rewrite cues_of_app. unfold read_error_item.
      destruct (snd (parseBlock _)); cbn [cues_of];
        rewrite ?cues_of_error_item, app_nil_r; reflexivity.
  - intros (header & tokens & Hl & Hh & He & Hg & ->).
    apply HasPrefix_spec in Hh.
    rewrite (items_block_groups r header tokens Hl Hh).
    rewrite (first_error_groups tokens _ Hg), He.
    rewrite cues_of_app. unfold read_error_item.
    destruct (snd (parseBlock _)); cbn [cues_of error_item];
      rewrite app_nil_r; reflexivity.
Qed.

Definition two_cues_and_a_note : list string :=
  ["WEBVTT"; ""; "00:01.000 --> 00:02.000"; "one"; "";
   "NOTE between"; ""; "00:03.000 --> 00:04.000"; "two"].

Lemma ParseAll_succeeds_iff_witness :
  ParseAll {| bufio.lines := two_cues_and_a_note; bufio.Err := None |}
  = (Some {| Cues := cues_of (map classify (block_groups (tl two_cues_and_a_note))) |},
     None).
Proof.
  apply (proj2 (ParseAll_succeeds_iff _ _)).
  exists "WEBVTT", (tl two_cues_and_a_note).
  split; [reflexivity|]. split; [now exists ""|]. split; [reflexivity|].
  split; [|reflexivity].
  repeat constructor.
Defined.

Lemma first_error_read_error (r : bufio.Scanner) (e : error) :
  bufio.Err r = Some e -> first_error (items r) <> None.
Proof.
  intros He. rewrite items_all_items. unfold all_items. rewrite He.
  destruct (bufio.lines r) as [|header tokens]; [discriminate|].
  destruct (negb (HasPrefix header "WEBVTT")); [discriminate|].
  destruct (loop_items tokens []) as [its pending].
  rewrite first_error_app. destruct (first_error its); [discriminate|].
  unfold last_items.
  destruct (0 <? length pending)%nat; [|discriminate].
  destruct (parseBlock pending) as [[b|] [e'|]]; discriminate.
Qed.

(** X17. Input whose reading ended on an error never gives a document; and
    when the header is valid and every block group decodes, the error
    returned is that read error. *)
Theorem read_error_fails_ParseAll (r : bufio.Scanner) (e : error) :
  bufio.Err r = Some e ->
  fst (ParseAll r) = None
  /\ forall header tokens,
       bufio.lines r = header :: tokens ->
       (exists t, header = "WEBVTT" +:+ t) ->
       Forall decodes (block_groups tokens) ->
       ParseAll r = (None, Some e).
Proof.
  intros He. split.
  - rewrite ParseAll_items.
    pose proof (first_error_read_error r e He) as H.
    destruct (first_error (items r)); [reflexivity|congruence].
  - intros header tokens Hl Hh Hg. apply HasPrefix_spec in Hh.
    rewrite ParseAll_items, (items_block_groups r header tokens Hl Hh).
    now rewrite (first_error_groups tokens _ Hg), He.
Qed.

Lemma read_error_fails_ParseAll_witness :
  ParseAll {| bufio.lines := two_cues_and_a_note;
              bufio.Err := Some bufio.ErrTooLong |}
  = (None, Some bufio.ErrTooLong).
Proof.
  apply (proj2 (read_error_fails_ParseAll
                  {| bufio.lines := two_cues_and_a_note;
                     bufio.Err := Some bufio.ErrTooLong |}
                  bufio.ErrTooLong eq_refl) "WEBVTT" (tl two_cues_and_a_note)).
  - reflexivity.
  - now exists "".
  - repeat constructor.
Defined.

Lemma loop_items_blank (a b cur : list string) :
  loop_items (a ++ "" :: "" :: b) cur = loop_items (a ++ "" :: b) cur.
Proof.
  revert cur; induction a as [|line a IH]; intros cur.
  - destruct cur; reflexivity.
  - cbn [app loop_items].
    destruct (isEmpty line); [|apply IH].
    destruct (0 <? length cur)%nat; [|apply IH].
    now rewrite IH.
Qed.

(** X18. Blank lines only separate: a blank line right after the header or
    next to another blank line changes nothing of what [Parse] hands
    over. *)
Theorem blank_lines_only_separate (header : string) (a b : list string)
    (err : option error) :
  items {| bufio.lines := header :: "" :: b; bufio.Err := err |}
  = items {| bufio.lines := header :: b; bufio.Err := err |}
  /\ items {| bufio.lines := header :: a ++ "" :: "" :: b; bufio.Err := err |}
     = items {| bufio.lines := header :: a ++ "" :: b; bufio.Err := err |}.
Proof.
  rewrite !items_all_items. unfold all_items. cbn [bufio.lines bufio.Err].
  split.
  - reflexivity.
  - now rewrite loop_items_blank.
Qed.

(** ** More on timestamps *)

(** X19. The start text is decoded first, and what the decoder reports for
    the start or the end text is wrapped with the side it came from; the
    times and settings returned with an error are all zero. *)
Theorem timestamp_line_error_names_side (a e ws1 ws2 : string)
    (toks : list string) :
  plain a = true -> free_of "-" a = true -> plain e = true ->
  all_bytes asciiSpace ws1 = true -> all_bytes asciiSpace ws2 = true ->
  forallb plain toks = true ->
  (forall err, snd (parseTimestamp a) = Some err ->
     parseTimestampLine (a +:+ ws1 +:+ "-->" +:+ ws2 +:+ e +:+ tail_of toks)
     = timestampLineError (wrapError "invalid start timestamp: " err))
  /\ (forall err, snd (parseTimestamp a) = None ->
        snd (parseTimestamp e) = Some err ->
        parseTimestampLine (a +:+ ws1 +:+ "-->" +:+ ws2 +:+ e +:+ tail_of toks)
        = timestampLineError (wrapError "invalid end timestamp: " err)).
Proof.
  intros Ha Hfa He Hw1 Hw2 Ht.
  rewrite (parseTimestampLine_fields a e ws1 ws2 toks) by assumption.
  destruct (parseTimestamp a) as [start [ea|]];
    destruct (parseTimestamp e) as [end_ [ee|]]; cbn [snd];
    split; intros err; try discriminate; congruence.
Qed.

Lemma timestamp_line_error_names_side_witness :
  parseTimestampLine "0x:01.000 --> 00:02"
  = timestampLineError
      (wrapError "invalid start timestamp: "
         (NumError "Atoi" "0x" ErrSyntax)).
Proof.
  exact (proj1 (timestamp_line_error_names_side "0x:01.000" "00:02" " " " " []
                  eq_refl eq_refl eq_refl eq_refl eq_refl eq_refl)
           (NumError "Atoi" "0x" ErrSyntax) eq_refl).
Defined.

(** A stamp without its fraction. *)
Definition whole (t : Stamp) : string :=
  match hh t with
  | Some h => h +:+ ":" +:+ mm t +:+ ":" +:+ ss t
  | None => mm t +:+ ":" +:+ ss t
  end.

(** Hours, minutes, seconds and milliseconds as nanoseconds. *)
Definition nanoseconds (h m s ms : Z) : Z :=
  ((h * 3600 + m * 60 + s) * time.Second + ms * time.Millisecond)%Z.

Lemma instant_nanoseconds (t : Stamp) :
  instant t = nanoseconds (hours_of t) (decimal (mm t)) (decimal (ss t))
                          (decimal (frac t)).
Proof. reflexivity. Qed.

(** X20. The fraction is optional, and whatever follows a second point is not
    looked at: without fraction the milliseconds are zero, and a text
    with more after the fraction decodes like the text without it. *)
Theorem fraction_is_optional (t : Stamp) (junk : string) :
  numeric t = true -> fits_int t = true -> free_of ":" junk = true ->
  parseTimestamp (whole t)
  = (time.wrap64
       (nanoseconds (hours_of t) (decimal (mm t)) (decimal (ss t)) 0), None)
  /\ parseTimestamp (render t +:+ "." +:+ junk) = (time.wrap64 (instant t), None).
Proof.
  destruct t as [h m s f].
  unfold numeric, fits_int, render, whole, instant, nanoseconds, hours_of.
  cbn [hh mm ss frac]. intros Hn Hf Hj. split_andb.
  assert (Hs1 : Split s "." = [s]) by (apply Split_free, number_free; auto).
  assert (Hs2 : Split (s +:+ "." +:+ f +:+ "." +:+ junk) "."
                = s :: f :: Split junk ".").
  { change (s +:+ "." +:+ f +:+ "." +:+ junk)
      with (s +:+ String "." (f +:+ String "." junk)).
    rewrite Split_cons by (apply number_free; auto).
    rewrite Split_cons by (apply number_free; auto). reflexivity. }
  assert (Hc1 : Split s ":" = [s]) by (apply Split_free, number_free; auto).
  assert (Hc2 : Split (s +:+ "." +:+ f +:+ "." +:+ junk) ":"
                = [s +:+ "." +:+ f +:+ "." +:+ junk]).
  { apply Split_free. rewrite !free_of_app.
    rewrite (number_free ":" s), (number_free ":" f), Hj; auto. }
  unfold parseTimestamp. split.
  - destruct h as [h|].
    + change (h +:+ ":" +:+ m +:+ ":" +:+ s)
        with (h +:+ String ":" (m +:+ String ":" s)).
      rewrite Split_cons by (apply number_free; auto).
      rewrite Split_cons by (apply number_free; auto).
      rewrite Hc1, Hs1. cbn [nth length Nat.ltb Nat.leb].
      rewrite !Atoi_number by assumption.
      repeat match goal with H : (_ <=? maxInt)%Z = true |- _ => rewrite H end.
      rewrite duration_wrap. reflexivity.
    + change (m +:+ ":" +:+ s) with (m +:+ String ":" s).
      rewrite Split_cons by (apply number_free; auto).
      rewrite Hc1, Hs1. cbn [nth length Nat.ltb Nat.leb].
      rewrite !Atoi_number by assumption.
      repeat match goal with H : (_ <=? maxInt)%Z = true |- _ => rewrite H end.
      rewrite duration_wrap. reflexivity.
  - destruct h as [h|].
    + rewrite !append_assoc.
      change (h +:+ ":" +:+ m +:+ ":" +:+ s +:+ "." +:+ f +:+ "." +:+ junk)
        with (h +:+ String ":" (m +:+ String ":" (s +:+ "." +:+ f +:+ "." +:+ junk))).
      rewrite Split_cons by (apply number_free; auto).
      rewrite Split_cons by (apply number_free; auto).
      rewrite Hc2, Hs2. cbn [nth length Nat.ltb Nat.leb].
      rewrite !Atoi_number by assumption.
      repeat match goal with H : (_ <=? maxInt)%Z = true |- _ => rewrite H end.
      rewrite duration_wrap. reflexivity.
    + rewrite !append_assoc.
      change (m +:+ ":" +:+ s +:+ "." +:+ f +:+ "." +:+ junk)
        with (m +:+ String ":" (s +:+ "." +:+ f +:+ "." +:+ junk)).
      rewrite Split_cons by (apply number_free; auto).
      rewrite Hc2, Hs2. cbn [nth length Nat.ltb Nat.leb].
      rewrite !Atoi_number by assumption.
      repeat match goal with H : (_ <=? maxInt)%Z = true |- _ => rewrite H end.
      rewrite duration_wrap. reflexivity.
Qed.

Lemma fraction_is_optional_witness :
  parseTimestamp "01:30" = ((90 * time.Second)%Z, None)
  /\ parseTimestamp "01:30.250.75 and more"
     = ((90 * time.Second + 250 * time.Millisecond)%Z, None).
Proof.
  exact (fraction_is_optional
           {| hh := None; mm := "01"; ss := "30"; frac := "250" |}
           "75 and more" eq_refl eq_refl eq_refl).
Defined.

(** [Atoi] on a signed number. *)
Lemma Atoi_signed (s : string) :
  number s = true -> (decimal s <=? maxInt)%Z = true ->
  Atoi ("+" +:+ s) = (decimal s, None)
  /\ Atoi ("-" +:+ s) = ((- decimal s)%Z, None).
Proof.
  unfold number. intros H Hf. apply andb_true_iff in H as [Hne Hd].
  apply Z.leb_le in Hf. unfold maxInt in Hf.
  pose proof (decimal_nonneg _ Hd) as Hnn.
  change (2 ^ 63 - 1)%Z with 9223372036854775807%Z in Hf.
  assert (E : parseUint_loop s 0 = uintOk (decimal s)).
  { rewrite (parseUint_loop_digits s 0 Hd) by (unfold maxUint64; lia).
    fold (decimal s). unfold maxUint64.
    change (2 ^ 64 - 1)%Z with 18446744073709551615%Z.
    destruct (Z.leb_spec (decimal s) 18446744073709551615); [reflexivity|lia]. }
  destruct s as [|c rest]; [discriminate|].
  unfold Atoi.
  change ("+" +:+ String c rest) with (String "+" (String c rest)).
  change ("-" +:+ String c rest) with (String "-" (String c rest)).
  cbn [Ascii.eqb Bool.eqb orb negb andb]. rewrite E.
  change (2 ^ 63)%Z with 9223372036854775808%Z.
  destruct (Z.leb_spec 9223372036854775808 (decimal (String c rest))); [lia|].
  destruct (Z.ltb_spec 9223372036854775808 (decimal (String c rest))); [lia|].
  split; reflexivity.
Qed.

(** X21. The components are read with their sign: a plus sign before a stamp
    changes nothing, and a minus sign negates its first component, the
    hours when there are hours and the minutes otherwise. *)
Theorem leading_sign_is_read (t : Stamp) :
  numeric t = true -> fits_int t = true ->
  parseTimestamp ("+" +:+ render t) = (time.wrap64 (instant t), None)
  /\ parseTimestamp ("-" +:+ render t)
     = (time.wrap64
          match hh t with
          | Some h => nanoseconds (- decimal h) (decimal (mm t)) (decimal (ss t))
                                  (decimal (frac t))
          | None => nanoseconds 0 (- decimal (mm t)) (decimal (ss t))
                                (decimal (frac t))
          end, None).
Proof.
  destruct t as [h m s f].
  unfold numeric, fits_int, render, instant, nanoseconds, hours_of.
  cbn [hh mm ss frac]. intros Hn Hf. split_andb.
  destruct (Split_seconds s f) as [Hc Hp]; [assumption..|].
  assert (Hsign : forall (sg : ascii) (x : string),
             Ascii.eqb sg ":" = false -> number x = true ->
             free_of ":" (String sg x) = true).
  { intros sg x Hsg Hx. cbn [free_of]. rewrite Hsg.
    now rewrite (number_free ":" x). }
  unfold parseTimestamp.
  destruct h as [h|].
  - destruct (Atoi_signed h) as [Ep Em]; [assumption..|].
    split.
    + change ("+" +:+ h +:+ ":" +:+ m +:+ ":" +:+ s +:+ "." +:+ f)
        with (String "+" h +:+ String ":" (m +:+ String ":" (s +:+ "." +:+ f))).
      rewrite Split_cons by (apply Hsign; auto).
      rewrite Split_cons by (apply number_free; auto).
      rewrite Hc, Hp. cbn [nth length Nat.ltb Nat.leb].
      change (String "+" h) with ("+" +:+ h). rewrite Ep.
      rewrite !Atoi_number by assumption.
      repeat match goal with H : (_ <=? maxInt)%Z = true |- _ => rewrite H end.
      rewrite duration_wrap. reflexivity.
    + change ("-" +:+ h +:+ ":" +:+ m +:+ ":" +:+ s +:+ "." +:+ f)
        with (String "-" h +:+ String ":" (m +:+ String ":" (s +:+ "." +:+ f))).
      rewrite Split_cons by (apply Hsign; auto).
      rewrite Split_cons by (apply number_free; auto).
      rewrite Hc, Hp. cbn [nth length Nat.ltb Nat.leb].
      change (String "-" h) with ("-" +:+ h). rewrite Em.
      rewrite !Atoi_number by assumption.
      repeat match goal with H : (_ <=? maxInt)%Z = true |- _ => rewrite H end.
      rewrite duration_wrap. reflexivity.
  - destruct (Atoi_signed m) as [Ep Em]; [assumption..|].
    split.
    + change ("+" +:+ m +:+ ":" +:+ s +:+ "." +:+ f)
        with (String "+" m +:+ String ":" (s +:+ "." +:+ f)).
      rewrite Split_cons by (apply Hsign; auto).
      rewrite Hc, Hp. cbn [nth length Nat.ltb Nat.leb].
      change (String "+" m) with ("+" +:+ m). rewrite Ep.
      rewrite !Atoi_number by assumption.
      repeat match goal with H : (_ <=? maxInt)%Z = true |- _ => rewrite H end.
      rewrite duration_wrap. reflexivity.
    + change ("-" +:+ m +:+ ":" +:+ s +:+ "." +:+ f)
        with (String "-" m +:+ String ":" (s +:+ "." +:+ f)).
      rewrite Split_cons by (apply Hsign; auto).
      rewrite Hc, Hp. cbn [nth length Nat.ltb Nat.leb].
      change (String "-" m) with ("-" +:+ m). rewrite Em.
      rewrite !Atoi_number by assumption.
      repeat match goal with H : (_ <=? maxInt)%Z = true |- _ => rewrite H end.
      rewrite duration_wrap. reflexivity.
Qed.

Lemma leading_sign_is_read_witness :
  parseTimestamp "+01:30.000" = ((90 * time.Second)%Z, None)
  /\ parseTimestamp "-01:30.000" = ((- 30 * time.Second)%Z, None).
Proof.
  exact (leading_sign_is_read
           {| hh := None; mm := "01"; ss := "30"; frac := "000" |}
           eq_refl eq_refl).
Defined.

(** ** The voices of a marked-up cue text *)

(** *** One match of the voice pattern *)

Section Greedy.
Context {T : Type}.

Lemma run_Class_cons (p : ascii -> bool) (c : ascii) (s : string) (pos : nat)
    (cs : caps) (k : string -> nat -> caps -> option T) :
  run (Class p) (String c s) pos cs k = if p c then k s (S pos) cs else None.
Proof. reflexivity. Qed.

Lemma run_Plus_Class_cons (p : ascii -> bool) (c : ascii) (s : string)
    (pos : nat) (cs : caps) (k : string -> nat -> caps -> option T) :
  run (Plus (Class p)) (String c s) pos cs k
  = if p c then star_loop (run (Class p)) k (String.length s) s (S pos) cs
    else None.
Proof. reflexivity. Qed.

(** The loop of [p*] runs to the end of the bytes of [p] when what
    follows succeeds there. *)
Lemma star_loop_Class_greedy (p : ascii -> bool)
    (k : string -> nat -> caps -> option T) (a rest : string) (x : T) :
  all_bytes p a = true ->
  match rest with String c _ => p c = false | EmptyString => True end ->
  forall fuel pos cs,
    String.length a <= fuel ->
    k rest (pos + String.length a) cs = Some x ->
    star_loop (run (Class p)) k fuel (a +:+ rest) pos cs = Some x.
Proof.
  intros Ha Hr. induction a as [|c a IH]; intros fuel pos cs Hf Hk.
  - cbn [String.length] in Hk. rewrite Nat.add_0_r in Hk.
    change ("" +:+ rest) with rest.
    destruct fuel as [|fuel]; cbn [star_loop]; [exact Hk|].
    destruct rest as [|c r]; cbn [run]; [exact Hk|]. now rewrite Hr.
  - cbn [all_bytes] in Ha. apply andb_true_iff in Ha as [Hc Ha].
    destruct fuel as [|fuel]; [cbn [String.length] in Hf; lia|].
    change (String c a +:+ rest) with (String c (a +:+ rest)).
    cbn [star_loop]. rewrite run_Class_cons, Hc.
    replace (Nat.ltb pos (S pos)) with true by (symmetry; apply Nat.ltb_lt; lia).
    rewrite (IH Ha fuel (S pos) cs); [reflexivity| |].
    + cbn [String.length] in Hf. lia.
    + cbn [String.length] in Hk. now rewrite Nat.add_succ_r in Hk.
Qed.

Lemma run_Plus_Class_greedy (p : ascii -> bool)
    (k : string -> nat -> caps -> option T) (a rest : string) (x : T)
    (pos : nat) (cs : caps) :
  a <> "" -> all_bytes p a = true ->
  match rest with String c _ => p c = false | EmptyString => True end ->
  k rest (pos + String.length a) cs = Some x ->
  run (Plus (Class p)) (a +:+ rest) pos cs k = Some x.
Proof.
  intros Hne Ha Hr Hk. destruct a as [|c a]; [congruence|].
  cbn [all_bytes] in Ha. apply andb_true_iff in Ha as [Hc Ha].
  change (String c a +:+ rest) with (String c (a +:+ rest)).
  rewrite run_Plus_Class_cons, Hc.
  apply star_loop_Class_greedy; try assumption.
  - rewrite length_append. lia.
  - cbn [String.length] in Hk. now rewrite Nat.add_succ_r in Hk.
Qed.

End Greedy.

(** A voice-open marker and what follows it up to the next marker. *)
Record Span : Type :=
  { sp_ws : string; sp_name : string; sp_body : string }.

Definition marker (sp : Span) : string :=
  "<v" +:+ sp_ws sp +:+ sp_name sp +:+ ">".

(** A voice-open marker can begin here: [<v] and a white-space byte. *)
Definition opens (s : string) : bool :=
  match s with
  | String a (String b (String c _)) =>
      Ascii.eqb a "<" && Ascii.eqb b "v" && space c
  | _ => false
  end.

(** No voice-open marker begins anywhere in the text. *)
Fixpoint no_open (s : string) : bool :=
  match s with
  | EmptyString => true
  | String _ s' => negb (opens s) && no_open s'
  end.

Definition first_not_space (s : string) : bool :=
  match s with
  | String c _ => negb (space c)
  | EmptyString => false
  end.

(** The marker has white space, then a name that starts with another
    byte and holds no [>]; no marker begins in the body. *)
Definition good_span (sp : Span) : bool :=
  negb (isEmpty (sp_ws sp)) && all_bytes space (sp_ws sp)
  && first_not_space (sp_name sp) && all_bytes notGt (sp_name sp)
  && no_open (sp_body sp).

Fixpoint spans_text (sps : list Span) : string :=
  match sps with
  | [] => ""
  | sp :: rest => marker sp +:+ sp_body sp +:+ spans_text rest
  end.

(** The match of the marker of [sp] at byte [pos]. *)
Definition match_of (pos : nat) (sp : Span) : Submatch :=
  {| m_start := pos;
     m_end := S (S (S pos) + String.length (sp_ws sp) + String.length (sp_name sp));
     m_caps := [(1, (S (S pos) + String.length (sp_ws sp),
                     S (S pos) + String.length (sp_ws sp)
                     + String.length (sp_name sp)))] |}.

Fixpoint matches_of (pos : nat) (sps : list Span) : list Submatch :=
  match sps with
  | [] => []
  | sp :: rest =>
      match_of pos sp
      :: matches_of (pos + String.length (marker sp) + String.length (sp_body sp)) rest
  end.

Lemma good_span_parts (sp : Span) :
  good_span sp = true ->
  sp_ws sp <> "" /\ all_bytes space (sp_ws sp) = true
  /\ sp_name sp <> "" /\ first_not_space (sp_name sp) = true
  /\ all_bytes notGt (sp_name sp) = true
  /\ no_open (sp_body sp) = true.
Proof.
  unfold good_span. intros H. split_andb.
  repeat split; try assumption.
  - destruct (sp_ws sp); [discriminate|discriminate].
  - destruct (sp_name sp); [discriminate|discriminate].
Qed.

Lemma matchAt_marker (sp : Span) (rest : string) (pos : nat) :
  good_span sp = true ->
  matchAt voiceStartRegex (marker sp +:+ rest) pos = Some (match_of pos sp).
Proof.
  intros H. apply good_span_parts in H as (Hw & Hws & Hn & Hf & Hname & _).
  unfold matchAt, voiceStartRegex, marker, match_of. cbn [Cats].
  rewrite !append_assoc.
  change ("<v" +:+ sp_ws sp +:+ sp_name sp +:+ ">" +:+ rest)
    with (String "<" (String "v" (sp_ws sp +:+ sp_name sp +:+ String ">" rest))).
  unfold Lit. cbn [run Ascii.eqb Bool.eqb].
  apply run_Plus_Class_greedy; try assumption.
  { destruct (sp_name sp) as [|c n]; [discriminate|].
    cbn [first_not_space] in Hf. apply negb_true_iff in Hf. exact Hf. }
  apply run_Plus_Class_greedy; try assumption; [reflexivity|].
  cbn [run Ascii.eqb Bool.eqb]. reflexivity.
Qed.

Lemma matchAt_no_open (s : string) (pos : nat) :
  opens s = false -> matchAt voiceStartRegex s pos = None.
Proof.
  intros H. destruct (matchAt voiceStartRegex s pos) as [m|] eqn:E; [|reflexivity].
  apply matchAt_sound in E as (a & b & -> & Ha & _).
  apply lang_voiceStartRegex in Ha as (ws & name & -> & Hne & Hws & _).
  destruct ws as [|w ws]; [congruence|].
  cbn [all_bytes] in Hws. apply andb_true_iff in Hws as [Hw _].
  change (opens (("<v" +:+ String w ws +:+ name +:+ ">") +:+ b))
    with (Ascii.eqb "<" "<" && Ascii.eqb "v" "v" && space w) in H.
  rewrite Hw in H. discriminate H.
Qed.

(** *** All the matches *)

Definition at_marker (rest : string) : Prop :=
  rest = "" \/ exists r, rest = String "<" r.

Lemma opens_body (b rest : string) :
  b <> "" -> no_open b = true -> at_marker rest -> opens (b +:+ rest) = false.
Proof.
  intros Hne Hb Hr. destruct b as [|c b]; [congruence|].
  cbn [no_open] in Hb. apply andb_true_iff in Hb as [Hb _].
  apply negb_true_iff in Hb.
  destruct b as [|d [|e b]].
  - destruct Hr as [->|[r ->]]; [reflexivity|].
    destruct r; cbn [String.append opens]; [reflexivity|].
    change (Ascii.eqb "<" "v") with false.
    now rewrite andb_false_r.
  - destruct Hr as [->|[r ->]]; [reflexivity|].
    cbn [String.append opens].
    change (space "<") with false. now rewrite andb_false_r.
  - exact Hb.
Qed.

Lemma findAll_skip (r : Regexp) (a b : string) (pos : nat) :
  findAll r (String.length a) (a +:+ b) pos = findAll r 0 b (pos + String.length a).
Proof.
  revert pos; induction a as [|c a IH]; intros pos.
  - cbn [String.length]. now rewrite Nat.add_0_r.
  - change (String c a +:+ b) with (String c (a +:+ b)).
    cbn [String.length findAll]. rewrite IH. f_equal. lia.
Qed.

Lemma findAll_no_open (b rest : string) (pos : nat) :
  no_open b = true -> at_marker rest ->
  findAll voiceStartRegex 0 (b +:+ rest) pos
  = findAll voiceStartRegex 0 rest (pos + String.length b).
Proof.
  intros Hb Hr. revert pos; induction b as [|c b IH]; intros pos.
  - cbn [String.length]. now rewrite Nat.add_0_r.
  - pose proof (opens_body (String c b) rest ltac:(discriminate) Hb Hr) as Ho.
    change (String c b +:+ rest) with (String c (b +:+ rest)) in *.
    cbn [findAll]. rewrite (matchAt_no_open _ pos Ho).
    cbn [no_open] in Hb. apply andb_true_iff in Hb as [_ Hb].
    rewrite (IH Hb). cbn [String.length]. f_equal. lia.
Qed.

Lemma m_end_match_of (pos : nat) (sp : Span) :
  m_end (match_of pos sp) = pos + String.length (marker sp).
Proof.
  unfold match_of, marker. cbn [m_end].
  change ("<v" +:+ sp_ws sp +:+ sp_name sp +:+ ">")
    with (String "<" (String "v" (sp_ws sp +:+ sp_name sp +:+ ">"))).
  cbn [String.length]. rewrite !length_append. cbn [String.length]. lia.
Qed.

Lemma findAll_marker (sp : Span) (rest : string) (pos : nat) :
  good_span sp = true ->
  findAll voiceStartRegex 0 (marker sp +:+ rest) pos
  = match_of pos sp
    :: findAll voiceStartRegex 0 rest (pos + String.length (marker sp)).
Proof.
  intros H. pose proof (matchAt_marker sp rest pos H) as Hm.
  pose proof (m_end_match_of pos sp) as He.
  unfold marker in *.
  change (("<v" +:+ sp_ws sp +:+ sp_name sp +:+ ">") +:+ rest)
    with (String "<" (("v" +:+ sp_ws sp +:+ sp_name sp +:+ ">") +:+ rest)) in *.
  cbn [findAll]. rewrite Hm. f_equal.
  rewrite He.
  change ("<v" +:+ sp_ws sp +:+ sp_name sp +:+ ">")
    with (String "<" ("v" +:+ sp_ws sp +:+ sp_name sp +:+ ">")).
  cbn [String.length].
  replace (pos + S (String.length ("v" +:+ sp_ws sp +:+ sp_name sp +:+ ">")) - pos - 1)
    with (String.length ("v" +:+ sp_ws sp +:+ sp_name sp +:+ ">")) by lia.
  rewrite findAll_skip. f_equal. lia.
Qed.

Lemma spans_text_at_marker (sps : list Span) : at_marker (spans_text sps).
Proof.
  destruct sps as [|sp rest]; [now left|right].
  cbn [spans_text]. unfold marker. eexists. reflexivity.
Qed.

Lemma findAll_spans (sps : list Span) (pos : nat) :
  forallb good_span sps = true ->
  findAll voiceStartRegex 0 (spans_text sps) pos = matches_of pos sps.
Proof.
  revert pos; induction sps as [|sp rest IH]; intros pos H.
  - cbn [spans_text matches_of findAll].
    now rewrite (matchAt_no_open "" pos eq_refl).
  - cbn [forallb] in H. apply andb_true_iff in H as [Hsp Hrest].
    cbn [spans_text matches_of].
    rewrite (findAll_marker sp _ pos Hsp).
    apply good_span_parts in Hsp as (_ & _ & _ & _ & _ & Hb).
    rewrite (findAll_no_open _ _ _ Hb (spans_text_at_marker rest)).
    now rewrite (IH _ Hrest).
Qed.

(** *** The loop over the matches *)

(** The text of a span before its closing token, and after it. *)
Definition shown (body : string) : string :=
  match Index body "</v>" with
  | Some idx => take idx body
  | None => body
  end.

Definition after (body : string) : string :=
  match Index body "</v>" with
  | Some idx => drop (idx + 4) body
  | None => ""
  end.

(** What the text [gap] before a marker does to the voices. *)
Definition absorb_gap (gap : string) (voices : list Voice) : list Voice :=
  let prefix := TrimSpace gap in
  if negb (isEmpty prefix) && (0 <? length voices)%nat then
    appendToLast voices prefix
  else if negb (isEmpty prefix) then
    voices ++ [{| Speaker := ""; Text := prefix |}]
  else voices.

Fixpoint voices_from (gap : string) (voices : list Voice) (sps : list Span)
  : list Voice :=
  match sps with
  | [] => voices
  | sp :: rest =>
      voices_from (after (sp_body sp))
        (absorb_gap gap voices
         ++ [{| Speaker := sp_name sp; Text := TrimSpace (shown (sp_body sp)) |}])
        rest
  end.

Lemma absorb_absorb_gap (text : string) (lastEnd : nat) (m : Submatch)
    (voices : list Voice) :
  absorb text lastEnd m voices
  = absorb_gap (slice text lastEnd (m_start m)) voices.
Proof.
  unfold absorb, absorb_gap.
  destruct (Nat.ltb_spec lastEnd (m_start m)) as [Hlt|Hge]; [reflexivity|].
  unfold slice. replace (m_start m - lastEnd) with 0 by lia.
  destruct (drop lastEnd text); reflexivity.
Qed.

Lemma slice_mid (a b c : string) :
  slice (a +:+ b +:+ c) (String.length a) (String.length a + String.length b) = b.
Proof.
  unfold slice. rewrite drop_app_0.
  replace (String.length a + String.length b - String.length a)
    with (String.length b) by lia.
  apply take_app.
Qed.

Lemma Index_bound (s sub : string) (idx : nat) :
  Index s sub = Some idx ->
  exists a b, s = a +:+ sub +:+ b /\ String.length a = idx.
Proof.
  revert idx; induction s as [|c s IH]; intros idx H; cbn [Index] in H.
  - destruct (HasPrefix "" sub) eqn:E; [|discriminate].
    injection H as <-. apply HasPrefix_spec in E as [t E].
    exists "", t. split; [exact E|reflexivity].
  - destruct (HasPrefix (String c s) sub) eqn:E.
    + injection H as <-. apply HasPrefix_spec in E as [t E].
      exists "", t. split; [exact E|reflexivity].
    + destruct (Index s sub) as [i|]; [|discriminate].
      injection H as <-. destruct (IH i eq_refl) as (a & b & -> & <-).
      exists (String c a), b. split; reflexivity.
Qed.

(** The part of a body after its closing token, as a slice of the whole
    text. *)
Lemma slice_after (a body c : string) (idx : nat) :
  Index body "</v>" = Some idx ->
  slice (a +:+ body +:+ c) (String.length a + idx + 4)
        (String.length a + String.length body)
  = drop (idx + 4) body.
Proof.
  intros H. apply Index_bound in H as (u & w & -> & <-).
  rewrite <- (append_assoc u "</v>" w).
  assert (Hl : String.length (u +:+ "</v>") = String.length u + 4)
    by (rewrite length_append; reflexivity).
  rewrite <- Hl, (drop_app_0 (u +:+ "</v>") w).
  replace (a +:+ ((u +:+ "</v>") +:+ w) +:+ c)
    with ((a +:+ u +:+ "</v>") +:+ w +:+ c) by now rewrite !append_assoc.
  replace (String.length a + String.length u + 4)
    with (String.length (a +:+ u +:+ "</v>"))
    by (rewrite !length_append; cbn [String.length]; lia).
  replace (String.length a + String.length ((u +:+ "</v>") +:+ w))
    with (String.length (a +:+ u +:+ "</v>") + String.length w)
    by (rewrite !length_append; cbn [String.length]; lia).
  apply slice_mid.
Qed.

Lemma name_of_match_of (done : string) (sp : Span) (rest : string) :
  name_of (done +:+ marker sp +:+ rest) (match_of (String.length done) sp)
  = sp_name sp.
Proof.
  unfold name_of, match_of, marker. cbn [m_caps group Nat.eqb].
  replace (done +:+ ("<v" +:+ sp_ws sp +:+ sp_name sp +:+ ">") +:+ rest)
    with ((done +:+ "<v" +:+ sp_ws sp) +:+ sp_name sp +:+ ">" +:+ rest)
    by now rewrite !append_assoc.
  replace (S (S (String.length done)) + String.length (sp_ws sp))
    with (String.length (done +:+ "<v" +:+ sp_ws sp))
    by (rewrite !length_append; cbn [String.length]; lia).
  apply slice_mid.
Qed.

Lemma parseVoices_loop_spans (sps : list Span) :
  forall done lastEnd voices,
    parseVoices_loop (done +:+ spans_text sps)
      (matches_of (String.length done) sps) lastEnd voices
    = voices_from (slice (done +:+ spans_text sps) lastEnd (String.length done))
        voices sps.
Proof.
  induction sps as [|sp rest IH]; intros done lastEnd voices; [reflexivity|].
  cbn [spans_text matches_of voices_from].
  rewrite parseVoices_loop_cons, absorb_absorb_gap.
  change (m_start (match_of (String.length done) sp)) with (String.length done).
  set (text := done +:+ marker sp +:+ sp_body sp +:+ spans_text rest).
  set (m := match_of (String.length done) sp).
  set (later := matches_of
                  (String.length done + String.length (marker sp)
                   + String.length (sp_body sp)) rest).
  assert (Hend : m_end m = String.length (done +:+ marker sp))
    by (unfold m; rewrite m_end_match_of, length_append; reflexivity).
  assert (Htext : text = (done +:+ marker sp) +:+ sp_body sp +:+ spans_text rest)
    by (unfold text; now rewrite !append_assoc).
  assert (Hspan : span_of text m later = sp_body sp).
  { unfold span_of, later. rewrite Hend, Htext.
    destruct rest as [|sp' rest'].
    - cbn [matches_of spans_text]. rewrite drop_app_0. apply append_nil_r.
    - cbn [matches_of]. change (m_start (match_of ?p sp')) with p.
      replace (String.length done + String.length (marker sp)
               + String.length (sp_body sp))
        with (String.length (done +:+ marker sp) + String.length (sp_body sp))
        by (rewrite length_append; lia).
      apply slice_mid. }
  assert (Hvoice : voice_of text m later
                   = {| Speaker := sp_name sp;
                        Text := TrimSpace (shown (sp_body sp)) |}).
  { unfold voice_of, shown. rewrite Hspan. f_equal.
    apply name_of_match_of. }
  rewrite Hvoice.
  assert (Hdone : String.length (done +:+ marker sp +:+ sp_body sp)
                  = String.length done + String.length (marker sp)
                    + String.length (sp_body sp))
    by (rewrite !length_append; lia).
  specialize (IH (done +:+ marker sp +:+ sp_body sp)
                 (resume_at text m later)
                 (absorb_gap (slice text lastEnd (String.length done)) voices
                  ++ [{| Speaker := sp_name sp;
                         Text := TrimSpace (shown (sp_body sp)) |}])).
  rewrite Hdone in IH. fold later in IH.
  replace ((done +:+ marker sp +:+ sp_body sp) +:+ spans_text rest)
    with text in IH by (unfold text; now rewrite !append_assoc).
  rewrite IH.
  destruct rest as [|sp' rest']; [reflexivity|].
  f_equal.
  unfold resume_at, after. rewrite Hspan, Hend, Htext.
  destruct (Index (sp_body sp) "</v>") as [idx|] eqn:Hi.
  - replace (String.length done + String.length (marker sp)
             + String.length (sp_body sp))
      with (String.length (done +:+ marker sp) + String.length (sp_body sp))
      by (rewrite length_append; lia).
    now apply slice_after.
  - unfold slice, len.
    replace (String.length done + String.length (marker sp)
             + String.length (sp_body sp)
             - (String.length (done +:+ marker sp) + String.length (sp_body sp)))
      with 0 by (rewrite length_append; lia).
    now destruct (drop _ _).
Qed.

(** *** The voices *)

(** The voice [v] when [gap] follows its closing token and [rest] are
    the spans after it: before another marker the gap, trimmed, joins the
    voice after one space; after the last marker it is dropped. *)
Definition extend (v : Voice) (gap : string) (rest : list Span) : Voice :=
  match rest with
  | [] => v
  | _ =>
      if isEmpty (TrimSpace gap) then v
      else {| Speaker := Speaker v; Text := Text v +:+ " " +:+ TrimSpace gap |}
  end.

Fixpoint voices_of (sps : list Span) : list Voice :=
  match sps with
  | [] => []
  | sp :: rest =>
      extend {| Speaker := sp_name sp; Text := TrimSpace (shown (sp_body sp)) |}
             (after (sp_body sp)) rest
      :: voices_of rest
  end.

(** The voice of the text before the first marker, if it is not blank. *)
Definition lead (pre : string) : list Voice :=
  if isEmpty (TrimSpace pre) then []
  else [{| Speaker := ""; Text := TrimSpace pre |}].

Lemma voices_from_snoc (rest : list Span) :
  forall gap vs v,
    voices_from gap (vs ++ [v]) rest = vs ++ extend v gap rest :: voices_of rest.
Proof.
  induction rest as [|sp rest IH]; intros gap vs v; [reflexivity|].
  cbn [voices_from voices_of].
  assert (E : absorb_gap gap (vs ++ [v]) = vs ++ [extend v gap (sp :: rest)]).
  { unfold absorb_gap, extend.
    replace (0 <? length (vs ++ [v]))%nat with true
      by (symmetry; apply Nat.ltb_lt; rewrite length_app; simpl; lia).
    destruct (isEmpty (TrimSpace gap)); cbn [negb andb]; [reflexivity|].
    apply appendToLast_snoc. }
  rewrite E, IH, <- app_assoc. reflexivity.
Qed.

(** X22. A cue text made of an optional text before the first marker and of
    marked spans gives one voice per marker, in order, with the name of
    the marker as speaker and the trimmed text of the span up to its
    closing token (or its end) as text; what follows a closing token
    joins that voice when another marker follows and is dropped after the
    last one; a text before the first marker that is not blank gives a
    first voice without speaker. *)
Theorem voices_of_marked_text (pre : string) (sps : list Span) :
  no_open pre = true -> sps <> [] -> forallb good_span sps = true ->
  parseVoices (pre +:+ spans_text sps) = lead pre ++ voices_of sps.
Proof.
  intros Hpre Hne Hgood.
  assert (Hm : FindAllStringSubmatchIndex voiceStartRegex (pre +:+ spans_text sps)
               = matches_of (String.length pre) sps).
  { unfold FindAllStringSubmatchIndex.
    rewrite (findAll_no_open _ _ _ Hpre (spans_text_at_marker sps)).
    now apply findAll_spans. }
  rewrite (parseVoices_matches _ _ Hm) by (destruct sps; [congruence|discriminate]).
  rewrite parseVoices_loop_spans.
  unfold slice. cbn [drop]. rewrite Nat.sub_0_r, take_app.
  destruct sps as [|sp rest]; [congruence|].
  cbn [voices_from voices_of].
  assert (E : absorb_gap pre [] = lead pre).
  { unfold absorb_gap, lead. cbn [length Nat.ltb Nat.leb].
    rewrite andb_false_r. now destruct (isEmpty (TrimSpace pre)). }
  rewrite E, voices_from_snoc. reflexivity.
Qed.

Lemma voices_of_marked_text_witness :
  parseVoices "intro <v Roger Bingham>We are <i>in</i> New York</v> yes <v  Neil>Didn't we?</v> bye"
  = [{| Speaker := ""; Text := "intro" |};
     {| Speaker := "Roger Bingham"; Text := "We are <i>in</i> New York yes" |};
     {| Speaker := "Neil"; Text := "Didn't we?" |}].
Proof.
  exact (voices_of_marked_text "intro "
           [{| sp_ws := " "; sp_name := "Roger Bingham";
               sp_body := "We are <i>in</i> New York</v> yes " |};
            {| sp_ws := "  "; sp_name := "Neil";
               sp_body := "Didn't we?</v> bye" |}]
           eq_refl ltac:(discriminate) eq_refl).
Defined.

(** *** Speakers *)

Lemma absorb_gap_speakers (gap : string) (vs : list Voice) (v : Voice) :
  map Speaker (absorb_gap gap (vs ++ [v])) = map Speaker (vs ++ [v]).
Proof.
  unfold absorb_gap.
  replace (0 <? length (vs ++ [v]))%nat with true
    by (symmetry; apply Nat.ltb_lt; rewrite length_app; simpl; lia).
  destruct (isEmpty (TrimSpace gap)); cbn [negb andb]; [reflexivity|].
  rewrite appendToLast_snoc, !map_app. reflexivity.
Qed.

Lemma parseVoices_loop_speakers (text : string) (ms : list Submatch) :
  forall lastEnd vs v,
    map Speaker (parseVoices_loop text ms lastEnd (vs ++ [v]))
    = map Speaker (vs ++ [v]) ++ map (name_of text) ms.
Proof.
  induction ms as [|m ms IH]; intros lastEnd vs v.
  - cbn [parseVoices_loop map]. now rewrite app_nil_r.
  - rewrite parseVoices_loop_cons, IH, absorb_absorb_gap.
    rewrite (map_app _ (absorb_gap _ _)), absorb_gap_speakers.
    cbn [map]. rewrite <- app_assoc. reflexivity.
Qed.

(** X23. Whatever the text, the voices are one per match of the voice
    pattern, in order and with the name of the match as speaker, after
    at most one voice without speaker for the text before the first
    match. *)
Theorem one_voice_per_match (text : string) (m : Submatch) (ms : list Submatch) :
  FindAllStringSubmatchIndex voiceStartRegex text = m :: ms ->
  map Speaker (parseVoices text)
  = (if isEmpty (TrimSpace (take (m_start m) text)) then [] else [""])
    ++ map (name_of text) (m :: ms).
Proof.
  intros E. rewrite (parseVoices_matches text _ E) by discriminate.
  rewrite parseVoices_loop_cons, absorb_absorb_gap.
  unfold slice. cbn [drop]. rewrite Nat.sub_0_r.
  assert (Ha : map Speaker (absorb_gap (take (m_start m) text) [])
               = if isEmpty (TrimSpace (take (m_start m) text)) then [] else [""]).
  { unfold absorb_gap. cbn [length Nat.ltb Nat.leb]. rewrite andb_false_r.
    now destruct (isEmpty (TrimSpace (take (m_start m) text))). }
  rewrite parseVoices_loop_speakers, map_app, Ha.
  cbn [map Speaker]. rewrite <- app_assoc. reflexivity.
Qed.

Lemma one_voice_per_match_witness :
  map Speaker (parseVoices "<v A>one<v B>two</v> and <v C>three")
  = ["A"; "B"; "C"].
Proof.
  exact (one_voice_per_match "<v A>one<v B>two</v> and <v C>three"
           {| m_start := 0; m_end := 5; m_caps := [(1, (3, 4))] |}
           [{| m_start := 8; m_end := 13; m_caps := [(1, (11, 12))] |};
            {| m_start := 25; m_end := 30; m_caps := [(1, (28, 29))] |}]
           eq_refl).
Defined.

(** ** A document of well-formed cues *)

(** The text of a cue block: an optional identifier line, the timestamp
    line, the lines of the cue text. *)
Record CueText : Type :=
  { ct_id : option string;
    ct_start : Stamp;
    ct_end : Stamp;
    ct_ws1 : string;
    ct_ws2 : string;
    ct_tokens : list string;
    ct_body : list string }.

Definition timestamp_line (ct : CueText) : string :=
  render (ct_start ct) +:+ ct_ws1 ct +:+ "-->" +:+ ct_ws2 ct
  +:+ render (ct_end ct) +:+ tail_of (ct_tokens ct).

Definition cue_lines (ct : CueText) : list string :=
  match ct_id ct with
  | Some id => id :: timestamp_line ct :: ct_body ct
  | None => timestamp_line ct :: ct_body ct
  end.

(** The first line of a block that is taken for a cue. *)
Definition cue_first (first : string) : bool :=
  negb (HasPrefix first "NOTE") && negb (String.eqb first "STYLE")
  && negb (HasPrefix first "REGION").

(** The identifier is a line that does not look like a timestamp line or
    like the start of another kind of block; the stamps are well formed,
    with white space beside the arrow; no line is empty. *)
Definition good_cue (ct : CueText) : bool :=
  match ct_id ct with
  | Some id =>
      negb (isEmpty id) && negb (MatchString timestampLineRegex id)
      && cue_first id
  | None => true
  end
  && well_formed (ct_start ct) && well_formed (ct_end ct)
  && negb (isEmpty (ct_ws1 ct)) && all_bytes space (ct_ws1 ct)
  && negb (isEmpty (ct_ws2 ct)) && all_bytes space (ct_ws2 ct)
  && forallb plain (ct_tokens ct)
  && forallb (fun l => negb (isEmpty l)) (ct_body ct).

(** The cue the block stands for. *)
Definition cue_of (ct : CueText) : Cue :=
  {| ID := match ct_id ct with Some id => id | None => "" end;
     StartTime := instant (ct_start ct);
     EndTime := instant (ct_end ct);
     Settings := fold_left applySetting (ct_tokens ct) zeroSettings;
     Voices := body_voices (ct_body ct) |}.

(** The lines after the header: every block after a blank line. *)
Fixpoint document (cts : list CueText) : list string :=
  match cts with
  | [] => []
  | ct :: rest => "" :: cue_lines ct ++ document rest
  end.

Lemma parseBlock_cue (first : string) (rest : list string) :
  cue_first first = true ->
  parseBlock (first :: rest)
  = (Some (BlockCue (fst (parseCue (first :: rest)))),
     snd (parseCue (first :: rest))).
Proof.
  unfold cue_first, parseBlock, CutPrefix. intros H. split_andb.
  repeat match goal with
         | H : negb _ = true |- _ => apply negb_true_iff in H
         end.
  match goal with H : HasPrefix first "NOTE" = false |- _ => rewrite H end.
  match goal with H : String.eqb first "STYLE" = false |- _ => rewrite H end.
  match goal with H : HasPrefix first "REGION" = false |- _ => rewrite H end.
  destruct (String.eqb_spec first "REGION") as [->|_]; [discriminate|].
  cbn [orb]. now destruct (parseCue (first :: rest)).
Qed.

Lemma render_starts_with_digit (t : Stamp) (rest : string) :
  numeric t = true ->
  exists d r, render t +:+ rest = String d r /\ isDigit d = true.
Proof.
  destruct t as [h m s f]. unfold numeric, render. cbn [hh mm ss frac].
  intros H. split_andb.
  destruct h as [h|].
  - unfold number in H. apply andb_true_iff in H as [Hne Hd].
    destruct h as [|d h]; [discriminate|].
    cbn [all_digits] in Hd. apply andb_true_iff in Hd as [Hd _].
    exists d. eexists. split; [reflexivity|exact Hd].
  - match goal with H : number m = true |- _ =>
      unfold number in H; apply andb_true_iff in H as [Hne Hd] end.
    destruct m as [|d m]; [discriminate|].
    cbn [all_digits] in Hd. apply andb_true_iff in Hd as [Hd _].
    exists d. eexists. split; [reflexivity|exact Hd].
Qed.

Lemma digit_first_cue_first (d : ascii) (r : string) :
  isDigit d = true -> cue_first (String d r) = true.
Proof.
  intros Hd. unfold cue_first.
  assert (E : forall c, isDigit c = false -> Ascii.eqb d c = false).
  { intros c Hc. destruct (Ascii.eqb_spec d c) as [->|]; [congruence|reflexivity]. }
  cbn [HasPrefix String.eqb].
  rewrite (E "N"%char), (E "S"%char), (E "R"%char) by reflexivity. reflexivity.
Qed.

Lemma well_formed_numeric (t : Stamp) : well_formed t = true -> numeric t = true.
Proof. unfold well_formed. intros H. now split_andb. Qed.

Lemma parseCue_cue_lines (ct : CueText) :
  good_cue ct = true -> parseCue (cue_lines ct) = (cue_of ct, None).
Proof.
  unfold good_cue. intros H. split_andb.
  repeat match goal with
         | H : negb (isEmpty ?s) = true |- _ =>
             assert (s <> "") by (destruct s; [discriminate H|discriminate]);
             clear H
         end.
  match goal with H : well_formed (ct_start ct) = true |- _ => rename H into W1 end.
  match goal with H : well_formed (ct_end ct) = true |- _ => rename H into W2 end.
  destruct (well_formed_bounds _ W1) as [N1 _].
  destruct (well_formed_bounds _ W2) as [N2 _].
  destruct (well_formed_fits _ W1) as [F1 R1].
  destruct (well_formed_fits _ W2) as [F2 R2].
  assert (Hline : parseTimestampLine (timestamp_line ct)
                  = {| tl_start := instant (ct_start ct);
                       tl_end := instant (ct_end ct);
                       tl_settings := fold_left applySetting (ct_tokens ct) zeroSettings;
                       tl_err := None |}).
  { unfold timestamp_line.
    rewrite (parseTimestampLine_fields (render (ct_start ct)) (render (ct_end ct)))
      by auto using render_plain, render_free_of, space_asciiSpace.
    rewrite (parseTimestamp_render _ N1 F1), (parseTimestamp_render _ N2 F2).
    now rewrite (wrap64_small _ R1), (wrap64_small _ R2). }
  assert (Hmatch : MatchString timestampLineRegex (timestamp_line ct) = true).
  { unfold timestamp_line.
    replace (render (ct_start ct) +:+ ct_ws1 ct +:+ "-->" +:+ ct_ws2 ct
             +:+ render (ct_end ct) +:+ tail_of (ct_tokens ct))
      with ((render (ct_start ct) +:+ ct_ws1 ct +:+ "-->" +:+ ct_ws2 ct
             +:+ render (ct_end ct)) +:+ tail_of (ct_tokens ct))
      by now rewrite !append_assoc.
    apply MatchString_word.
    exists (ct_start ct), (ct_end ct), (ct_ws1 ct), (ct_ws2 ct).
    repeat split; assumption. }
  unfold cue_lines, cue_of, parseCue.
  destruct (ct_id ct) as [id|].
  - split_andb.
    match goal with H : negb (MatchString _ id) = true |- _ => rewrite H end.
    cbv beta iota. cbn [length Nat.leb nth]. rewrite Hline.
    cbn [tl_err tl_start tl_end tl_settings].
    destruct (ct_body ct); reflexivity.
  - rewrite Hmatch. cbn [negb]. cbv beta iota. cbn [length Nat.leb nth].
    rewrite Hline. cbn [tl_err tl_start tl_end tl_settings].
    destruct (ct_body ct); reflexivity.
Qed.

Lemma cue_lines_first (ct : CueText) :
  good_cue ct = true ->
  exists first rest, cue_lines ct = first :: rest /\ cue_first first = true.
Proof.
  unfold good_cue, cue_lines. intros H. split_andb.
  destruct (ct_id ct) as [id|].
  - split_andb. eauto.
  - match goal with H : well_formed (ct_start ct) = true |- _ =>
      apply well_formed_numeric in H;
      destruct (render_starts_with_digit (ct_start ct)
                  (ct_ws1 ct +:+ "-->" +:+ ct_ws2 ct +:+ render (ct_end ct)
                   +:+ tail_of (ct_tokens ct)) H) as (d & r & E & Hd)
    end.
    unfold timestamp_line. rewrite E.
    exists (String d r), (ct_body ct). split; [reflexivity|].
    now apply digit_first_cue_first.
Qed.

Lemma classify_cue_lines (ct : CueText) :
  good_cue ct = true -> classify (cue_lines ct) = (Some (BlockCue (cue_of ct)), None).
Proof.
  intros H. destruct (cue_lines_first ct H) as (first & rest & E & Hf).
  unfold classify. pose proof (parseCue_cue_lines ct H) as Hc.
  rewrite E in *. rewrite (parseBlock_cue first rest Hf), Hc. reflexivity.
Qed.

Lemma cue_lines_no_blank (ct : CueText) :
  good_cue ct = true -> forallb (fun l => negb (isEmpty l)) (cue_lines ct) = true.
Proof.
  intros H. destruct (cue_lines_first ct H) as (first & rest & E & Hf).
  revert H E. unfold good_cue, cue_lines. intros H. split_andb.
  assert (Ht : negb (isEmpty (timestamp_line ct)) = true).
  { match goal with H : well_formed (ct_start ct) = true |- _ =>
      apply well_formed_numeric in H;
      destruct (render_starts_with_digit (ct_start ct)
                  (ct_ws1 ct +:+ "-->" +:+ ct_ws2 ct +:+ render (ct_end ct)
                   +:+ tail_of (ct_tokens ct)) H) as (d & r & E & Hd)
    end.
    unfold timestamp_line. now rewrite E. }
  destruct (ct_id ct) as [id|]; intros _; cbn [forallb]; split_andb;
    repeat (apply andb_true_iff; split); assumption.
Qed.

Lemma split_blank_group (g rest : list string) :
  forallb (fun l => negb (isEmpty l)) g = true ->
  split_blank (g ++ "" :: rest) = g :: split_blank rest.
Proof.
  induction g as [|l g IH]; intros H; [reflexivity|].
  cbn [forallb] in H. apply andb_true_iff in H as [Hl Hg].
  apply negb_true_iff in Hl.
  cbn [app split_blank]. rewrite Hl, (IH Hg). reflexivity.
Qed.

Lemma split_blank_last_group (g : list string) :
  forallb (fun l => negb (isEmpty l)) g = true -> split_blank g = [g].
Proof.
  induction g as [|l g IH]; intros H; [reflexivity|].
  cbn [forallb] in H. apply andb_true_iff in H as [Hl Hg].
  apply negb_true_iff in Hl.
  cbn [split_blank]. rewrite Hl, (IH Hg). reflexivity.
Qed.

Lemma document_groups (cts : list CueText) :
  forallb good_cue cts = true ->
  block_groups (document cts) = map cue_lines cts
  /\ (cts <> [] -> exists gs, split_blank (document cts) = [] :: gs).
Proof.
  unfold block_groups. induction cts as [|ct rest IH]; intros H.
  - split; [reflexivity|congruence].
  - cbn [forallb] in H. apply andb_true_iff in H as [Hct Hrest].
    destruct (IH Hrest) as [IH1 IH2].
    pose proof (cue_lines_no_blank ct Hct) as Hnb.
    destruct (cue_lines_first ct Hct) as (first & more & E & _).
    assert (Hne : nonempty (cue_lines ct) = true) by now rewrite E.
    cbn [document split_blank isEmpty]. split; [|eauto].
    cbn [List.filter nonempty length Nat.ltb Nat.leb].
    destruct rest as [|ct' rest'].
    + cbn [document]. rewrite app_nil_r, (split_blank_last_group _ Hnb).
      cbn [List.filter map]. now rewrite Hne.
    + destruct (IH2 ltac:(discriminate)) as [gs Hgs].
      change (document (ct' :: rest'))
        with ("" :: cue_lines ct' ++ document rest') in *.
      rewrite (split_blank_group _ _ Hnb).
      cbn [List.filter map]. rewrite Hne. f_equal.
      cbn [split_blank isEmpty] in IH1.
      cbn [List.filter nonempty length Nat.ltb Nat.leb] in IH1.
      exact IH1.
Qed.

Lemma classify_document (cts : list CueText) :
  forallb good_cue cts = true ->
  map classify (map cue_lines cts)
  = map (fun ct => (Some (BlockCue (cue_of ct)), None)) cts.
Proof.
  induction cts as [|ct rest IH]; intros H; [reflexivity|].
  cbn [forallb] in H. apply andb_true_iff in H as [Hct Hrest].
  cbn [map]. now rewrite (classify_cue_lines ct Hct), (IH Hrest).
Qed.

(** X24. End to end: a header line followed by well-formed cue blocks, each
    after a blank line, read without error, gives the document of exactly
    these cues, in order. *)
Theorem well_formed_document_decodes (header : string) (cts : list CueText) :
  (exists t, header = "WEBVTT" +:+ t) ->
  forallb good_cue cts = true ->
  ParseAll {| bufio.lines := header :: document cts; bufio.Err := None |}
  = (Some {| Cues := map cue_of cts |}, None).
Proof.
  intros Hh Hg. apply HasPrefix_spec in Hh.
  rewrite ParseAll_items.
  rewrite (items_block_groups
             {| bufio.lines := header :: document cts; bufio.Err := None |}
             header (document cts) eq_refl Hh).
  cbn [bufio.Err].
  destruct (document_groups cts Hg) as [Hgroups _].
  assert (Hd : Forall decodes (block_groups (document cts))).
  { rewrite Hgroups. clear Hgroups. induction cts as [|ct rest IH]; [constructor|].
    cbn [forallb] in Hg. apply andb_true_iff in Hg as [Hct Hrest].
    cbn [map]. constructor; [|now apply IH].
    pose proof (classify_cue_lines ct Hct) as Hc. unfold classify, decodes in *.
    destruct (parseBlock (cue_lines ct)) as [b [e|]]; [discriminate|reflexivity]. }
  rewrite (first_error_groups _ None Hd).
  rewrite cues_of_app, Hgroups, (classify_document cts Hg).
  assert (Hc : cues_of (map (fun ct => (Some (BlockCue (cue_of ct)), None)) cts)
               = map cue_of cts).
  { clear. induction cts as [|ct rest IH]; cbn [map cues_of]; [reflexivity|].
    now rewrite IH. }
  rewrite Hc. unfold read_error_item.
  destruct (snd (parseBlock _)); cbn [error_item cues_of]; now rewrite app_nil_r.
Qed.

Definition two_cue_texts : list CueText :=
  [{| ct_id := Some "intro"; ct_start := {| hh := None; mm := "00"; ss := "01"; frac := "000" |};
      ct_end := {| hh := None; mm := "00"; ss := "02"; frac := "500" |};
      ct_ws1 := " "; ct_ws2 := " "; ct_tokens := ["align:start"];
      ct_body := ["<v Ann>Hello"] |};
   {| ct_id := None; ct_start := {| hh := Some "1"; mm := "00"; ss := "00"; frac := "000" |};
      ct_end := {| hh := Some "1"; mm := "00"; ss := "01"; frac := "000" |};
      ct_ws1 := " "; ct_ws2 := " "; ct_tokens := [];
      ct_body := ["bye"; "now"] |}].

Lemma well_formed_document_decodes_witness :
  ParseAll {| bufio.lines :=
                ["WEBVTT - demo"; ""; "intro"; "00:01.000 --> 00:02.500 align:start";
                 "<v Ann>Hello"; ""; "1:00:00.000 --> 1:00:01.000"; "bye"; "now"];
              bufio.Err := None |}
  = (Some {| Cues := map cue_of two_cue_texts |}, None).
Proof.
  exact (well_formed_document_decodes "WEBVTT - demo" two_cue_texts
           (ex_intro _ " - demo" eq_refl) eq_refl).
Defined.

(** ** The text of a note *)

Lemma TrimSpace_fixed (w : string) : ends_plain w -> TrimSpace w = w.
Proof.
  intros H. pose proof (TrimSpace_ends_plain "" "" w eq_refl eq_refl H) as E.
  change ("" +:+ w +:+ "") with (w +:+ "") in E. now rewrite append_nil_r in E.
Qed.

Lemma TrimSpace_blank (ws : string) :
  all_bytes asciiSpace ws = true -> TrimSpace ws = "".
Proof.
  intros H. unfold TrimSpace.
  rewrite <- (append_nil_r ws), (TrimLeftSpace_spaces ws "" H). reflexivity.
Qed.

(** X25. The text of a note is the comment that follows the word NOTE on
    the first line and the remaining lines, joined by line feeds: the
    white space around the comment on the first line is dropped, and when
    the first line has no comment the text starts with the second line.
    (The text is supposed to start and to end with a byte that is no
    white space.) *)
Theorem note_text_joins_lines (ws1 ws2 c : string) (rest : list string) :
  all_bytes asciiSpace ws1 = true -> all_bytes asciiSpace ws2 = true ->
  (ends_plain c -> ends_plain (Join (c :: rest) nl) ->
   parseBlock (("NOTE" +:+ ws1 +:+ c +:+ ws2) :: rest)
   = (Some (BlockNote {| NoteText := Join (c :: rest) nl |}), None))
  /\ (rest <> [] -> ends_plain (Join rest nl) ->
      parseBlock (("NOTE" +:+ ws1) :: rest)
      = (Some (BlockNote {| NoteText := Join rest nl |}), None)).
Proof.
  intros H1 H2. unfold parseBlock, CutPrefix. split.
  - intros Hc Hj.
    rewrite (HasPrefix_app "NOTE" (ws1 +:+ c +:+ ws2)).
    change (drop (len "NOTE") ("NOTE" +:+ ws1 +:+ c +:+ ws2))
      with (ws1 +:+ c +:+ ws2).
    rewrite (TrimSpace_ends_plain ws1 ws2 c H1 H2 Hc).
    destruct rest as [|l rest].
    + cbn [length Nat.ltb Nat.leb]. now rewrite (TrimSpace_fixed c Hc).
    + cbn [length Nat.ltb Nat.leb].
      change (c +:+ nl +:+ Join (l :: rest) nl) with (Join (c :: l :: rest) nl).
      now rewrite (TrimSpace_fixed _ Hj).
  - intros Hne Hj.
    rewrite (HasPrefix_app "NOTE" ws1).
    change (drop (len "NOTE") ("NOTE" +:+ ws1)) with ws1.
    rewrite (TrimSpace_blank ws1 H1).
    destruct rest as [|l rest]; [congruence|].
    cbn [length Nat.ltb Nat.leb].
    change ("" +:+ nl +:+ Join (l :: rest) nl) with (nl +:+ Join (l :: rest) nl).
    rewrite <- (append_nil_r (nl +:+ _)), append_assoc.
    now rewrite (TrimSpace_ends_plain nl "" _ eq_refl eq_refl Hj).
Qed.

Lemma note_text_joins_lines_witness :
  parseBlock ["NOTE  a comment "; "on two lines"]
  = (Some (BlockNote {| NoteText := "a comment" +:+ nl +:+ "on two lines" |}), None)
  /\ parseBlock ["NOTE"; "a comment"; "below"]
     = (Some (BlockNote {| NoteText := "a comment" +:+ nl +:+ "below" |}), None).
Proof.
  assert (E : forall (a : ascii) (u : string) (d : ascii),
             plain_byte a = true -> plain_byte d = true ->
             ends_plain (String a (u +:+ String d ""))).
  { intros a u d Ha Hd. split; [now exists a, (u +:+ String d "")|].
    now exists (String a u), d. }
  split.
  - refine (proj1 (note_text_joins_lines "  " " " "a comment" ["on two lines"]
                     eq_refl eq_refl) _ _).
    + exact (E "a"%char " commen" "t"%char eq_refl eq_refl).
    + exact (E "a"%char (" comment" +:+ nl +:+ "on two line") "s"%char
               eq_refl eq_refl).
  - refine (proj2 (note_text_joins_lines "" "" "" ["a comment"; "below"]
                     eq_refl eq_refl) _ _).
    + discriminate.
    + exact (E "a"%char (" comment" +:+ nl +:+ "belo") "w"%char eq_refl eq_refl).
Defined.
